(** * Tree-sequence simplification toolkit: shallow embedding and properties

    The development embeds two Python sources:
    - [tests/tsutil.py]: fixture utilities over tree-sequence tables;
    - [simplify_work/simplify_algorithms.py]: the [Simplifier] engine and
      the command-line driver [run_simplify].

    Genomic coordinates and node times are Python floats in the source.
    They are modelled as exact rationals ([Q]); every comparison the
    source performs on them is a numeric comparison ([Qcompare]).  Node
    identifiers index tables and are naturals; the mutation parent and the
    population columns use the library sentinel [-1] and are integers. *)

From Stdlib Require Import QArith Lqa.
From stdpp Require Import gmap strings list fin_maps pretty.

Open Scope Z_scope.

(** ** Data model: the four tables of a tree sequence *)

Module Tables.

Record NodeRow := mkNode
  { n_flags : Z; n_name : string; n_population : Z; n_time : Q }.

Record EdgeRow := mkEdge
  { e_left : Q; e_right : Q; e_parent : nat; e_child : nat }.

Record SiteRow := mkSite
  { s_position : Q; s_ancestral_state : string }.

Record MutationRow := mkMutation
  { m_site : nat; m_node : nat; m_derived_state : string; m_parent : Z }.

Record TreeSequence := mkTS
  { nodes : list NodeRow;
    edges : list EdgeRow;
    sites : list SiteRow;
    mutations : list MutationRow;
    sequence_length : Q }.

(** Library constants. *)
Definition NULL_MUTATION : Z := -1.
Definition NULL_POPULATION : Z := -1.
Definition SAMPLE_FLAG : Z := 1.

(** A node is a sample when bit 0 of its flags is set. *)
Definition is_sample (r : NodeRow) : bool := Z.testbit (n_flags r) 0.

(** [ts.samples()]: the identifiers of the sample nodes, ascending. *)
Fixpoint samples_from (j : nat) (ns : list NodeRow) : list nat :=
  match ns with
  | [] => []
  | r :: ns' =>
      if is_sample r then j :: samples_from (S j) ns'
      else samples_from (S j) ns'
  end.

Definition samples (ts : TreeSequence) : list nat := samples_from 0 (nodes ts).

(** [ts.sample_size]. *)
Definition sample_size (ts : TreeSequence) : nat := length (samples ts).

Definition num_nodes (ts : TreeSequence) : nat := length (nodes ts).
Definition num_edges (ts : TreeSequence) : nat := length (edges ts).

(** [a < b] on coordinates. *)
Definition Qltb (a b : Q) : bool := negb (Qle_bool b a).

Definition Qmaxq (a b : Q) : Q := if Qle_bool a b then b else a.
Definition Qminq (a b : Q) : Q := if Qle_bool a b then a else b.

(** [msprime.load_tables]: when no sequence length is passed the library
    takes the largest right coordinate of the edge table. *)
Definition inferred_length (es : list EdgeRow) : Q :=
  foldr (fun e acc => Qmaxq (e_right e) acc) 0%Q es.

Definition load_tables (ns : list NodeRow) (es : list EdgeRow)
    (ss : list SiteRow) (ms : list MutationRow) (len : option Q)
    : TreeSequence :=
  mkTS ns es ss ms (default (inferred_length es) len).

End Tables.

Import Tables.

(** ** [tests/tsutil.py] *)

Module Tsutil.

(** *** [insert_redundant_breakpoints] *)

(** The two rows added for one edge [r] (source lines 142-146). *)
Definition split_edge (r : EdgeRow) : list EdgeRow :=
  let x := (e_left r + (e_right r - e_left r) / 2)%Q in
  [ mkEdge (e_left r) x (e_parent r) (e_child r);
    mkEdge x (e_right r) (e_parent r) (e_child r) ].

Fixpoint redundant_rows (es : list EdgeRow) : list EdgeRow :=
  match es with
  | [] => []
  | r :: es' => split_edge r ++ redundant_rows es'
  end.

(** The final [assert] of the source is the [None] case. *)
Definition insert_redundant_breakpoints (ts : TreeSequence)
    : option TreeSequence :=
  let new_ts :=
    load_tables (nodes ts) (redundant_rows (edges ts)) (sites ts)
      (mutations ts) (Some (sequence_length ts)) in
  if Nat.eqb (num_edges new_ts) (2 * num_edges ts) then Some new_ts else None.

(** *** [jiggle_samples] *)

(** Python slice bounds: a negative bound counts from the end, and both
    bounds are clamped to [0, len]. *)
Definition slice_bound (len : nat) (i : Z) : nat :=
  let l := Z.of_nat len in
  Z.to_nat (if i <? 0 then Z.max (i + l) 0 else Z.min i l).

(** [a[lo:hi] = v] on a numpy array: every position in the slice takes the
    scalar [v]; an empty slice changes nothing. *)
Definition slice_assign {A} (a : list A) (lo hi : Z) (v : A) : list A :=
  let l := slice_bound (length a) lo in
  let h := slice_bound (length a) hi in
  imap (fun j x => if (l <=? j)%nat && (j <? h)%nat then v else x) a.

(** [nodes.set_columns(flags, time)]: the columns not passed take the
    library defaults (empty name, null population); the two arrays must
    have the same length. *)
Fixpoint set_columns (flags : list Z) (times : list Q)
    : option (list NodeRow) :=
  match flags, times with
  | [], [] => Some []
  | f :: fs, t :: ts =>
      rows ← set_columns fs ts;
      Some (mkNode f "" NULL_POPULATION t :: rows)
  | _, _ => None
  end.

Definition jiggle_samples (ts : TreeSequence) : option TreeSequence :=
  let flags := map n_flags (nodes ts) in
  (* tables.edges.parent[-1] raises IndexError on an empty edge table *)
  e ← last (edges ts);
  let oldest_parent := Z.of_nat (e_parent e) in
  let n := Z.of_nat (sample_size ts) in
  let flags := slice_assign flags 0 (n / 2) 0 in
  let flags := slice_assign flags (oldest_parent - n / 2) oldest_parent 1 in
  rows ← set_columns flags (map n_time (nodes ts));
  Some (load_tables rows (edges ts) [] [] None).

(** *** [permute_nodes] *)

(** Python list indexing [l[i]] with a natural index: [IndexError] is
    [None]. *)
Definition py_index {A} (l : list A) (i : nat) : option A := l !! i.

(** Python list assignment [l[i] = x]: [IndexError] out of range. *)
Definition py_setitem {A} (l : list A) (i : nat) (x : A) : option (list A) :=
  if (i <? length l)%nat then Some (<[i:=x]> l) else None.

(** Lines 105-107: [reverse_map[node_map[j]] = j] for [j] in
    [range(ts.num_nodes)], starting from a list of zeros as long as
    [node_map]. *)
Fixpoint fill_reverse_map (node_map : list nat) (js : list nat)
    (reverse_map : list nat) : option (list nat) :=
  match js with
  | [] => Some reverse_map
  | j :: js' =>
      i ← py_index node_map j;
      rm ← py_setitem reverse_map i j;
      fill_reverse_map node_map js' rm
  end.

Definition reverse_map_of (ts : TreeSequence) (node_map : list nat)
    : option (list nat) :=
  fill_reverse_map node_map (seq 0 (num_nodes ts))
    (replicate (length node_map) 0%nat).

(** Lines 110-114. *)
Fixpoint permuted_nodes (old_nodes : list NodeRow) (reverse_map : list nat)
    (js : list nat) : option (list NodeRow) :=
  match js with
  | [] => Some []
  | j :: js' =>
      o ← py_index reverse_map j;
      old_node ← py_index old_nodes o;
      rows ← permuted_nodes old_nodes reverse_map js';
      Some (mkNode (n_flags old_node) (n_name old_node)
              (n_population old_node) (n_time old_node) :: rows)
  end.

(** Lines 116-119. *)
Fixpoint permuted_edges (node_map : list nat) (es : list EdgeRow)
    : option (list EdgeRow) :=
  match es with
  | [] => Some []
  | edge :: es' =>
      p ← py_index node_map (e_parent edge);
      c ← py_index node_map (e_child edge);
      rows ← permuted_edges node_map es';
      Some (mkEdge (e_left edge) (e_right edge) p c :: rows)
  end.

(** [site.mutations]: the rows of the mutation table at site [s], in table
    order. *)
Definition site_mutations (ts : TreeSequence) (s : nat) : list MutationRow :=
  filter (fun m => m_site m = s) (mutations ts).

(** Lines 125-128: the rows added for the mutations of site [s].  The call
    passes [site], [derived_state] and [node] only, so the [parent] column
    takes the library default. *)
Fixpoint permuted_mutations_at (node_map : list nat) (s : nat)
    (ms : list MutationRow) : option (list MutationRow) :=
  match ms with
  | [] => Some []
  | mutation :: ms' =>
      u ← py_index node_map (m_node mutation);
      rows ← permuted_mutations_at node_map s ms';
      Some (mkMutation s u (m_derived_state mutation) NULL_MUTATION :: rows)
  end.

(** Lines 122-128: the outer loop over the sites, site index [s] upwards. *)
Fixpoint permuted_mutations (ts : TreeSequence) (node_map : list nat)
    (s : nat) (ss : list SiteRow) : option (list MutationRow) :=
  match ss with
  | [] => Some []
  | _ :: ss' =>
      here ← permuted_mutations_at node_map s (site_mutations ts s);
      rest ← permuted_mutations ts node_map (S s) ss';
      Some (here ++ rest)
  end.

(** [msprime.sort_tables]: the canonical order.  Edges are ordered by the
    time of the parent, then parent, child and left coordinate; sites by
    position, with the site column of the mutation table renumbered
    accordingly; mutations by site, rows of one site keeping their
    order.  Every sort is a stable insertion sort. *)
Section Sorting.
Context {A : Type} (leb : A → A → bool).

Fixpoint insert_sorted (x : A) (l : list A) : list A :=
  match l with
  | [] => [x]
  | y :: l' => if leb y x then y :: insert_sorted x l' else x :: l
  end.

Definition stable_sort (l : list A) : list A :=
  foldr insert_sorted [] (reverse l).
End Sorting.

Definition node_time (ns : list NodeRow) (u : nat) : Q :=
  default 0%Q (n_time <$> ns !! u).

Definition edge_leb (ns : list NodeRow) (a b : EdgeRow) : bool :=
  let ta := node_time ns (e_parent a) in
  let tb := node_time ns (e_parent b) in
  if Qltb ta tb then true else if Qltb tb ta then false
  else if (e_parent a <? e_parent b)%nat then true
  else if (e_parent b <? e_parent a)%nat then false
  else if (e_child a <? e_child b)%nat then true
  else if (e_child b <? e_child a)%nat then false
  else Qle_bool (e_left a) (e_left b).

Definition site_leb (a b : nat * SiteRow) : bool :=
  Qle_bool (s_position a.2) (s_position b.2).

Definition mutation_leb (a b : MutationRow) : bool :=
  (m_site a <=? m_site b)%nat.

(** New index of the site that had index [s] before the sort. *)
Definition site_rank (order : list (nat * SiteRow)) (s : nat) : nat :=
  default s (fst <$> list_find (fun p => p.1 = s) order).

Definition sort_tables (ns : list NodeRow) (es : list EdgeRow)
    (ss : list SiteRow) (ms : list MutationRow)
    : list EdgeRow * list SiteRow * list MutationRow :=
  let order := stable_sort site_leb (imap (fun j s => (j, s)) ss) in
  let ms' :=
    map (fun m => mkMutation (site_rank order (m_site m)) (m_node m)
                    (m_derived_state m) (m_parent m)) ms in
  (stable_sort (edge_leb ns) es, map snd order, stable_sort mutation_leb ms').

Definition permute_nodes (ts : TreeSequence) (node_map : list nat)
    : option TreeSequence :=
  reverse_map ← reverse_map_of ts node_map;
  new_nodes ← permuted_nodes (nodes ts) reverse_map (seq 0 (num_nodes ts));
  new_edges ← permuted_edges node_map (edges ts);
  let new_sites := map (fun s => mkSite (s_position s) (s_ancestral_state s))
                     (sites ts) in
  new_mutations ← permuted_mutations ts node_map 0 (sites ts);
  let '(es, ss, ms) :=
    sort_tables new_nodes new_edges new_sites new_mutations in
  Some (load_tables new_nodes es ss ms None).

(** *** [insert_branch_mutations] *)

(** [ts.trees()] is supplied by the library.  A tree is given by its
    interval and its roots; below each root hangs a finite tree of node
    identifiers, in the order [tree.children] lists them. *)
#[warnings="-register-all"]
Inductive rtree := RNode (id : nat) (kids : list rtree).

Definition root_id (t : rtree) : nat := let 'RNode u _ := t in u.
Definition kids_of (t : rtree) : list rtree := let 'RNode _ ks := t in ks.

Record SparseTree := mkTree
  { interval_left : Q; interval_right : Q; roots : list rtree }.

Fixpoint tree_size (t : rtree) : nat :=
  let 'RNode _ ks := t in
  S ((fix sizes (l : list rtree) : nat :=
        match l with [] => 0%nat | k :: l' => (tree_size k + sizes l')%nat end)
       ks).

(** The local dictionaries [state] and [mutation] of one root, and the
    mutation table being filled. *)
Record walk := mkWalk
  { state : gmap nat Z; mutation : gmap nat Z; rows : list MutationRow }.

(** [str(state[u])]. *)
Definition str (z : Z) : string := pretty z.

(** Lines 87-93: the loop over [range(mutations_per_branch)] for node [u].
    [parent] is the local variable of that name. *)
Fixpoint place (j : nat) (site u : nat) (parent : Z) (w : walk)
    : option walk :=
  match j with
  | O => Some w
  | S j' =>
      s ← state w !! u;
      let s' := (s + 1) `mod` 2 in
      let id := Z.of_nat (length (rows w)) in
      place j' site u id
        (mkWalk (<[u:=s']> (state w)) (<[u:=id]> (mutation w))
           (rows w ++ [mkMutation site u (str s') parent]))
  end.

(** A stack entry: the subtree rooted at the pushed node, together with
    [tree.parent] of that node ([None] is [NULL_NODE]).  The head of the
    list is the last element of the Python list. *)
Definition frame : Type := option nat * rtree.

Definition frames_size (st : list frame) : nat :=
  foldr (fun f acc => (tree_size f.2 + acc)%nat) 0%nat st.

(** Lines 80-93.  A dictionary lookup that fails ([KeyError]) is [None];
    the fuel bounds the number of pops. *)
Fixpoint dfs (fuel : nat) (mutations_per_branch site : nat)
    (stack : list frame) (w : walk) : option walk :=
  match stack with
  | [] => Some w
  | (v, RNode u kids) :: stack' =>
      match fuel with
      | O => None
      | S fuel' =>
          let stack'' := reverse (map (fun k => (Some u, k)) kids) ++ stack' in
          match v with
          | None => dfs fuel' mutations_per_branch site stack'' w
          | Some v =>
              sv ← state w !! v;
              let w1 := mkWalk (<[u:=sv]> (state w)) (mutation w) (rows w) in
              parent ← mutation w1 !! v;
              w2 ← place mutations_per_branch site u parent w1;
              dfs fuel' mutations_per_branch site stack'' w2
          end
      end
  end.

(** Lines 76-93 for one root. *)
Definition walk_root (mutations_per_branch site : nat) (root : rtree)
    (ms : list MutationRow) : option (list MutationRow) :=
  let w := mkWalk {[root_id root := 0]} {[root_id root := -1]} ms in
  rows <$> dfs (tree_size root) mutations_per_branch site [(None, root)] w.

Fixpoint walk_roots (mutations_per_branch site : nat) (rs : list rtree)
    (ms : list MutationRow) : option (list MutationRow) :=
  match rs with
  | [] => Some ms
  | root :: rs' =>
      ms' ← walk_root mutations_per_branch site root ms;
      walk_roots mutations_per_branch site rs' ms'
  end.

(** Lines 73-93: the loop over the trees; [ss] and [ms] are the site and
    mutation tables built so far. *)
Fixpoint walk_trees (mutations_per_branch : nat) (ts : list SparseTree)
    (ss : list SiteRow) (ms : list MutationRow)
    : option (list SiteRow * list MutationRow) :=
  match ts with
  | [] => Some (ss, ms)
  | tree :: ts' =>
      let site := length ss in
      let ss' := ss ++ [mkSite (interval_left tree) "0"] in
      ms' ← walk_roots mutations_per_branch site (roots tree) ms;
      walk_trees mutations_per_branch ts' ss' ms'
  end.

Definition insert_branch_mutations (ts : TreeSequence)
    (trees : list SparseTree) (mutations_per_branch : nat)
    : option TreeSequence :=
  '(ss, ms) ← walk_trees mutations_per_branch trees [] [];
  Some (load_tables (nodes ts) (edges ts) ss ms None).

(** *** [decapitate] *)

(** [a[:hi]] on a numpy array. *)
Definition slice_to {A} (a : list A) (hi : Z) : list A :=
  take (slice_bound (length a) hi) a.

(** [edges.set_columns(left, right, parent, child)]: the four arrays must
    have the same length. *)
Fixpoint edge_set_columns (ls rs : list Q) (ps cs : list nat)
    : option (list EdgeRow) :=
  match ls, rs, ps, cs with
  | [], [], [], [] => Some []
  | l :: ls', r :: rs', p :: ps', c :: cs' =>
      rows ← edge_set_columns ls' rs' ps' cs';
      Some (mkEdge l r p c :: rows)
  | _, _, _, _ => None
  end.

Definition decapitate (ts : TreeSequence) (num_edges : Z)
    : option TreeSequence :=
  let es := edges ts in
  rows ← edge_set_columns
            (slice_to (map e_left es) num_edges)
            (slice_to (map e_right es) num_edges)
            (slice_to (map e_parent es) num_edges)
            (slice_to (map e_child es) num_edges);
  Some (load_tables (nodes ts) rows (sites ts) (mutations ts)
          (Some (sequence_length ts))).

(** *** [single_childify] *)

(** Lines 165-173.  [time] is the copy of the time column taken before
    the loop; [ns] and [rows] are the node and edge tables being
    extended.  [nodes.add_row(time=t)] takes the library defaults for
    the other columns. *)
Fixpoint childified (time : list Q) (es : list EdgeRow)
    (ns : list NodeRow) (rows : list EdgeRow)
    : option (list NodeRow * list EdgeRow) :=
  match es with
  | [] => Some (ns, rows)
  | edge :: es' =>
      let u := length ns in
      tc ← py_index time (e_child edge);
      tp ← py_index time (e_parent edge);
      let t := (tc + (tp - tc) / 2)%Q in
      childified time es'
        (ns ++ [mkNode 0 "" NULL_POPULATION t])
        (rows ++ [mkEdge (e_left edge) (e_right edge) u (e_child edge);
                  mkEdge (e_left edge) (e_right edge) (e_parent edge) u])
  end.

Definition single_childify (ts : TreeSequence) : option TreeSequence :=
  '(ns, es) ← childified (map n_time (nodes ts)) (edges ts) (nodes ts) [];
  let '(es', ss, ms) := sort_tables ns es (sites ts) (mutations ts) in
  Some (load_tables ns es' ss ms None).

(** *** [subsample_sites] *)

(** Lines 45-48: the rows added for the mutations of one kept site. *)
Definition copied_mutations (site_id : nat) (ms : list MutationRow)
    : list MutationRow :=
  map (fun mutation =>
         mkMutation site_id (m_node mutation) (m_derived_state mutation)
           (m_parent mutation)) ms.

(** Lines 40-48: the loop over the sites, from the site of index [index]
    on; [new_sites] and [new_mutations] are the tables being filled. *)
Fixpoint subsampled (ts : TreeSequence) (sites_to_keep : list nat)
    (index : nat) (todo : list SiteRow)
    (new_sites : list SiteRow) (new_mutations : list MutationRow)
    : list SiteRow * list MutationRow :=
  match todo with
  | [] => (new_sites, new_mutations)
  | site :: todo' =>
      if bool_decide (index ∈ sites_to_keep) then
        let site_id := length new_sites in
        subsampled ts sites_to_keep (S index) todo'
          (new_sites ++ [mkSite (s_position site) (s_ancestral_state site)])
          (new_mutations
           ++ copied_mutations site_id (site_mutations ts index))
      else
        subsampled ts sites_to_keep (S index) todo' new_sites new_mutations
  end.

(** The pseudorandom source of the [random] module is a state of an
    unspecified type; [random.sample] reads and advances it, and raises
    when the requested size is out of range. *)
Section Subsample.
Context {rng : Type}.
Variable random_sample : rng → list nat → Z → option (list nat * rng).

Definition subsample_sites (ts : TreeSequence) (num_sites : Z) (g : rng)
    : option (TreeSequence * rng) :=
  '(sites_to_keep, g) ←
    random_sample g (seq 0 (length (sites ts))) num_sites;
  let '(ss, ms) := subsampled ts sites_to_keep 0 (sites ts) [] [] in
  Some (load_tables (nodes ts) (edges ts) ss ms
          (Some (sequence_length ts)), g).
End Subsample.

End Tsutil.

(** ** [simplify_work/simplify_algorithms.py] *)

Module Simplify.

(** Python's two-argument [max] and [min]: the first argument wins a tie. *)
Definition py_max (a b : Q) : Q := if Qltb a b then b else a.
Definition py_min (a b : Q) : Q := if Qltb b a then b else a.

(** *** The breakpoint counter map [S] (a [bintrees.AVLTree])

    The tree is represented by its in-order listing: keys strictly
    ascending.  A failed lookup ([KeyError]) is [None]. *)
Abbreviation avl := (list (Q * Z)).

(** [S[k] = v]: an existing key keeps its key object and takes the value. *)
Fixpoint avl_set (k : Q) (v : Z) (s : avl) : avl :=
  match s with
  | [] => [(k, v)]
  | (k', v') :: s' =>
      match (k ?= k')%Q with
      | Lt => (k, v) :: s
      | Eq => (k', v) :: s'
      | Gt => (k', v') :: avl_set k v s'
      end
  end.

(** [S[k]]. *)
Fixpoint avl_get (k : Q) (s : avl) : option Z :=
  match s with
  | [] => None
  | (k', v') :: s' => if Qeq_bool k k' then Some v' else avl_get k s'
  end.

(** [k in S]. *)
Definition avl_mem (k : Q) (s : avl) : bool := bool_decide (is_Some (avl_get k s)).

(** [S.floor_key(k)]: the greatest key not above [k]. *)
Fixpoint floor_key (k : Q) (s : avl) : option Q :=
  match s with
  | [] => None
  | (k', _) :: s' =>
      if Qle_bool k' k then
        match floor_key k s' with Some j => Some j | None => Some k' end
      else None
  end.

(** First key above [k] in the listing. *)
Fixpoint first_above (k : Q) (s : avl) : option Q :=
  match s with
  | [] => None
  | (k', _) :: s' => if Qltb k k' then Some k' else first_above k s'
  end.

(** [S.succ_key(k)]: the least key above [k]; the library raises
    [KeyError] when [k] is not a key or is the greatest key. *)
Definition succ_key (k : Q) (s : avl) : option Q :=
  if avl_mem k s then first_above k s else None.

(** *** Segments, the arena and the engine state *)

(** Modelled from the spec: a segment is a genomic interval [[left, right)]
    attributed to one node and one population, linked by previous/next
    relations; the class itself is in the base simulation module.  A link
    is the arena index of the segment it refers to. *)
Record Segment := mkSeg
  { left : Q; right : Q; node : nat; population : nat;
    prev : option nat; next : option nat }.

(** A segment freshly built by [Segment(index)]: no field is meaningful
    before [alloc_segment] sets it. *)
Definition blank : Segment := mkSeg 0 0 0 0 None None.

(** One coalescence record [(l, r, u, children, t)] of the log [C]. *)
Record CRecord := mkRec
  { c_left : Q; c_right : Q; c_node : nat; c_children : list nat; c_time : Q }.

(** The edgesets the library yields from [ts.edgesets()]. *)
Record Edgeset := mkEdgeset
  { left_ : Q; right_ : Q; parent_ : nat; children_ : list nat }.

(** The fields of a [Simplifier] object.  [segment_stack] has the last
    element of the Python list at its head; [segments] is the arena, by
    index; [P] lists the indexes of the chain heads registered in the
    single population. *)
Record Simplifier := mkSimplifier
  { ts : TreeSequence;
    n : nat;
    m : Q;
    max_segments : nat;
    segment_stack : list nat;
    segments : gmap nat Segment;
    P : list nat;
    C : list CRecord;
    L : gmap nat Q;
    S_ : avl;
    A : gmap nat nat;
    pop_index : nat;
    t : Q;
    w : nat;
    num_ca_events : nat;
    num_re_events : nat }.

Definition set_store (st : Simplifier) (stack : list nat)
    (segs : gmap nat Segment) : Simplifier :=
  mkSimplifier (ts st) (n st) (m st) (max_segments st) stack segs (P st)
    (C st) (L st) (S_ st) (A st) (pop_index st) (t st) (w st)
    (num_ca_events st) (num_re_events st).

Definition set_segments (st : Simplifier) (segs : gmap nat Segment)
    : Simplifier := set_store st (segment_stack st) segs.

Definition set_P (st : Simplifier) (p : list nat) : Simplifier :=
  mkSimplifier (ts st) (n st) (m st) (max_segments st) (segment_stack st)
    (segments st) p (C st) (L st) (S_ st) (A st) (pop_index st) (t st) (w st)
    (num_ca_events st) (num_re_events st).

Definition set_C (st : Simplifier) (c : list CRecord) : Simplifier :=
  mkSimplifier (ts st) (n st) (m st) (max_segments st) (segment_stack st)
    (segments st) (P st) c (L st) (S_ st) (A st) (pop_index st) (t st) (w st)
    (num_ca_events st) (num_re_events st).

Definition set_L (st : Simplifier) (l : gmap nat Q) : Simplifier :=
  mkSimplifier (ts st) (n st) (m st) (max_segments st) (segment_stack st)
    (segments st) (P st) (C st) l (S_ st) (A st) (pop_index st) (t st) (w st)
    (num_ca_events st) (num_re_events st).

Definition set_S (st : Simplifier) (s : avl) : Simplifier :=
  mkSimplifier (ts st) (n st) (m st) (max_segments st) (segment_stack st)
    (segments st) (P st) (C st) (L st) s (A st) (pop_index st) (t st) (w st)
    (num_ca_events st) (num_re_events st).

Definition set_A (st : Simplifier) (a : gmap nat nat) : Simplifier :=
  mkSimplifier (ts st) (n st) (m st) (max_segments st) (segment_stack st)
    (segments st) (P st) (C st) (L st) (S_ st) a (pop_index st) (t st) (w st)
    (num_ca_events st) (num_re_events st).

Definition set_t (st : Simplifier) (time : Q) : Simplifier :=
  mkSimplifier (ts st) (n st) (m st) (max_segments st) (segment_stack st)
    (segments st) (P st) (C st) (L st) (S_ st) (A st) (pop_index st) time
    (w st) (num_ca_events st) (num_re_events st).

Definition set_w (st : Simplifier) (w' : nat) : Simplifier :=
  mkSimplifier (ts st) (n st) (m st) (max_segments st) (segment_stack st)
    (segments st) (P st) (C st) (L st) (S_ st) (A st) (pop_index st) (t st)
    w' (num_ca_events st) (num_re_events st).

(** Field reads and writes on the segment object with index [i]. *)
Definition seg (st : Simplifier) (i : nat) : option Segment := segments st !! i.

Definition update_seg (st : Simplifier) (i : nat) (f : Segment → Segment)
    : option Simplifier :=
  x ← seg st i;
  Some (set_segments st (<[i := f x]> (segments st))).

Definition with_left (v : Q) (x : Segment) : Segment :=
  mkSeg v (right x) (node x) (population x) (prev x) (next x).
Definition with_right (v : Q) (x : Segment) : Segment :=
  mkSeg (left x) v (node x) (population x) (prev x) (next x).
Definition with_prev (v : option nat) (x : Segment) : Segment :=
  mkSeg (left x) (right x) (node x) (population x) v (next x).
Definition with_next (v : option nat) (x : Segment) : Segment :=
  mkSeg (left x) (right x) (node x) (population x) (prev x) v.

(** Modelled from the spec: [alloc_segment(left, right, node, population,
    prev=absent, next=absent)] of the base simulation module draws a free
    arena slot, is fatal if the free list is empty, and returns the new
    segment.  The free list is the [segment_stack] the constructor builds;
    the slot drawn is its last element. *)
Definition alloc_segment (st : Simplifier) (l r : Q) (u pop : nat)
    (pv nx : option nat) : option (Simplifier * nat) :=
  match segment_stack st with
  | [] => None
  | i :: stack' =>
      Some (set_store st stack' (<[i := mkSeg l r u pop pv nx]> (segments st)), i)
  end.

(** Modelled from the spec: [free_segment] of the base simulation module
    returns a slot to the free list. *)
Definition free_segment (st : Simplifier) (i : nat) : Simplifier :=
  set_store st (i :: segment_stack st) (segments st).

(** Modelled from the spec: the weighted index [L] of the base simulation
    module, a ledger over arena slots that is written and never read
    here; [set_value] records the weight of a slot. *)
Definition L_set_value (st : Simplifier) (i : nat) (v : Q) : Simplifier :=
  set_L st (<[i := v]> (L st)).

(** Modelled from the spec: [add(segment)] of the population container
    registers a chain head. *)
Definition pop_add (st : Simplifier) (i : nat) : Simplifier :=
  set_P st (P st ++ [i]).

(** [SearchablePopulation.from_index]: the first registered head whose
    index matches. *)
Definition from_index (st : Simplifier) (index : nat) : option nat :=
  snd <$> list_find (fun x => x = index) (P st).

(** *** [Simplifier.__init__] *)

(** Lines 64-69, for the identifiers [ks] of [range(sample_size)]. *)
Fixpoint init_samples (st : Simplifier) (samples : list nat) (ks : list nat)
    : option Simplifier :=
  match ks with
  | [] => Some st
  | k :: ks' =>
      if bool_decide (k ∈ samples) then
        '(st1, x) ← alloc_segment st 0 (m st) k (pop_index st) None None;
        let st2 := L_set_value st1 x (m st - 1)%Q in
        let st3 := pop_add st2 x in
        let st4 := set_A st3 (<[k := x]> (A st3)) in
        init_samples st4 samples ks'
      else init_samples st samples ks'
  end.

(** The arena the constructor builds: slots [1 .. max_segments]. *)
Definition fresh_arena (max_segments : nat) : gmap nat Segment :=
  list_to_map (map (fun j => (S j, blank)) (seq 0 max_segments)).

Definition fresh_stack (max_segments : nat) : list nat :=
  reverse (map S (seq 0 max_segments)).

Definition Simplifier_init (ts : TreeSequence) (samples : list nat)
    (max_segments : nat) : option Simplifier :=
  let sample_size := length (Tables.samples ts) in
  let num_loci := sequence_length ts in
  let st :=
    mkSimplifier ts sample_size num_loci max_segments
      (fresh_stack max_segments) (fresh_arena max_segments)
      [] [] ∅ [] ∅ 0 0 0 0 0 in
  st ← init_samples st samples (seq 0 sample_size);
  let st := set_S st (avl_set 0 (Z.of_nat (n st)) (S_ st)) in
  let st := set_S st (avl_set (m st) (-1) (S_ st)) in
  let st := set_t st 0 in
  let st := set_w st (n st) in
  Some st.

(** Default of the constructor's [max_segments] argument. *)
Definition default_max_segments : nat := 100.

(** *** [get_ancestor] *)
Definition get_ancestor (st : Simplifier) (u : nat) : option nat :=
  match A st !! u with
  | Some i => from_index st i
  | None => None
  end.

(** *** The merge heap [H] (a [heapq] list of [(x.left, x)] pairs)

    The heap is represented by its entries in the order [heappop] yields
    them: keys ascending.  The order of entries with equal keys is that
    of the segment comparison of the base module; here a pushed entry
    goes behind the entries of equal key. *)
Abbreviation heap := (list (Q * nat)).

Fixpoint heappush (H : heap) (e : Q * nat) : heap :=
  match H with
  | [] => [e]
  | e' :: H' => if Qltb e.1 e'.1 then e :: H else e' :: heappush H' e
  end.

(** *** [remove_ancestry] *)

(** The local variables of the loop over one child's chain. *)
Record removal := mkRemoval
  { r_st : Simplifier;
    r_H : heap;
    r_x : option nat;
    r_y : option nat;
    r_z : option nat;
    r_w : option nat;
    output_head : bool;
    overhang_right : bool }.

(** Lines 117-148: the body of the loop when the segment [x] overlaps the
    edge.  The boolean of the result tells whether the loop was left by
    [break]. *)
Definition remove_overlap (edge : Edgeset) (s : removal) (x : nat)
    : option (removal * bool) :=
  let st := r_st s in
  xs ← seg st x;
  let seg_right := right xs in
  let out_left := py_max (left_ edge) (left xs) in
  let out_right := py_min (right_ edge) (right xs) in
  let overhang_left := Qltb (left xs) out_left in
  let overhang_right := Qltb out_right (right xs) in
  '(st, y, w) ←
    (if overhang_left then
       st ← update_seg st x (with_right out_left);
       '(st, wi) ← alloc_segment st out_left out_right (node xs)
                     (population xs) (r_w s) None;
       Some (st, Some x, wi)
     else
       st ← update_seg st x (with_prev (r_w s));
       st ← update_seg st x (with_right out_right);
       Some (st, r_y s, x));
  '(H, output_head) ←
    (if output_head s then
       ws ← seg st w; Some (heappush (r_H s) (left ws, w), false)
     else Some (r_H s, output_head s));
  if overhang_right then
    xs ← seg st x;
    '(st, z) ← alloc_segment st out_right seg_right (node xs)
                 (population xs) y (next xs);
    st ← match y with
         | Some yi => update_seg st yi (with_next (Some z))
         | None => Some st
         end;
    xs ← seg st x;
    st ← match next xs with
         | Some nx => update_seg st nx (with_prev (Some z))
         | None => Some st
         end;
    Some (mkRemoval st H (Some x) y (Some z) (Some w) output_head true, true)
  else
    xs ← seg st x;
    Some (mkRemoval st H (next xs) y (r_z s) (Some w) output_head false, false).

(** Lines 116-153: the [while] loop.  The fuel bounds the number of
    iterations; a run that exhausts it, like one that raises, is [None]. *)
Fixpoint remove_loop (fuel : nat) (edge : Edgeset) (s : removal)
    : option removal :=
  match r_x s with
  | None => Some s
  | Some x =>
      xs ← seg (r_st s) x;
      if Qltb (left xs) (right_ edge) then
        match fuel with
        | O => None
        | S fuel' =>
            if Qle_bool (left_ edge) (right xs)
               && Qle_bool (left xs) (right_ edge)
            then
              match remove_overlap edge s x with
              | Some (s', true) => Some s'
              | Some (s', false) => remove_loop fuel' edge s'
              | None => None
              end
            else
              remove_loop fuel' edge
                (mkRemoval (r_st s) (r_H s) (next xs) (Some x) (r_z s)
                   (r_w s) (output_head s) (overhang_right s))
        end
      else Some s
  end.

(** Lines 155-167: the wrap-up for [child] after the loop. *)
Definition remove_wrap_up (child : nat) (s : removal) : option Simplifier :=
  let st := r_st s in
  if negb (output_head s) then
    let z := if negb (overhang_right s) then r_x s else r_z s in
    st ← match r_y s with
         | Some y => update_seg st y (with_next z)
         | None => Some st
         end;
    st ← match z with
         | Some zi => update_seg st zi (with_prev (r_y s))
         | None => Some st
         end;
    match r_y s with
    | None =>
        match z with
        | None => Some (set_A st (delete child (A st)))
        | Some zi => Some (set_A st (<[child := zi]> (A st)))
        end
    | Some _ => Some st
    end
  else Some st.

(** Lines 104-167 for one child.  Before its first assignment
    [overhang_right] is unbound in the source; it is read only after an
    overlap has assigned it. *)
Definition remove_child (fuel : nat) (edge : Edgeset) (st : Simplifier)
    (H : heap) (child : nat) : option (Simplifier * heap) :=
  match A st !! child with
  | None => Some (st, H)
  | Some _ =>
      let x := get_ancestor st child in
      s ← remove_loop fuel edge (mkRemoval st H x None None None true false);
      st' ← remove_wrap_up child s;
      Some (st', r_H s)
  end.

Fixpoint remove_children (fuel : nat) (edge : Edgeset) (st : Simplifier)
    (H : heap) (children : list nat) : option (Simplifier * heap) :=
  match children with
  | [] => Some (st, H)
  | child :: rest =>
      '(st', H') ← remove_child fuel edge st H child;
      remove_children fuel edge st' H' rest
  end.

(** Lines 99-102: the entry for the edge's parent.  [w.left] on an absent
    ancestor raises. *)
Definition remove_parent (edge : Edgeset) (st : Simplifier) (H : heap)
    : option heap :=
  match A st !! parent_ edge with
  | None => Some H
  | Some _ =>
      w ← get_ancestor st (parent_ edge);
      ws ← seg st w;
      Some (heappush H (left ws, w))
  end.

Definition remove_ancestry (fuel : nat) (st : Simplifier) (edge : Edgeset)
    : option (Simplifier * heap) :=
  H ← remove_parent edge st [];
  remove_children fuel edge st H (children_ edge).

(** *** [merge_labeled_ancestors] *)

(** Lines 186-189: pop every entry whose key equals [l]. *)
Fixpoint pop_batch (st : Simplifier) (l : Q) (H : heap) (X : list nat)
    (r_max : Q) : option (heap * list nat * Q) :=
  match H with
  | (k, x) :: H' =>
      if Qeq_bool k l then
        xs ← seg st x;
        pop_batch st l H' (X ++ [x]) (py_min r_max (right xs))
      else Some (H, X, r_max)
  | [] => Some (H, X, r_max)
  end.

(** Lines 193-204: a batch of one segment [x]. *)
Definition merge_single (st : Simplifier) (H : heap) (x : nat)
    : option (Simplifier * heap * option nat) :=
  xs ← seg st x;
  match H with
  | (k, _) :: _ =>
      if Qltb k (right xs) then
        '(st, alpha) ← alloc_segment st (left xs) k (node xs) (population xs)
                         None None;
        st ← update_seg st x (with_left k);
        Some (st, heappush H (k, x), Some alpha)
      else
        H ← match next xs with
            | Some y => ys ← seg st y; Some (heappush H (left ys, y))
            | None => Some H
            end;
        st ← update_seg st x (with_next None);
        Some (st, H, Some x)
  | [] =>
      H ← match next xs with
          | Some y => ys ← seg st y; Some (heappush H (left ys, y))
          | None => Some H
          end;
      st ← update_seg st x (with_next None);
      Some (st, H, Some x)
  end.

(** Lines 212-217: make [k] a key of [S], with the count of the nearest key
    below it. *)
Definition ensure_key (k : Q) (s : avl) : option avl :=
  if avl_mem k s then Some s
  else
    j ← floor_key k s;
    v ← avl_get j s;
    Some (avl_set k v s).

(** Lines 224-226: the [while] loop over successor keys; [k] is [len(X)].
    The loop moves to a strictly greater key each time, so the fuel
    [S (length s)] given by the caller is never exhausted on a map whose
    keys ascend. *)
Fixpoint walk_right (fuel : nat) (s : avl) (r r_max : Q) (k : Z)
    : option (avl * Q) :=
  if Qltb r r_max then
    c ← avl_get r s;
    if bool_decide (c ≠ k) then
      match fuel with
      | O => None
      | S fuel' =>
          let s' := avl_set r (c - (k - 1)) s in
          r' ← succ_key r s';
          walk_right fuel' s' r' r_max k
      end
    else Some (s, r)
  else Some (s, r).

(** Lines 219-227: the right bound [r] of the coalesced interval and the
    segment [alpha], if one is allocated. *)
Definition coalesce_bound (st : Simplifier) (l r_max : Q) (k : Z)
    (u pop_id : nat) : option (Simplifier * Q * option nat) :=
  c ← avl_get l (S_ st);
  if bool_decide (c = k) then
    let st := set_S st (avl_set l 0 (S_ st)) in
    r ← succ_key l (S_ st);
    Some (st, r, None)
  else
    '(s, r) ← walk_right (S (length (S_ st))) (S_ st) l r_max k;
    let st := set_S st s in
    '(st, alpha) ← alloc_segment st l r u pop_id None None;
    Some (st, r, Some alpha).

(** Lines 230-239: the loop over the members of the batch. *)
Fixpoint settle_batch (st : Simplifier) (H : heap) (X : list nat) (r : Q)
    (children : list nat) : option (Simplifier * heap * list nat) :=
  match X with
  | [] => Some (st, H, children)
  | x :: X' =>
      xs ← seg st x;
      let children := children ++ [node xs] in
      if Qeq_bool (right xs) r then
        let st := free_segment st x in
        xs ← seg st x;
        H ← match next xs with
            | Some y => ys ← seg st y; Some (heappush H (left ys, y))
            | None => Some H
            end;
        settle_batch st H X' r children
      else if Qltb r (right xs) then
        st ← update_seg st x (with_left r);
        settle_batch st (heappush H (r, x)) X' r children
      else settle_batch st H X' r children
  end.

(** Lines 206-240: a batch of several segments.  The result carries the
    new value of the flag [coalescence] implicitly: it is [true]. *)
Definition merge_coalesce (st : Simplifier) (H : heap) (X : list nat)
    (l r_max : Q) (coalescence : bool) (pop_id : nat)
    : option (Simplifier * heap * option nat) :=
  let st := if negb coalescence then set_w st (w st + 1) else st in
  let u := (w st - 1)%nat in
  s ← ensure_key l (S_ st);
  s ← ensure_key r_max s;
  let st := set_S st s in
  '(st, r, alpha) ← coalesce_bound st l r_max (Z.of_nat (length X)) u pop_id;
  '(st, H, children) ← settle_batch st H X r [];
  let st := set_C st (C st ++ [mkRec l r u children (t st)]) in
  Some (st, H, alpha).

(** The variables of the main loop that outlive one iteration. *)
Record merging := mkMerging
  { g_st : Simplifier;
    g_H : heap;
    g_z : option nat;
    defrag_required : bool;
    coalescence : bool }.

(** Lines 243-254: the tail of the loop body. *)
Definition integrate (g : merging) (parent : nat) (alpha : option nat)
    : option merging :=
  let st := g_st g in
  match alpha with
  | None => Some g
  | Some a =>
      als ← seg st a;
      '(st, defrag) ←
        match g_z g with
        | None =>
            let st := pop_add st a in
            let st := set_A st (<[parent := a]> (A st)) in
            Some (L_set_value st a (right als - left als - 1)%Q,
                  defrag_required g)
        | Some z =>
            zs ← seg st z;
            let d := Qeq_bool (right zs) (left als)
                     && bool_decide (node zs = node als) in
            st ← update_seg st z (with_next (Some a));
            Some (L_set_value st a (right als - right zs)%Q,
                  defrag_required g || d)
        end;
      st ← update_seg st a (with_prev (g_z g));
      Some (mkMerging st (g_H g) (Some a) defrag (coalescence g))
  end.

(** Lines 182-254: one iteration of the main loop, for a non-empty heap. *)
Definition merge_step (g : merging) (parent pop_id : nat) : option merging :=
  match g_H g with
  | [] => None
  | (l, _) :: _ =>
      '(H, X, r_max) ← pop_batch (g_st g) l (g_H g) [] (m (g_st g) + 1)%Q;
      let r_max := match H with
                   | (k, _) :: _ => py_min r_max k
                   | [] => r_max
                   end in
      match X with
      | [x] =>
          '(st, H, alpha) ← merge_single (g_st g) H x;
          integrate (mkMerging st H (g_z g) (defrag_required g)
                       (coalescence g)) parent alpha
      | _ =>
          '(st, H, alpha) ← merge_coalesce (g_st g) H X l r_max
                              (coalescence g) pop_id;
          integrate (mkMerging st H (g_z g) (defrag_required g) true)
            parent alpha
      end
  end.

(** Lines 179-254: the main loop. *)
Fixpoint merge_loop (fuel : nat) (g : merging) (parent pop_id : nat)
    : option merging :=
  match g_H g with
  | [] => Some g
  | _ :: _ =>
      match fuel with
      | O => None
      | S fuel' =>
          g' ← merge_step g parent pop_id;
          merge_loop fuel' g' parent pop_id
      end
  end.

(** Modelled from the spec: the chain-defragmentation pass
    [defrag_segment_chain] of the base simulation module merges
    physically the adjacent segments of the chain ending at [z] that abut
    and share their node; the second of each pair goes back to the free
    list. *)
Fixpoint defrag_segment_chain (fuel : nat) (st : Simplifier) (y : nat)
    : option Simplifier :=
  ys ← seg st y;
  match prev ys with
  | None => Some st
  | Some x =>
      match fuel with
      | O => None
      | S fuel' =>
          xs ← seg st x;
          if Qeq_bool (right xs) (left ys) && bool_decide (node xs = node ys)
          then
            st ← update_seg st x (with_right (right ys));
            st ← update_seg st x (with_next (next ys));
            st ← match next ys with
                 | Some nx => update_seg st nx (with_prev (Some x))
                 | None => Some st
                 end;
            defrag_segment_chain fuel' (free_segment st y) x
          else defrag_segment_chain fuel' st x
      end
  end.

(** Modelled from the spec: the breakpoint-defragmentation pass
    [defrag_breakpoints] of the base simulation module collapses
    redundant equal-valued adjacent entries of [S]: an entry that repeats
    the count of the entry kept before it is removed. *)
Fixpoint collapse_from (v : Z) (s : avl) : avl :=
  match s with
  | [] => []
  | (k, v') :: s' =>
      if bool_decide (v' = v) then collapse_from v s'
      else (k, v') :: collapse_from v' s'
  end.

Definition defrag_breakpoints (st : Simplifier) : Simplifier :=
  match S_ st with
  | [] => st
  | (k, v) :: s' => set_S st ((k, v) :: collapse_from v s')
  end.

(** Lines 170-258.  [self.P[pop_id]] exists for population [0] only. *)
Definition merge_labeled_ancestors (fuel : nat) (st : Simplifier) (H : heap)
    (parent pop_id : nat) : option Simplifier :=
  if bool_decide (pop_id = 0%nat) then
    g ← merge_loop fuel (mkMerging st H None false false) parent pop_id;
    st ← (if defrag_required g then
            z ← g_z g; defrag_segment_chain fuel (g_st g) z
          else Some (g_st g));
    Some (if coalescence g then defrag_breakpoints st else st)
  else None.

(** *** [simplify] *)

(** [ts.edgesets()] is supplied by the library: adjacent rows of the edge
    table with the same interval and parent form one edgeset. *)
Fixpoint edgesets_of (es : list EdgeRow) : list Edgeset :=
  match es with
  | [] => []
  | e :: es' =>
      match edgesets_of es' with
      | g :: gs =>
          if Qeq_bool (e_left e) (left_ g) && Qeq_bool (e_right e) (right_ g)
             && bool_decide (e_parent e = parent_ g)
          then mkEdgeset (left_ g) (right_ g) (parent_ g)
                 (e_child e :: children_ g) :: gs
          else mkEdgeset (e_left e) (e_right e) (e_parent e) [e_child e]
                 :: g :: gs
      | [] => [mkEdgeset (e_left e) (e_right e) (e_parent e) [e_child e]]
      end
  end.

Fixpoint simplify_edges (fuel : nat) (st : Simplifier) (es : list Edgeset)
    : option Simplifier :=
  match es with
  | [] => Some st
  | edge :: es' =>
      parent_node ← nodes (ts st) !! parent_ edge;
      let st := set_t st (n_time parent_node) in
      '(st, H) ← remove_ancestry fuel st edge;
      st ← merge_labeled_ancestors fuel st H (parent_ edge) (pop_index st);
      simplify_edges fuel st es'
  end.

Definition simplify (fuel : nat) (st : Simplifier) : option Simplifier :=
  simplify_edges fuel st (edgesets_of (edges (ts st))).

(** *** The command-line driver [run_simplify] *)

(** The process-wide pseudorandom source of the [random] module is a
    state of an unspecified type [rng]: [random.sample] reads and advances
    it (and raises when the requested size is out of range),
    [random.seed] replaces it. *)
Section Driver.
Context {rng : Type}.
Variable random_sample : rng → list nat → Z → option (list nat * rng).
Variable random_seed : Z → rng.
Variable load : string → option TreeSequence.

Record Args := mkArgs
  { tree_sequence : string; sample_size_ : Z; random_seed_ : Z }.

(** Lines 265-269.  The result is the state of the pseudorandom source,
    the subset drawn and the engine after [simplify]; writing the tables
    as text and printing the trees are left to the libraries. *)
Definition run_simplify (fuel : nat) (g : rng) (args : Args)
    : option (rng * list nat * Simplifier) :=
  ts ← load (tree_sequence args);
  '(samples, g) ← random_sample g (Tables.samples ts) (sample_size_ args);
  let g := random_seed (random_seed_ args) in
  s ← Simplifier_init ts samples default_max_segments;
  s ← simplify fuel s;
  Some (g, samples, s).

(** The subset drawn at line 266. *)
Definition drawn_samples (g : rng) (args : Args) : option (list nat) :=
  ts ← load (tree_sequence args);
  fst <$> random_sample g (Tables.samples ts) (sample_size_ args).
End Driver.

End Simplify.

(** ** Notions used in the statements *)

Module Notions.
Import Tsutil.

(** The flags column [jiggle_samples] hands to [set_columns] (lines
    189-193), for the parent [oldest_parent] of the last edge row. *)
Definition jiggled_flags (ts : TreeSequence) (oldest_parent : nat) : list Z :=
  let n := Z.of_nat (sample_size ts) in
  slice_assign (slice_assign (map n_flags (nodes ts)) 0 (n / 2) 0)
    (Z.of_nat oldest_parent - n / 2) (Z.of_nat oldest_parent) 1.

(** A flags value carries the sample flag. *)
Definition flagged (f : Z) : Prop := Z.testbit f 0 = true.

#[global] Instance flagged_dec f : Decision (flagged f).
Proof. unfold flagged. apply _. Defined.

(** [branch t v u]: in the tree [t], the node [u] hangs directly below the
    node [v]. *)
Inductive branch : rtree → nat → nat → Prop :=
  | branch_here v ks k :
      k ∈ ks → branch (RNode v ks) v (root_id k)
  | branch_below v ks k a b :
      k ∈ ks → branch k a b → branch (RNode v ks) a b.

Definition forest_size (l : list rtree) : nat :=
  foldr (fun k acc => (tree_size k + acc)%nat) 0%nat l.

(** Number of branches below the roots of one tree, and of all trees. *)
Definition branches_of_roots (rs : list rtree) : nat :=
  foldr (fun r acc => (tree_size r - 1 + acc)%nat) 0%nat rs.

Definition branches_of_trees (trees : list SparseTree) : nat :=
  foldr (fun tr acc => (branches_of_roots (roots tr) + acc)%nat) 0%nat trees.

(** Branches hanging from the frames of a stack: every node of a frame
    below its own top node, and the top node too when it has a parent. *)
Definition frames_branches (st : list frame) : nat :=
  foldr (fun (f : frame) acc =>
           (tree_size f.2 - match f.1 with Some _ => 0 | None => 1 end
            + acc)%nat) 0%nat st.

(** [root_at trees s R]: [R] is a root of the tree whose site is [s]. *)
Definition root_at (trees : list SparseTree) (s : nat) (R : rtree) : Prop :=
  ∃ tr, trees !! s = Some tr ∧ R ∈ roots tr.

(** The row [i] of the mutation table [M] continues a lineage: either it
    is the first mutation below a root (no parent, derived state ['1']),
    or its parent is an earlier row at the same site with the other
    derived state, placed on the same node or on the node just above. *)
Definition chained (trees : list SparseTree) (M : list MutationRow)
    (i : nat) (row : MutationRow) : Prop :=
  (m_derived_state row = "0" ∨ m_derived_state row = "1") ∧
  (∃ R, root_at trees (m_site row) R) ∧
  ((m_parent row = -1 ∧ m_derived_state row = "1" ∧
    ∃ R, root_at trees (m_site row) R ∧
         branch R (root_id R) (m_node row))
   ∨
   (∃ p prow,
      m_parent row = Z.of_nat p ∧ (p < i)%nat ∧ M !! p = Some prow ∧
      m_site prow = m_site row ∧
      m_derived_state prow ≠ m_derived_state row ∧
      (m_node prow = m_node row ∨
       ∃ R, root_at trees (m_site row) R ∧
            branch R (m_node prow) (m_node row)))).

(** Every row of a mutation table continues a lineage. *)
Definition rows_ok (trees : list SparseTree) (M : list MutationRow) : Prop :=
  ∀ i row, M !! i = Some row → chained trees M i row.

(** What the local variable [parent] and the state [s] of the node [u]
    stand for, before the next mutation is placed above [u] in the walk
    below the root [R] at [site]. *)
Definition lineage_tip (site : nat) (R : rtree) (M : list MutationRow)
    (u : nat) (parent s : Z) : Prop :=
  (parent = -1 ∧ s = 0 ∧ branch R (root_id R) u) ∨
  (∃ p prow,
     parent = Z.of_nat p ∧ M !! p = Some prow ∧ m_site prow = site ∧
     m_derived_state prow = str s ∧
     (m_node prow = u ∨ branch R (m_node prow) u)).

(** The entries of the two dictionaries for the node [v] agree with the
    mutation table. *)
Definition dict_ok_at (site : nat) (R : rtree) (w : walk) (v : nat) : Prop :=
  ∀ id, mutation w !! v = Some id →
    ∃ s, state w !! v = Some s ∧ (s = 0 ∨ s = 1) ∧
      ((id = -1 ∧ s = 0 ∧ v = root_id R) ∨
       (∃ p prow,
          id = Z.of_nat p ∧ rows w !! p = Some prow ∧ m_node prow = v ∧
          m_site prow = site ∧ m_derived_state prow = str s)).

(** A stack entry is a part of the tree below [R] whose parent has been
    visited. *)
Definition frame_ok (R : rtree) (w : walk) (f : frame) : Prop :=
  match f.1 with
  | None => f.2 = R ∧ is_Some (mutation w !! root_id R)
  | Some v => is_Some (mutation w !! v) ∧ branch R v (root_id f.2)
  end ∧ (∀ a b, branch f.2 a b → branch R a b).

(** The kept identifiers the constructor allocates a segment for: the
    members of [range(n)] that occur in [samples]. *)
Definition kept_in_range (samples : list nat) (n : nat) : list nat :=
  filter (fun k => k ∈ samples) (seq 0 n).

(** Every entry of the ancestor index map points to a registered
    full-interval segment of its own node, outside the free list. *)
Definition heads_ok (st : Simplify.Simplifier) : Prop :=
  NoDup (Simplify.segment_stack st) ∧
  ∀ k x, Simplify.A st !! k = Some x →
    Simplify.segments st !! x
    = Some (Simplify.mkSeg 0 (Simplify.m st) k (Simplify.pop_index st)
              None None) ∧
    x ∈ Simplify.P st ∧ x ∉ Simplify.segment_stack st.

(** Two engine states with the same counter [w] and the same log [C]. *)
Definition same_log (st st' : Simplify.Simplifier) : Prop :=
  Simplify.w st' = Simplify.w st ∧ Simplify.C st' = Simplify.C st.

(** The log [C'] extends [C] by the records of the ancestors created
    from the counter value [w0] on: the records of the [i]-th new
    ancestor form the [i]-th group, and carry the identifier [w0 + i]. *)
Definition logged_in_order (w0 : nat) (C C' : list Simplify.CRecord)
    (gs : list (list Simplify.CRecord)) : Prop :=
  C' = C ++ concat gs ∧
  ∀ i g, gs !! i = Some g →
    g ≠ [] ∧ Forall (fun r => Simplify.c_node r = (w0 + i)%nat) g.

(** Within one call of [merge_labeled_ancestors] that started with the
    counter [w0] and the log [C0]: either no batch of several segments
    was met yet, or the counter moved once and every record added
    carries the identifier [w0]. *)
Definition merge_inv (w0 : nat) (C0 : list Simplify.CRecord)
    (co : bool) (st : Simplify.Simplifier) : Prop :=
  (co = false ∧ Simplify.w st = w0 ∧ Simplify.C st = C0) ∨
  (co = true ∧ Simplify.w st = S w0 ∧
   ∃ recs, recs ≠ [] ∧ Simplify.C st = C0 ++ recs ∧
           Forall (fun r => Simplify.c_node r = w0) recs).

(** The walk of the claim, in its words: from the key [r], while [r] is
    left of [r_max] and the count at [r] is not [k], the count at [r] is
    decremented by [k - 1] and the walk moves to the successor key; it
    stops at the first key whose count is [k], or at [r_max].
    [walked k r_max s r s' r'] relates the map and key at the start to
    the map and key at the stop. *)
Inductive walked (k : Z) (r_max : Q)
    : Simplify.avl → Q → Simplify.avl → Q → Prop :=
  | walked_stop s r :
      Qltb r r_max = false ∨ Simplify.avl_get r s = Some k →
      walked k r_max s r s r
  | walked_step s r c r' s' r'' :
      Qltb r r_max = true →
      Simplify.avl_get r s = Some c → c ≠ k →
      Simplify.succ_key r (Simplify.avl_set r (c - (k - 1)) s) = Some r' →
      walked k r_max (Simplify.avl_set r (c - (k - 1)) s) r' s' r'' →
      walked k r_max s r s' r''.

(** Number of keys of the map above [r]. *)
Definition count_above (r : Q) (s : Simplify.avl) : nat :=
  length (filter (fun e : Q * Z => Qltb r e.1 = true) s).

(** [chain_from segs x c]: following the [next] links from [x] visits
    the segments [c], in this order, and ends. *)
Fixpoint chain_from (segs : gmap nat Simplify.Segment) (x : option nat)
    (c : list nat) : Prop :=
  match c with
  | [] => x = None
  | a :: c' =>
      x = Some a ∧
      ∃ sa, segs !! a = Some sa ∧ chain_from segs (Simplify.next sa) c'
  end.

(** [removed_run edge segs W]: the segments [W] lie within the interval
    of the edge and each is linked by [prev] to the one before it; the
    first has no [prev]. *)
Definition removed_run (edge : Simplify.Edgeset)
    (segs : gmap nat Simplify.Segment) (W : list nat) : Prop :=
  ∀ j a, W !! j = Some a →
    ∃ sa, segs !! a = Some sa ∧
      Simplify.prev sa = match j with O => None | S j' => W !! j' end ∧
      (Simplify.left_ edge <= Simplify.left sa)%Q ∧
      (Simplify.right sa <= Simplify.right_ edge)%Q.

(** The heap after the removal of the run [W]: one entry more than
    before, for the first segment of the run. *)
Definition heap_after (segs : gmap nat Simplify.Segment)
    (H0 : Simplify.heap) (W : list nat) (H : Simplify.heap) : Prop :=
  match W with
  | [] => H = H0
  | w1 :: _ =>
      ∃ sw, segs !! w1 = Some sw ∧
            H = Simplify.heappush H0 (Simplify.left sw, w1)
  end.

(** A segment that survives in front of the edge ends at or before its
    left end; one that survives behind it starts at or after its right
    end. *)
Definition ends_before (edge : Simplify.Edgeset)
    (segs : gmap nat Simplify.Segment) (y : option nat) : Prop :=
  ∀ yi, y = Some yi →
    ∃ sy, segs !! yi = Some sy ∧
          (Simplify.right sy <= Simplify.left_ edge)%Q.

Definition starts_after (edge : Simplify.Edgeset)
    (segs : gmap nat Simplify.Segment) (z : option nat) : Prop :=
  ∀ zi, z = Some zi →
    ∃ sz, segs !! zi = Some sz ∧
          (Simplify.right_ edge <= Simplify.left sz)%Q.

(** The segment [remove_wrap_up] takes for [z]. *)
Definition residue (s : Simplify.removal) : option nat :=
  if Simplify.overhang_right s then Simplify.r_z s else Simplify.r_x s.

(** The invariant of the loop of [remove_ancestry] over one chain: [rest]
    is the part of the chain still to visit, [W] the run removed so far,
    [H0] the heap before the loop. *)
Definition removal_inv (edge : Simplify.Edgeset) (H0 : Simplify.heap)
    (s : Simplify.removal) (W rest : list nat) : Prop :=
  let st := Simplify.r_st s in
  chain_from (Simplify.segments st) (Simplify.r_x s) rest ∧
  NoDup rest ∧ NoDup (Simplify.segment_stack st) ∧
  (∀ a, a ∈ rest → a ∉ Simplify.segment_stack st) ∧
  (∀ a, a ∈ W → (a ∉ rest) ∧ (a ∉ Simplify.segment_stack st)) ∧
  removed_run edge (Simplify.segments st) W ∧
  heap_after (Simplify.segments st) H0 W (Simplify.r_H s) ∧
  Simplify.r_w s = last W ∧
  Simplify.output_head s = bool_decide (W = []) ∧
  Simplify.overhang_right s = false ∧
  ends_before edge (Simplify.segments st) (Simplify.r_y s) ∧
  (∀ yi, Simplify.r_y s = Some yi →
         (yi ∉ rest) ∧ (yi ∉ Simplify.segment_stack st)).

(** What holds when the loop is left, by [break] or not. *)
Definition removal_done (edge : Simplify.Edgeset) (H0 : Simplify.heap)
    (s : Simplify.removal) (W : list nat) : Prop :=
  let segs := Simplify.segments (Simplify.r_st s) in
  removed_run edge segs W ∧
  heap_after segs H0 W (Simplify.r_H s) ∧
  Simplify.output_head s = bool_decide (W = []) ∧
  ends_before edge segs (Simplify.r_y s) ∧
  starts_after edge segs (residue s) ∧
  (∀ zi, residue s = Some zi → zi ∉ W).

(** After the wrap-up the piece in front of the removed run and the piece
    behind it point at each other. *)
Definition stitched (segs : gmap nat Simplify.Segment) (y z : option nat)
    : Prop :=
  (∀ yi, y = Some yi →
     ∃ sy, segs !! yi = Some sy ∧ Simplify.next sy = z) ∧
  (∀ zi, z = Some zi →
     ∃ sz, segs !! zi = Some sz ∧ Simplify.prev sz = y).

(** The ancestor index map after the wrap-up for [child], lines 160-167:
    untouched when a piece [y] stays in front, else the entry is deleted
    or moved to the piece [z] behind. *)
Definition A_after (child : nat) (A0 : gmap nat nat) (y z : option nat)
    : gmap nat nat :=
  match y, z with
  | Some _, _ => A0
  | None, None => delete child A0
  | None, Some zi => <[child := zi]> A0
  end.

(** [arena_step st st']: the engine [st'] differs from [st] in the arena
    (free list and segments) and in the ancestor index map only; the
    free list has only lost slots, and the map has no new key. *)
Definition arena_step (st st' : Simplify.Simplifier) : Prop :=
  (∃ stack segs A',
     st' = Simplify.set_A (Simplify.set_store st stack segs) A') ∧
  Simplify.segment_stack st' `suffix_of` Simplify.segment_stack st ∧
  (∀ u, Simplify.A st !! u = None → Simplify.A st' !! u = None).

(** The children of an edge that have an entry in the ancestor index
    map. *)
Definition carrying (st : Simplify.Simplifier) (children : list nat)
    : list nat :=
  filter (fun c => is_Some (Simplify.A st !! c)) children.

(** The time [single_childify] gives to the node it inserts on the edge
    [e]: half way between the child and the parent. *)
Definition midpoint_time (ns : list NodeRow) (e : EdgeRow) : Q :=
  (node_time ns (e_child e)
   + (node_time ns (e_parent e) - node_time ns (e_child e)) / 2)%Q.

Definition inserted_node (ns : list NodeRow) (e : EdgeRow) : NodeRow :=
  mkNode 0 "" NULL_POPULATION (midpoint_time ns e).

(** The two rows that replace the edge [e] when the node [u] is
    inserted on it, and the rows for a list of edges whose inserted
    nodes are numbered from [u] on. *)
Definition split_rows (u : nat) (e : EdgeRow) : list EdgeRow :=
  [mkEdge (e_left e) (e_right e) u (e_child e);
   mkEdge (e_left e) (e_right e) (e_parent e) u].

Fixpoint childified_rows (u : nat) (es : list EdgeRow) : list EdgeRow :=
  match es with
  | [] => []
  | e :: es' => split_rows u e ++ childified_rows (S u) es'
  end.

(** Both ends of every edge are rows of the node table. *)
Definition edges_in_range (ts : TreeSequence) : Prop :=
  Forall (fun e => (e_parent e < num_nodes ts)%nat ∧
                   (e_child e < num_nodes ts)%nat) (edges ts).

(** The indices of the sites [subsample_sites] keeps, ascending. *)
Definition kept_sites (ts : TreeSequence) (drawn : list nat) : list nat :=
  filter (fun i => i ∈ drawn) (seq 0 (length (sites ts))).

(** The mutation rows copied for the kept sites [ks], the first of which
    becomes the site [site_id]. *)
Fixpoint kept_mutations (ts : TreeSequence) (site_id : nat) (ks : list nat)
    : list MutationRow :=
  match ks with
  | [] => []
  | i :: ks' =>
      copied_mutations site_id (site_mutations ts i)
      ++ kept_mutations ts (S site_id) ks'
  end.

(** The edge [e] with both ends renamed by [node_map]. *)
Definition relabel_edge (node_map : list nat) (e : EdgeRow) : EdgeRow :=
  mkEdge (e_left e) (e_right e)
    (default 0%nat (node_map !! e_parent e))
    (default 0%nat (node_map !! e_child e)).

(** With [mutations_per_branch = 0] the dictionary [mutation] keeps the
    root as its only key.  [key_error root f]: the stack entry [f] has a
    parent other than [root], or will push such an entry. *)
Inductive key_error (root : nat) : frame → Prop :=
  | key_error_here v t :
      v ≠ root → key_error root (Some v, t)
  | key_error_below v u kids k :
      k ∈ kids → key_error root (Some u, k) →
      key_error root (v, RNode u kids).

(** A node two branches below the root [R]. *)
Definition has_grandchild (R : rtree) : Prop :=
  ∃ k g, k ∈ kids_of R ∧ root_id k ≠ root_id R ∧ g ∈ kids_of k.

(** Every child of the root [R] is a leaf. *)
Definition flat (R : rtree) : Prop :=
  Forall (fun k => kids_of k = []) (kids_of R).

(** The node and the right end of the segment [x], as the batch loop of
    [merge_labeled_ancestors] reads them. *)
Definition node_of (st : Simplify.Simplifier) (x : nat) : option nat :=
  Simplify.node <$> Simplify.segments st !! x.

Definition ends_at (st : Simplify.Simplifier) (r : Q) (x : nat) : Prop :=
  ∃ xs, Simplify.segments st !! x = Some xs ∧
        Qeq_bool (Simplify.right xs) r = true.

#[global] Instance ends_at_dec st r x : Decision (ends_at st r x).
Proof.
  unfold ends_at. destruct (Simplify.segments st !! x) as [xs|].
  - destruct (Qeq_bool (Simplify.right xs) r) eqn:Heq.
    + left. by exists xs.
    + right. intros (xs' & [= <-] & Hxs). congruence.
  - right. by intros (xs & ? & _).
Defined.

(** The keys of the breakpoint map ascend strictly. *)
Fixpoint ascending (s : Simplify.avl) : Prop :=
  match s with
  | [] => True
  | (k, _) :: s' => Forall (fun e : Q * Z => (k < e.1)%Q) s' ∧ ascending s'
  end.

(** The count the breakpoint map gives for the position [p]: the value
    at the greatest key not above [p]. *)
Definition count_at (p : Q) (s : Simplify.avl) : option Z :=
  j ← Simplify.floor_key p s; Simplify.avl_get j s.

(** The value at the greatest key not above [p], read along the
    listing. *)
Fixpoint value_at (p : Q) (s : Simplify.avl) : option Z :=
  match s with
  | [] => None
  | (k', v') :: s' =>
      if Qle_bool k' p then Some (default v' (value_at p s')) else None
  end.

End Notions.

(** ** Example inputs *)

Module Examples.
Import Tsutil.

(** The smallest genealogy: two samples below one root. *)
Definition two_samples : TreeSequence :=
  mkTS [mkNode 1 "" 0 0; mkNode 1 "" 0 0; mkNode 0 "" 0 5]
       [mkEdge 0 10 2 0; mkEdge 0 10 2 1] [] [] 10.

(** Three samples: [3] is the parent of [0] and [1], [4] the parent of
    [2] and [3]. *)
Definition three_samples : TreeSequence :=
  mkTS [mkNode 1 "" 0 0; mkNode 1 "" 0 0; mkNode 1 "" 0 0;
        mkNode 0 "" 0 1; mkNode 0 "" 0 2]
       [mkEdge 0 10 3 0; mkEdge 0 10 3 1; mkEdge 0 10 4 2; mkEdge 0 10 4 3]
       [] [] 10.

(** [three_samples] with one site carrying a mutation above node [3] and
    a back mutation above node [0] that refers to it. *)
Definition back_mutation : TreeSequence :=
  mkTS (nodes three_samples) (edges three_samples)
       [mkSite 5 "0"]
       [mkMutation 0 3 "1" NULL_MUTATION; mkMutation 0 0 "0" 0]
       10.

(** The node map that exchanges the samples [0] and [1]; it is its own
    inverse. *)
Definition swap01 : list nat := [1; 0; 2; 3; 4]%nat.

(** Four samples in two families that never join: [4] is the parent of
    [0] and [1], [5] the parent of [2] and [3].  The single tree has the
    two roots [4] and [5]. *)
Definition two_families : TreeSequence :=
  mkTS [mkNode 1 "" 0 0; mkNode 1 "" 0 0; mkNode 1 "" 0 0; mkNode 1 "" 0 0;
        mkNode 0 "" 0 1; mkNode 0 "" 0 1]
       [mkEdge 0 10 4 0; mkEdge 0 10 4 1; mkEdge 0 10 5 2; mkEdge 0 10 5 3]
       [] [] 10.

Definition two_families_trees : list SparseTree :=
  [mkTree 0 10 [RNode 4 [RNode 0 []; RNode 1 []];
                RNode 5 [RNode 2 []; RNode 3 []]]].

(** A toy pseudorandom source: the state is a counter, a draw of [k]
    elements takes them from the position the counter points at,
    cyclically, and advances the counter; seeding sets the counter. *)
Definition toy_sample (g : nat) (population : list nat) (k : Z)
    : option (list nat * nat) :=
  if (0 <=? k) && (k <=? Z.of_nat (length population)) then
    Some (take (Z.to_nat k) (rotate g population), S g)
  else None.

Definition toy_seed (a : Z) : nat := Z.to_nat a.

Definition toy_load (path : string) : option TreeSequence :=
  if String.eqb path "three.trees" then Some three_samples else None.

(** The first iteration of [simplify] up to the call of
    [merge_labeled_ancestors]: the engine built over [samples] with six
    arena slots, after [remove_ancestry] on the first edgeset, and the
    heap it returns. *)
Definition first_removal (ts0 : TreeSequence) (samples : list nat)
    : option (Simplify.Simplifier * Simplify.heap) :=
  st ← Simplify.Simplifier_init ts0 samples 6;
  edge ← head (Simplify.edgesets_of (edges ts0));
  parent_node ← nodes ts0 !! Simplify.parent_ edge;
  Simplify.remove_ancestry 10 (Simplify.set_t st (n_time parent_node)) edge.

(** A breakpoint map with three lineages left of [5] and two right of
    it. *)
Definition three_then_two : Simplify.avl :=
  [(0%Q, 3); (5%Q, 2); (10%Q, -1)].

(** [three_samples] with two sites: one mutation at the first, and at the
    second a mutation above node [3] and a back mutation above node [0]
    that refers to it by its row number. *)
Definition two_sites : TreeSequence :=
  mkTS (nodes three_samples) (edges three_samples)
       [mkSite 2 "0"; mkSite 5 "0"]
       [mkMutation 0 3 "1" NULL_MUTATION; mkMutation 1 3 "1" NULL_MUTATION;
        mkMutation 1 0 "0" 1]
       10.
(** The single tree of [three_samples]. *)
Definition three_samples_trees : list SparseTree :=
  [mkTree 0 10 [RNode 4 [RNode 2 []; RNode 3 [RNode 0 []; RNode 1 []]]]].

End Examples.

(** * Properties of the fixture utilities *)

Module TsutilFacts.
Import Tsutil Notions Examples.

(** ** [insert_redundant_breakpoints] *)

Lemma length_redundant_rows (es : list EdgeRow) :
  length (redundant_rows es) = (2 * length es)%nat.
Proof. induction es as [|r es IH]; simpl; lia. Qed.

Lemma lookup_redundant_rows (es : list EdgeRow) (i : nat) (r : EdgeRow) :
  es !! i = Some r →
  redundant_rows es !! (2 * i)%nat = split_edge r !! 0%nat ∧
  redundant_rows es !! (2 * i + 1)%nat = split_edge r !! 1%nat.
Proof.
  revert i; induction es as [|r0 es IH]; intros i Hi; [done|].
  destruct i as [|i]; simpl in Hi.
  - injection Hi as ->. done.
  - destruct (IH i Hi) as [IH0 IH1].
    replace (2 * S i)%nat with (S (S (2 * i))) by lia.
    replace (S (S (2 * i)) + 1)%nat with (S (S (2 * i + 1))) by lia.
    done.
Qed.


(** ** [jiggle_samples] *)

Lemma set_columns_Some (fs : list Z) (tms : list Q) :
  length fs = length tms →
  ∃ rows, set_columns fs tms = Some rows ∧
    map n_flags rows = fs ∧ map n_time rows = tms ∧
    Forall (fun r => n_name r = "" ∧ n_population r = NULL_POPULATION) rows.
Proof.
  revert tms; induction fs as [|f fs IH]; intros [|t0 tms] Hlen;
    simplify_eq/=.
  - by exists [].
  - destruct (IH tms) as (rows & -> & Hf & Ht & Hd); [lia|].
    eexists; split; [reflexivity|]. simpl. rewrite Hf, Ht.
    repeat split; by constructor.
Qed.

Lemma length_slice_assign {A} (a : list A) lo hi v :
  length (slice_assign a lo hi v) = length a.
Proof. unfold slice_assign. by rewrite length_imap. Qed.

Lemma jiggle_samples_Some (ts : TreeSequence) (e : EdgeRow) :
  last (edges ts) = Some e →
  ∃ rows,
    jiggle_samples ts = Some (load_tables rows (edges ts) [] [] None) ∧
    map n_flags rows = jiggled_flags ts (e_parent e) ∧
    map n_time rows = map n_time (nodes ts) ∧
    Forall (fun r => n_name r = "" ∧ n_population r = NULL_POPULATION) rows.
Proof.
  intros He. unfold jiggle_samples. rewrite He. simpl.
  destruct (set_columns_Some (jiggled_flags ts (e_parent e))
              (map n_time (nodes ts))) as (rows & Hr & Hf & Ht & Hd).
  { unfold jiggled_flags. by rewrite !length_slice_assign, !length_map. }
  unfold jiggled_flags in Hr. rewrite Hr. simpl. by exists rows.
Qed.

(** C9.  The tree sequence [jiggle_samples(ts)] returns has no sites and
    no mutations, every node has the default name and population, and the
    time column is the one of [ts]. *)
Theorem jiggle_samples_keeps_only_flags_and_time
    (ts : TreeSequence) (e : EdgeRow) :
  last (edges ts) = Some e →
  ∃ new_ts,
    jiggle_samples ts = Some new_ts ∧
    sites new_ts = [] ∧ mutations new_ts = [] ∧
    Forall (fun r => n_name r = "" ∧ n_population r = NULL_POPULATION)
      (nodes new_ts) ∧
    map n_flags (nodes new_ts) = jiggled_flags ts (e_parent e) ∧
    map n_time (nodes new_ts) = map n_time (nodes ts).
Proof.
  intros He. destruct (jiggle_samples_Some ts e He) as (rows & -> & ? & ? & ?).
  eexists; split; [reflexivity|]. by cbn.
Qed.

Lemma length_samples_from (j : nat) (ns : list NodeRow) :
  length (samples_from j ns) = length (filter flagged (map n_flags ns)).
Proof.
  revert j; induction ns as [|r ns IH]; intros j; [done|]. simpl.
  rewrite filter_cons. unfold is_sample.
  destruct (decide (flagged (n_flags r))) as [Hb|Hb]; unfold flagged in Hb.
  - rewrite Hb. simpl. by rewrite IH.
  - apply not_true_is_false in Hb. rewrite Hb. apply IH.
Qed.

Lemma sample_size_flags (ts : TreeSequence) :
  sample_size ts = length (filter flagged (map n_flags (nodes ts))).
Proof. apply length_samples_from. Qed.

Lemma filter_all {A} (P : A → Prop) `{!∀ x, Decision (P x)} (l : list A) :
  Forall P l → filter P l = l.
Proof.
  induction 1 as [|x l Hx _ IH]; [done|].
  rewrite filter_cons. case_decide; [by rewrite IH|done].
Qed.

Lemma filter_none {A} (P : A → Prop) `{!∀ x, Decision (P x)} (l : list A) :
  Forall (fun x => ¬ P x) l → filter P l = [].
Proof.
  induction 1 as [|x l Hx _ IH]; [done|].
  rewrite filter_cons. case_decide; [done|by rewrite IH].
Qed.

Lemma lookup_slice_assign {A} (a : list A) lo hi v (j : nat) :
  slice_assign a lo hi v !! j =
  (fun x => if (slice_bound (length a) lo <=? j)%nat
               && (j <? slice_bound (length a) hi)%nat then v else x)
    <$> a !! j.
Proof. unfold slice_assign. by rewrite list_lookup_imap. Qed.

(** A slice assignment within bounds replaces one stretch of the list. *)
Lemma slice_assign_split {A} (a : list A) lo hi v :
  (slice_bound (length a) lo ≤ slice_bound (length a) hi)%nat →
  slice_assign a lo hi v =
  take (slice_bound (length a) lo) a
  ++ replicate (slice_bound (length a) hi - slice_bound (length a) lo) v
  ++ drop (slice_bound (length a) hi) a.
Proof.
  set (l := slice_bound (length a) lo). set (h := slice_bound (length a) hi).
  intros Hlh.
  assert (h ≤ length a)%nat as Hh
    by (unfold h, slice_bound; destruct (Z.ltb_spec hi 0); lia).
  apply list_eq; intros j. rewrite lookup_slice_assign. fold l h.
  destruct (decide (j < l)%nat) as [Hj|Hj].
  - rewrite lookup_app_l by (rewrite length_take; lia).
    rewrite lookup_take_lt by done.
    replace (l <=? j)%nat with false by (symmetry; apply Nat.leb_gt; lia).
    simpl. by destruct (a !! j).
  - rewrite lookup_app_r by (rewrite length_take; lia).
    rewrite length_take_le by lia.
    replace (l <=? j)%nat with true by (symmetry; apply Nat.leb_le; lia).
    destruct (decide (j < h)%nat) as [Hjh|Hjh].
    + rewrite lookup_app_l by (rewrite length_replicate; lia).
      rewrite lookup_replicate_2 by lia.
      replace (j <? h)%nat with true by (symmetry; apply Nat.ltb_lt; lia).
      destruct (lookup_lt_is_Some_2 a j) as [x ->]; [lia|done].
    + rewrite lookup_app_r by (rewrite length_replicate; lia).
      rewrite length_replicate, lookup_drop.
      replace (j <? h)%nat with false by (symmetry; apply Nat.ltb_ge; lia).
      replace (h + (j - l - (h - l)))%nat with j by lia.
      simpl. by destruct (a !! j).
Qed.

Lemma slice_bound_in (len : nat) (i : nat) :
  (i ≤ len)%nat → slice_bound len (Z.of_nat i) = i.
Proof. intros. unfold slice_bound. case_match; lia. Qed.

(** The jiggled flags column, half by half, when both slices lie inside
    the node table and do not meet. *)
Lemma jiggled_flags_split (ts : TreeSequence) (op : nat) :
  let h := (sample_size ts / 2)%nat in
  (2 * h ≤ op)%nat → (op ≤ num_nodes ts)%nat →
  let F := map n_flags (nodes ts) in
  jiggled_flags ts op =
  replicate h 0 ++ take (op - 2 * h) (drop h F) ++ replicate h 1 ++ drop op F
  ∧ F = take h F ++ take (op - 2 * h) (drop h F)
        ++ take h (drop (op - h) F) ++ drop op F.
Proof.
  intros h H2 Hop F. unfold jiggled_flags. fold F.
  assert (length F = num_nodes ts) as HF by (unfold F; by rewrite length_map).
  assert (Z.of_nat (sample_size ts) / 2 = Z.of_nat h) as ->
    by (unfold h; by rewrite Nat2Z.inj_div).
  replace (Z.of_nat op - Z.of_nat h) with (Z.of_nat (op - h)) by lia.
  split.
  - rewrite (slice_assign_split F 0 (Z.of_nat h) 0);
      rewrite (slice_bound_in _ 0), ?slice_bound_in; try lia.
    rewrite Nat.sub_0_r. simpl take at 1. rewrite app_nil_l.
    rewrite slice_assign_split;
      rewrite length_app, length_replicate, length_drop, !slice_bound_in;
      try lia.
    rewrite take_app, length_replicate, take_replicate.
    rewrite drop_app, length_replicate, drop_replicate.
    replace (min (op - h) h) with h by lia.
    replace (h - op)%nat with 0%nat by lia.
    replace (op - (op - h))%nat with h by lia.
    rewrite drop_drop. simpl replicate at 3. rewrite app_nil_l.
    replace (h + (op - h))%nat with op by lia.
    replace (op - h - h)%nat with (op - 2 * h)%nat by lia.
    by rewrite <-app_assoc.
  - rewrite <-(take_drop h F) at 1. f_equal.
    rewrite <-(take_drop (op - 2 * h) (drop h F)) at 1. f_equal.
    rewrite drop_drop. replace (h + (op - 2 * h))%nat with (op - h)%nat by lia.
    rewrite <-(take_drop h (drop (op - h) F)) at 1. f_equal.
    rewrite drop_drop. f_equal. lia.
Qed.

Lemma elem_of_samples_from (k j : nat) (ns : list NodeRow) :
  j ∈ samples_from k ns ↔
  (k ≤ j)%nat ∧ ∃ r, ns !! (j - k)%nat = Some r ∧ is_sample r = true.
Proof.
  revert k; induction ns as [|r0 ns IH]; intros k; simpl.
  - split; [by intros ?%elem_of_nil|by intros (_ & r & ? & _)].
  - assert (j ∈ samples_from (S k) ns ↔
            (k < j)%nat ∧ ∃ r, (r0 :: ns) !! (j - k)%nat = Some r
                               ∧ is_sample r = true) as Htail.
    { rewrite IH. split; intros (Hk & r & Hr & Hs); (split; [lia|]);
        exists r; split; try done.
      - by replace (j - k)%nat with (S (j - S k)) by lia.
      - by replace (j - k)%nat with (S (j - S k)) in Hr by lia. }
    destruct (is_sample r0) eqn:Hs0.
    + rewrite elem_of_cons, Htail. split.
      * intros [->|(Hk & r & Hr & Hs)].
        -- split; [lia|]. exists r0. by rewrite Nat.sub_diag.
        -- split; [lia|]. by exists r.
      * intros (Hk & r & Hr & Hs).
        destruct (decide (j = k)) as [->|Hne]; [by left|].
        right. split; [lia|]. by exists r.
    + rewrite Htail. split.
      * intros (Hk & r & Hr & Hs). split; [lia|]. by exists r.
      * intros (Hk & r & Hr & Hs).
        destruct (decide (j = k)) as [->|Hne].
        -- rewrite Nat.sub_diag in Hr. simpl in Hr. congruence.
        -- split; [lia|]. by exists r.
Qed.

Lemma is_sample_flagged (r : NodeRow) :
  is_sample r = true ↔ flagged (n_flags r).
Proof. done. Qed.



(** Instances of the statements above on the example inputs. *)


Lemma jiggle_samples_keeps_only_flags_and_time_witness :
  ∃ new_ts,
    jiggle_samples three_samples = Some new_ts ∧
    sites new_ts = [] ∧ mutations new_ts = [] ∧
    Forall (fun r => n_name r = "" ∧ n_population r = NULL_POPULATION)
      (nodes new_ts) ∧
    map n_flags (nodes new_ts) = jiggled_flags three_samples 4 ∧
    map n_time (nodes new_ts) = map n_time (nodes three_samples).
Proof.
  apply (jiggle_samples_keeps_only_flags_and_time three_samples
           (mkEdge 0 10 4 3)).
  reflexivity.
Defined.


(** ** [permute_nodes] *)

Lemma Forall_insert_sorted {A} (P : A → Prop) (leb : A → A → bool) x l :
  P x → Forall P l → Forall P (insert_sorted leb x l).
Proof.
  intros Hx. induction 1 as [|y l Hy Hl IH]; simpl.
  - by constructor.
  - destruct (leb y x); repeat constructor; done.
Qed.

Lemma Forall_stable_sort {A} (P : A → Prop) (leb : A → A → bool) l :
  Forall P l → Forall P (stable_sort leb l).
Proof.
  intros Hl. unfold stable_sort.
  apply Forall_reverse in Hl. induction Hl as [|x l' Hx Hl' IH]; simpl.
  - constructor.
  - by apply Forall_insert_sorted.
Qed.

Lemma permuted_mutations_at_parent node_map s ms rows :
  permuted_mutations_at node_map s ms = Some rows →
  Forall (fun r => m_parent r = NULL_MUTATION) rows.
Proof.
  revert rows; induction ms as [|mu ms IH]; intros rows Hrows;
    simplify_option_eq; constructor; eauto.
Qed.

Lemma permuted_mutations_parent ts node_map s ss rows :
  permuted_mutations ts node_map s ss = Some rows →
  Forall (fun r => m_parent r = NULL_MUTATION) rows.
Proof.
  revert s rows; induction ss as [|x ss IH]; intros s rows Hrows;
    simplify_option_eq; [constructor|].
  apply Forall_app; eauto using permuted_mutations_at_parent.
Qed.

(** Whatever the input, no row of the mutation table [permute_nodes]
    builds has a parent mutation. *)
Lemma permute_nodes_forgets_mutation_parent ts node_map new_ts :
  permute_nodes ts node_map = Some new_ts →
  Forall (fun r => m_parent r = NULL_MUTATION) (mutations new_ts).
Proof.
  unfold permute_nodes, sort_tables. intros Hrun. simplify_option_eq.
  apply Forall_stable_sort, Forall_fmap.
  eapply Forall_impl; [by eapply permuted_mutations_parent|]. done.
Qed.

(** C5, at the failing input.  [back_mutation] is in canonical order.
    Permuting its nodes by [swap01] and then by the inverse map (the same
    exchange) restores the node, edge and site tables, but not the
    mutation table: the back mutation above node [0] comes back without
    its parent reference. *)
Theorem permute_nodes_roundtrip_loses_mutation_parent :
  sort_tables (nodes back_mutation) (edges back_mutation)
    (sites back_mutation) (mutations back_mutation)
  = (edges back_mutation, sites back_mutation, mutations back_mutation) ∧
  ∃ ts1 ts2,
    permute_nodes back_mutation swap01 = Some ts1 ∧
    permute_nodes ts1 swap01 = Some ts2 ∧
    nodes ts2 = nodes back_mutation ∧
    edges ts2 = edges back_mutation ∧
    sites ts2 = sites back_mutation ∧
    mutations back_mutation !! 1%nat = Some (mkMutation 0 0 "0" 0) ∧
    mutations ts2 !! 1%nat = Some (mkMutation 0 0 "0" NULL_MUTATION) ∧
    mutations ts2 ≠ mutations back_mutation.
Proof.
  split; [by vm_compute|].
  eexists _, _. split; [by vm_compute|]. split; [by vm_compute|].
  by vm_compute.
Qed.

(** ** [insert_branch_mutations] *)

Lemma tree_size_RNode u ks : tree_size (RNode u ks) = S (forest_size ks).
Proof. reflexivity. Qed.

Lemma frames_size_app st1 st2 :
  frames_size (st1 ++ st2) = (frames_size st1 + frames_size st2)%nat.
Proof. induction st1 as [|f st1 IH]; simpl; [done|]. rewrite IH. lia. Qed.

Lemma frames_size_kids u ks :
  frames_size (reverse (map (fun k => (Some u, k)) ks)) = forest_size ks.
Proof.
  induction ks as [|k ks IH]; [done|]. simpl.
  rewrite reverse_cons, frames_size_app, IH. simpl. lia.
Qed.

Lemma frames_branches_app st1 st2 :
  frames_branches (st1 ++ st2)
  = (frames_branches st1 + frames_branches st2)%nat.
Proof. induction st1 as [|f st1 IH]; simpl; [done|]. rewrite IH. lia. Qed.

Lemma frames_branches_kids u ks :
  frames_branches (reverse (map (fun k => (Some u, k)) ks)) = forest_size ks.
Proof.
  induction ks as [|k ks IH]; [done|]. simpl.
  rewrite reverse_cons, frames_branches_app, IH. simpl. lia.
Qed.

Lemma str_toggle (s : Z) :
  s = 0 ∨ s = 1 →
  let s' := (s + 1) `mod` 2 in
  (s' = 0 ∨ s' = 1) ∧ (str s' = "0" ∨ str s' = "1") ∧ str s ≠ str s' ∧
  (s = 0 → str s' = "1").
Proof. intros [->| ->]; vm_compute; intuition congruence. Qed.

Lemma chained_app trees M M' i row :
  chained trees M i row → chained trees (M ++ M') i row.
Proof.
  intros (Hd & HR & [Hroot|(p & prow & Hp & Hlt & Hlook & Hrest)]);
    (split; [done|split; [done|]]); [by left|right].
  exists p, prow. split; [done|]. split; [done|].
  split; [by apply lookup_app_l_Some|done].
Qed.

Lemma rows_ok_snoc trees M row :
  rows_ok trees M → chained trees (M ++ [row]) (length M) row →
  rows_ok trees (M ++ [row]).
Proof.
  intros HM Hrow i r Hi. apply lookup_app_Some in Hi as [Hi|[Hlen Hi]].
  - by apply chained_app, HM.
  - apply list_lookup_singleton_Some in Hi as [Hi ->].
    by replace i with (length M) by lia.
Qed.

Section Walk.
Context (trees : list SparseTree) (site : nat) (R : rtree).
Hypothesis HR : root_at trees site R.

(** The new row placed above [u] continues the lineage [parent] stands
    for. *)
Lemma chained_new_row M u parent s :
  (s = 0 ∨ s = 1) →
  lineage_tip site R M u parent s →
  chained trees (M ++ [mkMutation site u (str ((s + 1) `mod` 2)) parent])
    (length M) (mkMutation site u (str ((s + 1) `mod` 2)) parent).
Proof.
  intros Hs Htip. destruct (str_toggle s Hs) as (_ & Hd & Hne & H1).
  split; [done|]. split; [by exists R|]. cbn.
  destruct Htip as [(-> & -> & Hb)|(p & prow & -> & Hp & Hsite & Hst & Hn)].
  - left. split; [done|]. split; [by apply H1|]. by exists R.
  - right. exists p, prow. split; [done|].
    split; [by apply lookup_lt_Some in Hp|].
    split; [by apply lookup_app_l_Some|]. split; [done|].
    split; [by rewrite Hst|].
    destruct Hn as [Hn|Hn]; [by left|right; by exists R].
Qed.

Lemma dict_ok_at_extend w w' v :
  dict_ok_at site R w v →
  mutation w' !! v = mutation w !! v → state w' !! v = state w !! v →
  (∃ M', rows w' = rows w ++ M') →
  dict_ok_at site R w' v.
Proof.
  intros Hok Hm Hs [M' HM] id Hid. rewrite Hm in Hid.
  destruct (Hok id Hid) as (s & Hst & Hs01 & Hcase).
  exists s. rewrite Hs. split; [done|]. split; [done|].
  destruct Hcase as [?|(p & prow & ? & Hp & ?)]; [by left|right].
  exists p, prow. split; [done|]. rewrite HM.
  split; [by apply lookup_app_l_Some|done].
Qed.

Lemma place_ok (u : nat) (j : nat) : ∀ parent w s,
  rows_ok trees (rows w) →
  state w !! u = Some s → (s = 0 ∨ s = 1) →
  lineage_tip site R (rows w) u parent s →
  (∀ v, v ≠ u → dict_ok_at site R w v) →
  ∃ w',
    place j site u parent w = Some w' ∧
    rows_ok trees (rows w') ∧
    length (rows w') = (length (rows w) + j)%nat ∧
    (∃ M', rows w' = rows w ++ M') ∧
    (∀ v, v ≠ u → dict_ok_at site R w' v ∧
                  mutation w' !! v = mutation w !! v) ∧
    (j ≠ 0%nat ∨ (dict_ok_at site R w u ∧ is_Some (mutation w !! u)) →
     dict_ok_at site R w' u ∧ is_Some (mutation w' !! u)).
Proof.
  induction j as [|j IH]; intros parent w s Hrows Hst Hs Htip Hothers.
  - exists w. simpl. split; [done|]. split; [done|]. split; [lia|].
    split; [by exists []; rewrite app_nil_r|]. split; [by auto|].
    by intros [?|?].
  - simpl. rewrite Hst. simpl.
    set (s' := (s + 1) `mod` 2).
    set (row := mkMutation site u (str s') parent).
    set (w1 := mkWalk (<[u:=s']> (state w))
                 (<[u:=Z.of_nat (length (rows w))]> (mutation w))
                 (rows w ++ [row])).
    destruct (str_toggle s Hs) as (Hs' & _).
    assert (mutation w1 !! u = Some (Z.of_nat (length (rows w)))) as Hmu
      by (unfold w1; cbn; by rewrite lookup_insert_eq).
    assert (state w1 !! u = Some s') as Hsu
      by (unfold w1; cbn; by rewrite lookup_insert_eq).
    assert (rows w1 = rows w ++ [row]) as Hrw by done.
    assert (rows w1 !! length (rows w) = Some row) as Hlast.
    { rewrite Hrw, lookup_app_r by lia. by rewrite Nat.sub_diag. }
    assert (dict_ok_at site R w1 u ∧ is_Some (mutation w1 !! u)) as Hu.
    { split; [|by rewrite Hmu]. intros id Hid.
      rewrite Hmu in Hid. injection Hid as <-.
      exists s'. split; [done|]. split; [done|].
      right. by exists (length (rows w)), row. }
    destruct (IH (Z.of_nat (length (rows w))) w1 s') as
      (w' & Hrun & Hrows' & Hlen & [M' HM'] & Hoth' & Hu').
    + rewrite Hrw. apply rows_ok_snoc; [done|]. by apply chained_new_row.
    + done.
    + done.
    + right. exists (length (rows w)), row. split; [done|].
      split; [done|]. split; [done|]. split; [done|]. by left.
    + intros v Hv. eapply dict_ok_at_extend; [by apply Hothers| | |].
      * unfold w1; cbn. by rewrite lookup_insert_ne.
      * unfold w1; cbn. by rewrite lookup_insert_ne.
      * by exists [row].
    + exists w'. split; [done|]. split; [done|].
      split; [rewrite Hlen, Hrw, length_app; simpl; lia|].
      split; [exists ([row] ++ M'); rewrite HM', Hrw; by rewrite <-app_assoc|].
      split.
      * intros v Hv. destruct (Hoth' v Hv) as [? Hm]. split; [done|].
        rewrite Hm. unfold w1; cbn. by rewrite lookup_insert_ne.
      * intros _. apply Hu'. by right.
Qed.

Lemma frame_ok_kid w u ks k :
  is_Some (mutation w !! u) →
  (∀ a b, branch (RNode u ks) a b → branch R a b) →
  k ∈ ks → frame_ok R w (Some u, k).
Proof.
  intros Hu Hsub Hk. split; cbn.
  - split; [done|]. apply Hsub. by constructor.
  - intros a b Hab. apply Hsub. by apply (branch_below _ _ k).
Qed.

Lemma frame_ok_keep w w' f :
  (∀ v, is_Some (mutation w !! v) → is_Some (mutation w' !! v)) →
  frame_ok R w f → frame_ok R w' f.
Proof.
  intros Hkeep. destruct f as [[v|] t0]; intros [Hf Hsub]; (split; [|done]);
    cbn in *; destruct Hf; auto.
Qed.

Lemma dfs_ok (mpb : nat) (fuel : nat) : ∀ stack w,
  mpb ≠ 0%nat →
  (frames_size stack ≤ fuel)%nat →
  rows_ok trees (rows w) →
  (∀ v, dict_ok_at site R w v) →
  Forall (frame_ok R w) stack →
  ∃ w',
    dfs fuel mpb site stack w = Some w' ∧
    rows_ok trees (rows w') ∧
    length (rows w') = (length (rows w) + mpb * frames_branches stack)%nat.
Proof.
  induction fuel as [|fuel IH]; intros stack w Hmpb Hfuel Hrows Hdict Hst.
  - destruct stack as [|[v [u ks]] stack].
    + exists w. simpl. split; [done|]. split; [done|lia].
    + simpl in Hfuel. lia.
  - destruct stack as [|[v [u ks]] stack].
    { exists w. simpl. split; [done|]. split; [done|lia]. }
    apply Forall_cons in Hst as [[Hf Hsub] Hst]. cbn in Hf, Hsub.
    cbn [frames_size foldr snd] in Hfuel. rewrite tree_size_RNode in Hfuel.
    assert (frames_size (reverse (map (fun k => (Some u, k)) ks) ++ stack)
            ≤ fuel)%nat as Hfuel'.
    { rewrite frames_size_app, frames_size_kids.
      change (foldr _ 0%nat stack) with (frames_size stack) in Hfuel. lia. }
    destruct v as [v|].
    + (* a node below the root *)
      destruct Hf as [[id Hid] Hbr]. cbn in Hbr.
      destruct (Hdict v id Hid) as (sv & Hsv & Hsv01 & Hcase).
      cbn [dfs]. rewrite Hsv. cbn [mbind option_bind].
      set (w1 := mkWalk (<[u:=sv]> (state w)) (mutation w) (rows w)).
      change (mutation w1) with (mutation w). rewrite Hid.
      cbn [mbind option_bind].
      destruct (place_ok u mpb id w1 sv) as
        (w2 & Hrun & Hrows2 & Hlen2 & Hext & Hoth & Hu); try done.
      { unfold w1; cbn. by rewrite lookup_insert_eq. }
      { destruct Hcase as [(-> & -> & ->)|(p & prow & -> & Hp & Hn & Hs & Hd)].
        - by left.
        - right. exists p, prow. rewrite Hn. by auto 10. }
      { intros v' Hv'. eapply dict_ok_at_extend; [apply Hdict|done| |].
        - unfold w1; cbn. by rewrite lookup_insert_ne.
        - exists []. by rewrite app_nil_r. }
      rewrite Hrun. cbn [mbind option_bind].
      destruct (Hu (or_introl Hmpb)) as [Hdu Hsu].
      assert (∀ v', is_Some (mutation w !! v') → is_Some (mutation w2 !! v'))
        as Hkeep.
      { intros v' Hv'. destruct (decide (v' = u)) as [->|Hne]; [done|].
        destruct (Hoth v' Hne) as [_ ->]. done. }
      destruct (IH (reverse (map (fun k => (Some u, k)) ks) ++ stack) w2)
        as (w' & Hrun' & Hrows' & Hlen'); try done.
      { intros v'. destruct (decide (v' = u)) as [->|Hne]; [done|].
        by apply Hoth. }
      { apply Forall_app. split.
        - apply Forall_reverse, Forall_fmap, Forall_forall.
          intros k Hk. by apply (frame_ok_kid w2 u ks).
        - eapply Forall_impl; [done|]. intros f. by apply frame_ok_keep. }
      exists w'. split; [done|]. split; [done|].
      rewrite Hlen', Hlen2, frames_branches_app, frames_branches_kids.
      change (rows w1) with (rows w).
      cbn [frames_branches foldr fst snd]. rewrite tree_size_RNode.
      change (foldr _ 0%nat stack) with (frames_branches stack). lia.
    + (* the root *)
      destruct Hf as [Heq Hroot]. rewrite <-Heq in Hroot. cbn in Hroot.
      cbn [dfs].
      destruct (IH (reverse (map (fun k => (Some u, k)) ks) ++ stack) w)
        as (w' & Hrun' & Hrows' & Hlen'); try done.
      { apply Forall_app. split; [|done].
        apply Forall_reverse, Forall_fmap, Forall_forall.
        intros k Hk. by apply (frame_ok_kid w u ks). }
      exists w'. split; [done|]. split; [done|].
      rewrite Hlen', frames_branches_app, frames_branches_kids.
      cbn [frames_branches foldr fst snd]. rewrite tree_size_RNode.
      change (foldr _ 0%nat stack) with (frames_branches stack). lia.
Qed.

Lemma walk_root_ok (mpb : nat) (ms : list MutationRow) :
  mpb ≠ 0%nat → rows_ok trees ms →
  ∃ ms',
    walk_root mpb site R ms = Some ms' ∧ rows_ok trees ms' ∧
    length ms' = (length ms + mpb * (tree_size R - 1))%nat.
Proof.
  intros Hmpb Hrows. unfold walk_root.
  set (w := mkWalk {[root_id R := 0]} {[root_id R := -1]} ms).
  destruct (dfs_ok mpb (tree_size R) [(None, R)] w) as
    (w' & Hrun & Hrows' & Hlen); try done.
  - simpl. lia.
  - intros v id Hid. unfold w in Hid; cbn in Hid.
    apply lookup_singleton_Some in Hid as [<- <-].
    exists 0. unfold w; cbn. rewrite lookup_singleton_eq.
    split; [done|]. split; [by left|]. by left.
  - constructor; [|constructor]. split; cbn; [|done].
    split; [done|]. unfold w; cbn. by rewrite lookup_singleton_eq.
  - rewrite Hrun. exists (rows w'). split; [done|]. split; [done|].
    rewrite Hlen. cbn. lia.
Qed.
End Walk.

Lemma walk_roots_ok trees site (mpb : nat) (rs : list rtree) : ∀ ms,
  mpb ≠ 0%nat → (∀ R, R ∈ rs → root_at trees site R) → rows_ok trees ms →
  ∃ ms',
    walk_roots mpb site rs ms = Some ms' ∧ rows_ok trees ms' ∧
    length ms' = (length ms + mpb * branches_of_roots rs)%nat.
Proof.
  induction rs as [|R rs IH]; intros ms Hmpb Hroots Hrows.
  - exists ms. simpl. split; [done|]. split; [done|lia].
  - destruct (walk_root_ok trees site R (Hroots R ltac:(left)) mpb ms)
      as (ms1 & Hrun1 & Hrows1 & Hlen1); try done.
    destruct (IH ms1) as (ms2 & Hrun2 & Hrows2 & Hlen2); try done.
    { intros R' HR'. apply Hroots. by right. }
    exists ms2. simpl. rewrite Hrun1. simpl. split; [done|].
    split; [done|]. rewrite Hlen2, Hlen1. lia.
Qed.

Lemma walk_trees_ok trees (mpb : nat) (todo : list SparseTree) :
  ∀ done_ ss ms,
  mpb ≠ 0%nat → trees = done_ ++ todo → length ss = length done_ →
  rows_ok trees ms →
  ∃ ms',
    walk_trees mpb todo ss ms
    = Some (ss ++ map (fun tr => mkSite (interval_left tr) "0") todo, ms') ∧
    rows_ok trees ms' ∧
    length ms' = (length ms + mpb * branches_of_trees todo)%nat.
Proof.
  induction todo as [|tr todo IH]; intros done_ ss ms Hmpb Htrees Hss Hrows.
  - exists ms. simpl. rewrite app_nil_r. split; [done|]. split; [done|lia].
  - destruct (walk_roots_ok trees (length ss) mpb (roots tr) ms)
      as (ms1 & Hrun1 & Hrows1 & Hlen1); try done.
    { intros R HR'. exists tr. split; [|done].
      rewrite Htrees, Hss. rewrite lookup_app_r by lia.
      by rewrite Nat.sub_diag. }
    destruct (IH (done_ ++ [tr]) (ss ++ [mkSite (interval_left tr) "0"]) ms1)
      as (ms2 & Hrun2 & Hrows2 & Hlen2); try done.
    { by rewrite <-app_assoc. }
    { rewrite !length_app. simpl. lia. }
    exists ms2. cbn [walk_trees]. rewrite Hrun1. cbn [mbind option_bind].
    rewrite Hrun2. split; [by rewrite <-app_assoc|]. split; [done|].
    rewrite Hlen2, Hlen1. simpl. lia.
Qed.





(** ** [decapitate] *)

Lemma edge_set_columns_prefix (es : list EdgeRow) (k : nat) :
  edge_set_columns (take k (map e_left es)) (take k (map e_right es))
    (take k (map e_parent es)) (take k (map e_child es))
  = Some (take k es).
Proof.
  revert k. induction es as [|[l r p c] es IH]; intros [|k]; simpl; try done.
  by rewrite IH.
Qed.

Lemma decapitate_take (ts : TreeSequence) (k : Z) :
  decapitate ts k
  = Some (mkTS (nodes ts) (take (slice_bound (num_edges ts) k) (edges ts))
            (sites ts) (mutations ts) (sequence_length ts)).
Proof.
  unfold decapitate, slice_to. rewrite !length_map.
  fold (num_edges ts). by rewrite edge_set_columns_prefix.
Qed.

(** X7: [decapitate(ts, num_edges)] always returns.  It keeps the node,
    site and mutation tables and the sequence length; with a count
    [num_edges >= 0] it keeps the first [num_edges] edge rows, all of them
    if there are fewer; with a negative count it drops the last
    [-num_edges] rows instead, and keeps none if there are fewer. *)
Theorem decapitate_keeps_prefix (ts : TreeSequence) (k : Z) :
  ∃ new_ts,
    decapitate ts k = Some new_ts ∧
    nodes new_ts = nodes ts ∧ sites new_ts = sites ts ∧
    mutations new_ts = mutations ts ∧
    sequence_length new_ts = sequence_length ts ∧
    (0 ≤ k → edges new_ts = take (Z.to_nat k) (edges ts)) ∧
    (k < 0 →
     edges new_ts = take (num_edges ts - Z.to_nat (- k)) (edges ts)).
Proof.
  eexists. split; [apply decapitate_take|]. cbn.
  split_and!; try done.
  - intros Hk. unfold slice_bound.
    destruct (Z.ltb_spec k 0) as [?|_]; [lia|].
    destruct (Z.le_gt_cases k (Z.of_nat (num_edges ts))) as [Hle|Hgt].
    + by rewrite Z.min_l.
    + rewrite Z.min_r, Nat2Z.id by lia. unfold num_edges in *.
      by rewrite !take_ge by lia.
  - intros Hk. unfold slice_bound.
    destruct (Z.ltb_spec k 0) as [_|?]; [|lia]. f_equal. lia.
Qed.

(** X8: two cuts with non-negative counts amount to one cut with the
    smaller count. *)
Theorem decapitate_twice (ts : TreeSequence) (j k : Z) :
  0 ≤ j → 0 ≤ k →
  (new_ts ← decapitate ts j; decapitate new_ts k)
  = decapitate ts (Z.min j k).
Proof.
  intros Hj Hk. rewrite !decapitate_take. cbn [mbind option_bind].
  rewrite decapitate_take. cbn. f_equal. f_equal.
  unfold num_edges. cbn. rewrite length_take. unfold slice_bound.
  destruct (Z.ltb_spec k 0) as [?|_]; [lia|].
  destruct (Z.ltb_spec j 0) as [?|_]; [lia|].
  destruct (Z.ltb_spec (Z.min j k) 0) as [?|_]; [lia|].
  rewrite take_take. f_equal. lia.
Qed.

Lemma decapitate_twice_witness :
  (new_ts ← decapitate three_samples 3; decapitate new_ts 2)
  = decapitate three_samples (Z.min 3 2)
  ∧ (0 ≤ 3 ∧ 0 ≤ 2).
Proof. split; [apply decapitate_twice; lia|lia]. Defined.

(** ** [jiggle_samples] on an empty edge table *)

(** X9: [jiggle_samples] raises exactly when the edge table is empty
    (the lookup of the last parent fails); on every other tree sequence
    it returns. *)
Theorem jiggle_samples_raises_iff_no_edges (ts : TreeSequence) :
  jiggle_samples ts = None ↔ edges ts = [].
Proof.
  split.
  - intros Hnone. destruct (last (edges ts)) as [e|] eqn:He.
    + destruct (jiggle_samples_Some ts e He) as (rows & Hrun & _).
      by rewrite Hrun in Hnone.
    + by apply last_None in He.
  - intros Hes. unfold jiggle_samples. by rewrite Hes.
Qed.

(** ** [single_childify] *)

Lemma insert_sorted_Permutation {A} (leb : A → A → bool) x l :
  insert_sorted leb x l ≡ₚ x :: l.
Proof.
  induction l as [|y l IH]; simpl; [done|].
  destruct (leb y x); [|done]. rewrite IH. apply Permutation_swap.
Qed.

Lemma stable_sort_Permutation {A} (leb : A → A → bool) l :
  stable_sort leb l ≡ₚ l.
Proof.
  unfold stable_sort. rewrite <-(reverse_Permutation l) at 2.
  induction (reverse l) as [|x l' IH]; simpl; [done|].
  by rewrite insert_sorted_Permutation, IH.
Qed.

Lemma map_snd_imap_pair {A} (l : list A) :
  map snd (imap (fun j s => (j, s)) l) = l.
Proof.
  apply list_eq. intros i. rewrite list_lookup_fmap, list_lookup_imap.
  by destruct (l !! i).
Qed.

Lemma sort_tables_Permutation ns es ss ms es' ss' ms' :
  sort_tables ns es ss ms = (es', ss', ms') →
  es' ≡ₚ es ∧ ss' ≡ₚ ss ∧ length ms' = length ms.
Proof.
  unfold sort_tables. intros [= <- <- <-]. split_and!.
  - apply stable_sort_Permutation.
  - rewrite stable_sort_Permutation. by rewrite map_snd_imap_pair.
  - rewrite (Permutation_length (stable_sort_Permutation _ _)).
    by rewrite length_map.
Qed.

Lemma py_index_time (ns : list NodeRow) (u : nat) :
  (u < length ns)%nat →
  py_index (map n_time ns) u = Some (node_time ns u).
Proof.
  intros Hu. unfold py_index, node_time. rewrite list_lookup_fmap.
  apply lookup_lt_is_Some in Hu as [r ->]. done.
Qed.

Lemma childified_spec (ns0 : list NodeRow) : ∀ es ns rows,
  Forall (fun e => (e_parent e < length ns0)%nat ∧
                   (e_child e < length ns0)%nat) es →
  childified (map n_time ns0) es ns rows
  = Some (ns ++ map (inserted_node ns0) es,
          rows ++ childified_rows (length ns) es).
Proof.
  induction es as [|e es IH]; intros ns rows Hes; simpl.
  - by rewrite !app_nil_r.
  - apply Forall_cons in Hes as [[Hp Hc] Hes].
    rewrite !py_index_time by done. cbn [mbind option_bind].
    rewrite IH by done. rewrite length_app. simpl.
    rewrite Nat.add_1_r. by rewrite <-!app_assoc.
Qed.

Lemma childified_None (ns0 : list NodeRow) : ∀ es ns rows,
  Exists (fun e => ¬ ((e_parent e < length ns0)%nat ∧
                      (e_child e < length ns0)%nat)) es →
  childified (map n_time ns0) es ns rows = None.
Proof.
  induction es as [|e es IH]; intros ns rows Hes; [by inversion Hes|].
  simpl.
  destruct (decide (e_child e < length ns0)%nat) as [Hc|Hc].
  - rewrite (py_index_time _ (e_child e)) by done.
    cbn [mbind option_bind].
    destruct (decide (e_parent e < length ns0)%nat) as [Hp|Hp].
    + rewrite py_index_time by done. cbn [mbind option_bind].
      apply IH. apply Exists_cons in Hes as [Hbad|Hes]; [|done].
      by destruct Hbad.
    + unfold py_index. rewrite (lookup_ge_None_2 _ (e_parent e)); [done|].
      rewrite length_map. lia.
  - unfold py_index. rewrite (lookup_ge_None_2 _ (e_child e)); [done|].
    rewrite length_map. lia.
Qed.

Lemma single_childify_spec (ts : TreeSequence) :
  edges_in_range ts →
  ∃ new_ts,
    single_childify ts = Some new_ts ∧
    nodes new_ts = nodes ts ++ map (inserted_node (nodes ts)) (edges ts) ∧
    edges new_ts ≡ₚ childified_rows (num_nodes ts) (edges ts) ∧
    sites new_ts ≡ₚ sites ts ∧
    length (mutations new_ts) = length (mutations ts).
Proof.
  intros Hes. unfold single_childify.
  rewrite childified_spec by done. cbn [mbind option_bind].
  destruct (sort_tables _ _ _ _) as [[es' ss'] ms'] eqn:Hsort.
  apply sort_tables_Permutation in Hsort as (Hes' & Hss' & Hms').
  eexists. split; [done|]. by cbn.
Qed.

Lemma samples_from_app (j : nat) (ns ns' : list NodeRow) :
  samples_from j (ns ++ ns')
  = samples_from j ns ++ samples_from (j + length ns) ns'.
Proof.
  revert j. induction ns as [|r ns IH]; intros j; simpl.
  - by rewrite Nat.add_0_r.
  - rewrite IH. replace (S j + length ns)%nat with (j + S (length ns))%nat
      by lia.
    by destruct (is_sample r).
Qed.

Lemma samples_from_inserted (j : nat) ns0 (es : list EdgeRow) :
  samples_from j (map (inserted_node ns0) es) = [].
Proof. revert j. induction es as [|e es IH]; intros j; simpl; by rewrite ?IH. Qed.

Lemma length_childified_rows u es :
  length (childified_rows u es) = (2 * length es)%nat.
Proof.
  revert u. induction es as [|e es IH]; intros u; simpl; [done|].
  rewrite IH. lia.
Qed.

Lemma elem_of_childified_rows u es row :
  row ∈ childified_rows u es →
  ∃ i e, es !! i = Some e ∧ row ∈ split_rows (u + i) e.
Proof.
  revert u. induction es as [|e es IH]; intros u; simpl.
  - by intros ?%elem_of_nil.
  - rewrite !elem_of_cons. intros [->|[->|Hin]].
    + exists 0%nat, e. rewrite Nat.add_0_r. split; [done|]. by left.
    + exists 0%nat, e. rewrite Nat.add_0_r. split; [done|].
      right. by left.
    + apply IH in Hin as (i & e' & He' & Hin). exists (S i), e'.
      split; [done|]. by replace (u + S i)%nat with (S u + i)%nat by lia.
Qed.




Lemma node_time_app_l ns ns' u :
  (u < length ns)%nat → node_time (ns ++ ns') u = node_time ns u.
Proof. intros Hu. unfold node_time. by rewrite lookup_app_l. Qed.

Lemma node_time_inserted ns0 es i e :
  es !! i = Some e →
  node_time (ns0 ++ map (inserted_node ns0) es) (length ns0 + i)
  = midpoint_time ns0 e.
Proof.
  intros He. unfold node_time.
  rewrite lookup_app_r by lia.
  replace (length ns0 + i - length ns0)%nat with i by lia.
  by rewrite list_lookup_fmap, He.
Qed.



(** ** [subsample_sites] *)

Lemma subsampled_spec ts drawn (all : list SiteRow) :
  ∀ todo index new_sites new_mutations,
  drop index all = todo →
  let ks := filter (fun i => i ∈ drawn) (seq index (length todo)) in
  subsampled ts drawn index todo new_sites new_mutations
  = (new_sites ++ omap (fun i => all !! i) ks,
     new_mutations ++ kept_mutations ts (length new_sites) ks).
Proof.
  induction todo as [|site todo IH]; intros index ns nm Hdrop; simpl.
  - by rewrite !app_nil_r.
  - assert (all !! index = Some site) as Hsite.
    { rewrite <-(Nat.add_0_r index), <-lookup_drop. by rewrite Hdrop. }
    assert (drop (S index) all = todo) as Hdrop'.
    { replace (S index) with (index + 1)%nat by lia.
      by rewrite <-drop_drop, Hdrop. }
    rewrite filter_cons. case_bool_decide as Hin.
    + rewrite decide_True by done. rewrite (IH _ _ _ Hdrop'). simpl.
      rewrite Hsite. rewrite length_app. simpl. rewrite Nat.add_1_r.
      destruct site. by rewrite <-!app_assoc.
    + rewrite decide_False by done. by rewrite (IH _ _ _ Hdrop').
Qed.

Lemma length_omap_lookup {A} (all : list A) (ks : list nat) :
  Forall (fun i => (i < length all)%nat) ks →
  length (omap (fun i => all !! i) ks) = length ks ∧
  ∀ j i, ks !! j = Some i → omap (fun i => all !! i) ks !! j = all !! i.
Proof.
  induction 1 as [|k ks Hk Hks [IHlen IH]]; [done|]. simpl.
  apply lookup_lt_is_Some in Hk as [x Hx]. rewrite Hx. simpl.
  split; [by f_equal|].
  intros [|j] i Hj; simpl in *; [by injection Hj as <-|by apply IH].
Qed.

Lemma kept_mutations_sites ts : ∀ ks pre,
  Forall (fun row : MutationRow =>
            ∃ orig, orig ∈ mutations ts ∧
              (pre ++ ks) !! m_site row = Some (m_site orig) ∧
              m_node row = m_node orig ∧
              m_derived_state row = m_derived_state orig ∧
              m_parent row = m_parent orig)
    (kept_mutations ts (length pre) ks).
Proof.
  induction ks as [|i ks IH]; intros pre; simpl; [constructor|].
  apply Forall_app. split.
  - rewrite Forall_forall. intros row Hrow.
    unfold copied_mutations in Hrow.
    apply list_elem_of_fmap in Hrow as (orig & -> & Horig).
    unfold site_mutations in Horig.
    apply list_elem_of_filter in Horig as [Hsite Horig].
    exists orig. cbn. split_and!; try done.
    by rewrite Hsite, list_lookup_middle.
  - specialize (IH (pre ++ [i])). rewrite <-app_assoc in IH.
    rewrite length_app in IH. simpl in IH.
    by rewrite Nat.add_1_r in IH.
Qed.

Lemma kept_sites_in_range ts drawn :
  Forall (fun i => (i < length (sites ts))%nat) (kept_sites ts drawn).
Proof.
  rewrite Forall_forall. intros i [_ Hi%elem_of_seq]%list_elem_of_filter. lia.
Qed.

Lemma length_kept_sites ts drawn :
  NoDup drawn → Forall (fun i => (i < length (sites ts))%nat) drawn →
  length (kept_sites ts drawn) = length drawn.
Proof.
  intros Hnd Hin. apply Permutation_length, NoDup_Permutation; [|done|].
  - apply NoDup_filter, NoDup_seq.
  - intros i. unfold kept_sites. rewrite list_elem_of_filter, elem_of_seq.
    rewrite Forall_forall in Hin. split; [by intros [? _]|].
    intros Hi. split; [done|]. specialize (Hin i Hi). lia.
Qed.

Section SubsampleFacts.
Context {rng : Type}.
Variable random_sample : rng → list nat → Z → option (list nat * rng).

End SubsampleFacts.


(** ** [permute_nodes] *)

Lemma fill_reverse_map_spec node_map : ∀ js rm,
  NoDup js →
  (∀ j, j ∈ js → ∃ u, node_map !! j = Some u ∧ (u < length rm)%nat) →
  (∀ j1 j2 u, j1 ∈ js → j2 ∈ js →
     node_map !! j1 = Some u → node_map !! j2 = Some u → j1 = j2) →
  ∃ rm',
    fill_reverse_map node_map js rm = Some rm' ∧
    length rm' = length rm ∧
    (∀ j u, j ∈ js → node_map !! j = Some u → rm' !! u = Some j) ∧
    (∀ u, (∀ j, j ∈ js → node_map !! j ≠ Some u) → rm' !! u = rm !! u).
Proof.
  induction js as [|j js IH]; intros rm Hnd Hin Hinj.
  - exists rm. split_and!; try done. by intros j u ?%elem_of_nil.
  - apply NoDup_cons in Hnd as [Hj Hnd].
    destruct (Hin j) as (u & Hu & Hlt); [by left|].
    destruct (IH (<[u:=j]> rm)) as (rm' & Hrun & Hlen & Hset & Hkeep);
      [done| | |].
    { intros j' Hj'. rewrite length_insert. apply Hin. by right. }
    { intros j1 j2 u' H1 H2. apply Hinj; by right. }
    exists rm'. simpl. unfold py_index, py_setitem. rewrite Hu.
    cbn [mbind option_bind].
    destruct (Nat.ltb_spec u (length rm)) as [_|?]; [|lia].
    cbn [mbind option_bind]. rewrite Hrun.
    rewrite length_insert in Hlen. split_and!; try done.
    + intros j' u' [->|Hj']%elem_of_cons Hu'.
      * rewrite Hu in Hu'. injection Hu' as <-.
        rewrite Hkeep; [by apply list_lookup_insert_eq|].
        intros j2 Hj2 Hu2. apply Hj.
        by rewrite (Hinj j j2 u) by (done || by left || by right).
      * by apply Hset.
    + intros u' Hu'. rewrite Hkeep.
      * apply list_lookup_insert_ne. intros ->. by apply (Hu' j); [left|].
      * intros j' Hj'. apply Hu'. by right.
Qed.

Lemma fill_reverse_map_None node_map : ∀ js rm,
  (∃ j, j ∈ js ∧ ∀ u, node_map !! j = Some u → (length rm ≤ u)%nat) →
  fill_reverse_map node_map js rm = None.
Proof.
  induction js as [|j0 js IH]; intros rm (j & Hj & Hbad).
  - by apply elem_of_nil in Hj.
  - simpl. unfold py_index, py_setitem.
    destruct (node_map !! j0) as [u|] eqn:Hu; [|done].
    cbn [mbind option_bind].
    destruct (Nat.ltb_spec u (length rm)) as [Hlt|?]; [|done].
    cbn [mbind option_bind]. apply IH. exists j.
    rewrite length_insert. split; [|done].
    apply elem_of_cons in Hj as [->|Hj]; [|done].
    specialize (Hbad u Hu). lia.
Qed.

Lemma permuted_nodes_spec (old : list NodeRow) (rm : list nat) : ∀ js,
  (∀ j, j ∈ js → ∃ o r, rm !! j = Some o ∧ old !! o = Some r) →
  ∃ new_nodes,
    permuted_nodes old rm js = Some new_nodes ∧
    length new_nodes = length js ∧
    ∀ i j o, js !! i = Some j → rm !! j = Some o →
             new_nodes !! i = old !! o.
Proof.
  induction js as [|j js IH]; intros Hin.
  - by exists [].
  - destruct (Hin j) as (o & r & Ho & Hr); [by left|].
    destruct IH as (new_nodes & Hrun & Hlen & Hlook).
    { intros j' Hj'. apply Hin. by right. }
    simpl. unfold py_index. rewrite Ho. cbn [mbind option_bind].
    rewrite Hr. cbn [mbind option_bind]. rewrite Hrun.
    cbn [mbind option_bind]. eexists. split; [done|].
    split; [simpl; by rewrite Hlen|].
    intros [|i] j' o' Hj' Ho'; simpl in *.
    + injection Hj' as <-. rewrite Ho in Ho'. injection Ho' as <-.
      rewrite Hr. by destruct r.
    + by eapply Hlook.
Qed.

Lemma permuted_edges_spec node_map : ∀ es,
  Forall (fun e => (e_parent e < length node_map)%nat ∧
                   (e_child e < length node_map)%nat) es →
  permuted_edges node_map es = Some (map (relabel_edge node_map) es).
Proof.
  induction 1 as [|e es [Hp Hc] Hes IH]; [done|].
  simpl. unfold py_index.
  apply lookup_lt_is_Some in Hp as [p Hp].
  apply lookup_lt_is_Some in Hc as [c Hc].
  rewrite Hp, Hc. cbn [mbind option_bind]. rewrite IH.
  cbn [mbind option_bind]. unfold relabel_edge. by rewrite Hp, Hc.
Qed.

Lemma permuted_mutations_at_Some node_map s : ∀ ms,
  Forall (fun mu => (m_node mu < length node_map)%nat) ms →
  is_Some (permuted_mutations_at node_map s ms).
Proof.
  induction 1 as [|mu ms Hmu Hms [new_rows IH]]; [by eexists|].
  simpl. unfold py_index.
  apply lookup_lt_is_Some in Hmu as [u Hu]. rewrite Hu.
  cbn [mbind option_bind]. rewrite IH. by eexists.
Qed.

Lemma permuted_mutations_Some ts node_map :
  Forall (fun mu => (m_node mu < length node_map)%nat) (mutations ts) →
  ∀ ss s, is_Some (permuted_mutations ts node_map s ss).
Proof.
  intros Hms. induction ss as [|site ss IH]; intros s; [by eexists|].
  simpl.
  destruct (permuted_mutations_at_Some node_map s (site_mutations ts s))
    as [here Hhere].
  { rewrite Forall_forall in Hms. rewrite Forall_forall.
    intros mu [_ Hmu]%list_elem_of_filter. by apply Hms. }
  rewrite Hhere. cbn [mbind option_bind].
  destruct (IH (S s)) as [rest_ Hrest]. rewrite Hrest. by eexists.
Qed.

(** A list of [n] distinct numbers below [n] holds every number below
    [n]. *)
Lemma permutation_onto (node_map : list nat) (u : nat) :
  NoDup node_map →
  Forall (fun v => (v < length node_map)%nat) node_map →
  (u < length node_map)%nat → ∃ j, node_map !! j = Some u.
Proof.
  intros Hnd Hin Hu.
  assert (node_map ≡ₚ seq 0 (length node_map)) as Hperm.
  { apply submseteq_length_Permutation.
    - apply NoDup_submseteq; [done|]. intros v Hv.
      rewrite Forall_forall in Hin. apply elem_of_seq.
      specialize (Hin v Hv). lia.
    - by rewrite length_seq. }
  apply list_elem_of_lookup_1. rewrite Hperm. apply elem_of_seq. lia.
Qed.



(** X15: [permute_nodes] raises (an index out of range) when [node_map]
    has no entry for some node of [ts], or sends a node to a position
    that is not below the length of [node_map]. *)
Theorem permute_nodes_bad_map (ts : TreeSequence) (node_map : list nat)
    (j : nat) :
  (j < num_nodes ts)%nat →
  (∀ u, node_map !! j = Some u → (length node_map ≤ u)%nat) →
  permute_nodes ts node_map = None.
Proof.
  intros Hj Hbad. unfold permute_nodes, reverse_map_of.
  rewrite fill_reverse_map_None; [done|].
  exists j. split; [apply elem_of_seq; lia|].
  by rewrite length_replicate.
Qed.

Lemma permute_nodes_bad_map_witness :
  permute_nodes three_samples [1; 0; 2; 3]%nat = None ∧
  permute_nodes three_samples [1; 0; 2; 3; 5]%nat = None.
Proof.
  split.
  - apply (permute_nodes_bad_map _ _ 4%nat); [cbn; lia|].
    intros u Hu. by cbn in Hu.
  - apply (permute_nodes_bad_map _ _ 4%nat); [cbn; lia|].
    intros u Hu. cbn in Hu. injection Hu as <-. cbn. lia.
Defined.

(** ** [insert_branch_mutations] with no mutation per branch *)

Lemma dfs_zero_key_error (root site : nat) : ∀ fuel stack w,
  mutation w = {[root := -1]} →
  Exists (key_error root) stack →
  dfs fuel 0 site stack w = None.
Proof.
  induction fuel as [|fuel IH]; intros stack w Hmut Hbad.
  - destruct stack as [|[v [u kids]] stack]; [by inversion Hbad|done].
  - destruct stack as [|[v [u kids]] stack]; [by inversion Hbad|].
    simpl.
    assert (v = None ∨ v = Some root →
            Exists (key_error root)
              (reverse (map (fun k => (Some u, k)) kids) ++ stack))
      as Hnext.
    { intros Hv. apply Exists_app.
      apply Exists_cons in Hbad as [Hhead|Htail]; [left|by right].
      inversion Hhead as [v0 t0 Hne|v0 u0 kids0 k Hk Hfail]; subst.
      - by destruct Hv as [?|[= ->]].
      - apply Exists_exists. exists (Some u, k). split; [|done].
        rewrite elem_of_reverse. apply list_elem_of_fmap. by exists k. }
    destruct v as [v|].
    + destruct (state w !! v) as [sv|]; [|done].
      cbn [mbind option_bind mutation].
      rewrite Hmut. destruct (decide (v = root)) as [->|Hne].
      * rewrite lookup_singleton_eq. cbn [mbind option_bind place].
        apply IH; [done|]. apply Hnext. by right.
      * by rewrite lookup_singleton_ne.
    + apply IH; [done|]. apply Hnext. by left.
Qed.

Lemma dfs_zero_rows (site : nat) : ∀ fuel stack w w',
  dfs fuel 0 site stack w = Some w' → rows w' = rows w.
Proof.
  induction fuel as [|fuel IH]; intros stack w w' Hrun.
  - destruct stack as [|[v [u kids]] stack]; [|done]. by injection Hrun as <-.
  - destruct stack as [|[v [u kids]] stack];
      [by injection Hrun as <-|].
    simpl in Hrun. destruct v as [v|].
    + destruct (state w !! v) as [sv|]; [|done].
      cbn [mbind option_bind mutation] in Hrun.
      destruct (mutation w !! v) as [parent|]; [|done].
      cbn [mbind option_bind place] in Hrun. by apply IH in Hrun.
    + by apply IH in Hrun.
Qed.

Lemma dfs_zero_leaves (root site : nat) : ∀ fuel stack w,
  Forall (fun f : frame => f.1 = Some root ∧ kids_of f.2 = []) stack →
  is_Some (state w !! root) → is_Some (mutation w !! root) →
  (length stack ≤ fuel)%nat →
  is_Some (dfs fuel 0 site stack w).
Proof.
  induction fuel as [|fuel IH]; intros stack w Hstack Hstate Hmut Hfuel.
  - destruct stack; [by eexists|simpl in Hfuel; lia].
  - destruct stack as [|[v [u kids]] stack]; [by eexists|].
    apply Forall_cons in Hstack as [[Hv Hkids] Hstack].
    simpl in Hv, Hkids, Hfuel. subst v kids. simpl.
    destruct Hstate as [sv Hsv]. destruct Hmut as [parent Hparent].
    rewrite Hsv. cbn [mbind option_bind mutation]. rewrite Hparent.
    cbn [mbind option_bind place]. apply IH; cbn; try done; [|lia].
    destruct (decide (u = root)) as [->|Hne].
    + rewrite lookup_insert_eq. by eexists.
    + rewrite lookup_insert_ne by done. by eexists.
Qed.

Lemma walk_root_zero_flat site R ms :
  flat R → walk_root 0 site R ms = Some ms.
Proof.
  intros Hflat. unfold walk_root. destruct R as [r kids].
  unfold flat in Hflat. cbn [kids_of root_id] in *.
  rewrite tree_size_RNode.
  cbn [dfs]. rewrite app_nil_r.
  match goal with
  | |- rows <$> dfs ?fuel _ _ ?stack ?w = _ =>
      destruct (dfs_zero_leaves r site fuel stack w) as [w' Hrun]
  end.
  - apply Forall_reverse, Forall_fmap.
    eapply Forall_impl; [exact Hflat|]. by intros k Hk.
  - cbn. rewrite lookup_singleton_eq. by eexists.
  - cbn. rewrite lookup_singleton_eq. by eexists.
  - rewrite length_reverse, length_map.
    clear. induction kids as [|[u ks] kids IH]; simpl; lia.
  - rewrite Hrun. cbn. f_equal. by apply dfs_zero_rows in Hrun.
Qed.

Lemma walk_roots_zero_flat site : ∀ rs ms,
  Forall flat rs → walk_roots 0 site rs ms = Some ms.
Proof.
  induction 1 as [|R rs HR Hrs IH]; [done|]. simpl.
  rewrite walk_root_zero_flat by done. done.
Qed.

Lemma walk_trees_zero_flat : ∀ trees ss ms,
  Forall (fun tr => Forall flat (roots tr)) trees →
  walk_trees 0 trees ss ms
  = Some (ss ++ map (fun tr => mkSite (interval_left tr) "0") trees, ms).
Proof.
  induction trees as [|tr trees IH]; intros ss ms Hflat; simpl.
  - by rewrite app_nil_r.
  - apply Forall_cons in Hflat as [Htr Hflat].
    rewrite walk_roots_zero_flat by done. cbn [mbind option_bind].
    rewrite IH by done. by rewrite <-app_assoc.
Qed.

Lemma walk_root_zero_deep site R ms :
  has_grandchild R → walk_root 0 site R ms = None.
Proof.
  intros (k & g & Hk & Hne & Hg). unfold walk_root.
  rewrite dfs_zero_key_error with (root := root_id R); [done|done|].
  apply Exists_cons. left. destruct R as [r kids]. destruct k as [u ks].
  cbn [kids_of root_id] in *.
  apply (key_error_below _ _ _ _ (RNode u ks)); [done|].
  apply (key_error_below _ _ _ _ g); [done|].
  destruct g. by apply key_error_here.
Qed.

Lemma walk_roots_zero_deep site : ∀ rs ms,
  Exists has_grandchild rs → walk_roots 0 site rs ms = None.
Proof.
  induction rs as [|R rs IH]; intros ms Hdeep; [by inversion Hdeep|].
  simpl. destruct (walk_root 0 site R ms) as [ms'|] eqn:Hroot; [|done].
  cbn [mbind option_bind]. apply IH.
  apply Exists_cons in Hdeep as [Hdeep|Hdeep]; [|done].
  by rewrite walk_root_zero_deep in Hroot.
Qed.

Lemma walk_trees_zero_deep : ∀ trees ss ms,
  Exists (fun tr => Exists has_grandchild (roots tr)) trees →
  walk_trees 0 trees ss ms = None.
Proof.
  induction trees as [|tr trees IH]; intros ss ms Hdeep;
    [by inversion Hdeep|].
  simpl.
  destruct (walk_roots 0 (length ss) (roots tr) ms) as [ms'|] eqn:Hroots;
    [|done].
  cbn [mbind option_bind]. apply IH.
  apply Exists_cons in Hdeep as [Hdeep|Hdeep]; [|done].
  by rewrite walk_roots_zero_deep in Hroots.
Qed.



(** X17: with [mutations_per_branch = 0], [insert_branch_mutations] raises
    (a [KeyError] on [mutation[v]]) as soon as some tree has a node two
    branches below a root: no entry of [mutation] is made for the node
    in between. *)
Theorem insert_branch_mutations_zero_deep
    (ts : TreeSequence) (trees : list SparseTree) :
  Exists (fun tr => Exists has_grandchild (roots tr)) trees →
  insert_branch_mutations ts trees 0 = None.
Proof.
  intros Hdeep. unfold insert_branch_mutations.
  by rewrite walk_trees_zero_deep.
Qed.

Lemma insert_branch_mutations_zero_deep_witness :
  insert_branch_mutations three_samples three_samples_trees 0 = None.
Proof.
  apply insert_branch_mutations_zero_deep.
  apply Exists_cons. left. apply Exists_cons. left.
  exists (RNode 3 [RNode 0 []; RNode 1 []]), (RNode 0 []).
  cbn. split_and!; [|lia|by left].
  right. by left.
Defined.

End TsutilFacts.

(** * Properties of the simplification engine *)

Module SimplifyFacts.
Import Simplify Notions Examples.

(** ** The constructor *)

Lemma init_samples_ext st samples samples' ks :
  (∀ k, k ∈ ks → (k ∈ samples ↔ k ∈ samples')) →
  init_samples st samples ks = init_samples st samples' ks.
Proof.
  revert st; induction ks as [|k ks IH]; intros st Hks; [done|].
  simpl. rewrite (bool_decide_ext (k ∈ samples) (k ∈ samples'))
    by (apply Hks; by left).
  case_bool_decide.
  - destruct (alloc_segment _ _ _ _ _ _ _) as [[st1 x]|]; [|done]. simpl.
    apply IH. intros k' Hk'. apply Hks. by right.
  - apply IH. intros k' Hk'. apply Hks. by right.
Qed.

Lemma init_samples_Some samples ks : ∀ st,
  (length (filter (fun k => k ∈ samples) ks) ≤ length (segment_stack st))%nat →
  ∃ st', init_samples st samples ks = Some st'.
Proof.
  induction ks as [|k ks IH]; intros st Hlen; [by eexists|].
  simpl. rewrite filter_cons in Hlen. case_bool_decide.
  - rewrite decide_True in Hlen by done. simpl in Hlen.
    unfold alloc_segment. destruct (segment_stack st) as [|x stack] eqn:Hst;
      simpl in Hlen; [lia|]. simpl. apply IH. cbn. lia.
  - rewrite decide_False in Hlen by done. by apply IH.
Qed.

(** What the loop of lines 64-69 leaves untouched, and how it fills [A],
    [P] and the free list. *)
Lemma init_samples_spec samples ks : ∀ st st',
  init_samples st samples ks = Some st' →
  heads_ok st →
  heads_ok st' ∧
  n st' = n st ∧ m st' = m st ∧ ts st' = ts st ∧ S_ st' = S_ st ∧
  C st' = C st ∧ max_segments st' = max_segments st ∧
  pop_index st' = pop_index st ∧
  (∀ k, is_Some (A st' !! k) ↔
        is_Some (A st !! k) ∨ (k ∈ ks ∧ k ∈ samples)) ∧
  length (P st')
  = (length (P st) + length (filter (fun k => k ∈ samples) ks))%nat ∧
  (length (segment_stack st') + length (P st')
   = length (segment_stack st) + length (P st))%nat.
Proof.
  induction ks as [|k ks IH]; intros st st' Hrun Hok.
  - injection Hrun as <-. split_and!; try done; try (simpl; lia).
    intros k. split; [by left|]. by intros [?|[?%elem_of_nil _]].
  - simpl in Hrun. rewrite filter_cons. case_bool_decide as Hk.
    + rewrite decide_True by done.
      unfold alloc_segment in Hrun.
      destruct (segment_stack st) as [|x stack] eqn:Hst; [done|].
      simpl in Hrun.
      apply IH in Hrun as (Hok' & Hn & Hm & Hts & HS & HC & Hmax & Hpop & HA
                           & HP & Hlen).
      * cbn in *. split; [done|]. rewrite Hn, Hm, Hts, HS, HC, Hmax, Hpop.
        split_and!; try done.
        -- intros k0. split.
           { intros Hsome. apply HA in Hsome as [Hsome|[Hin Hs]].
           ++ destruct (decide (k0 = k)) as [->|Hne].
              ** right. split; [by left|done].
              ** left. by rewrite lookup_insert_ne in Hsome.
           ++ right. split; [by right|done]. }
           intros [Hsome|[Hin Hs]]; apply HA.
           ++ left. destruct (decide (k0 = k)) as [->|Hne].
              ** by rewrite lookup_insert_eq.
              ** by rewrite lookup_insert_ne.
           ++ apply elem_of_cons in Hin as [->|Hin].
              ** left. by rewrite lookup_insert_eq.
              ** by right.
        -- rewrite HP, length_app. simpl. lia.
        -- rewrite Hlen, length_app. simpl. lia.
      * destruct Hok as [Hnd Hheads]. rewrite Hst in Hnd.
        apply NoDup_cons in Hnd as [Hx Hnd].
        split; [done|]. cbn. intros k' x' Hk'.
        destruct (decide (k' = k)) as [->|Hne].
        -- rewrite lookup_insert_eq in Hk'. injection Hk' as <-.
           rewrite lookup_insert_eq. split; [done|].
           split; [|done]. apply elem_of_app. right. by left.
        -- rewrite lookup_insert_ne in Hk' by done.
           destruct (Hheads k' x' Hk') as (Hseg & HP & Hfree).
           rewrite Hst in Hfree. apply not_elem_of_cons in Hfree as [Hxx Hfree].
           rewrite lookup_insert_ne by done. split; [done|].
           split; [|done]. apply elem_of_app. by left.
    + rewrite decide_False by done.
      apply IH in Hrun as (Hok' & Hn & Hm & Hts & HS & HC & Hmax & Hpop & HA
                           & HP & Hlen); [|done].
      split; [done|]. split_and!; try done.
      intros k0. split.
      * intros Hsome. apply HA in Hsome as [Hsome|[Hin Hs]]; [by left|].
        right. split; [by right|done].
      * intros [Hsome|[Hin Hs]]; apply HA; [by left|].
        apply elem_of_cons in Hin as [->|Hin]; [done|by right].
Qed.

Lemma NoDup_fresh_stack max : NoDup (fresh_stack max).
Proof.
  unfold fresh_stack. rewrite reverse_Permutation.
  apply (NoDup_fmap_2 S), NoDup_seq.
Qed.

Lemma length_fresh_stack max : length (fresh_stack max) = max.
Proof. unfold fresh_stack. by rewrite length_reverse, length_map, length_seq. Qed.

(** The constructor, up to the end of the loop over [range(sample_size)]. *)
Lemma Simplifier_init_spec ts0 samples max :
  let n0 := length (Tables.samples ts0) in
  (length (kept_in_range samples n0) ≤ max)%nat →
  ∃ st1,
    Simplifier_init ts0 samples max
    = Some (set_w (set_t (set_S (set_S st1
              (avl_set 0 (Z.of_nat n0) []))
              (avl_set (sequence_length ts0) (-1)
                 (avl_set 0 (Z.of_nat n0) []))) 0) n0) ∧
    heads_ok st1 ∧ n st1 = n0 ∧ m st1 = sequence_length ts0 ∧
    ts st1 = ts0 ∧ S_ st1 = [] ∧ C st1 = [] ∧ pop_index st1 = 0%nat ∧
    (∀ k, is_Some (A st1 !! k) ↔ k ∈ samples ∧ (k < n0)%nat) ∧
    length (P st1) = length (kept_in_range samples n0) ∧
    (length (segment_stack st1) + length (P st1) = max)%nat.
Proof.
  intros n0 Hlen. unfold Simplifier_init. fold n0.
  set (st0 := mkSimplifier ts0 n0 (sequence_length ts0) max (fresh_stack max)
                (fresh_arena max) [] [] ∅ [] ∅ 0 0 0 0 0).
  destruct (init_samples_Some samples (seq 0 n0) st0) as [st1 Hrun].
  { unfold st0; cbn. by rewrite length_fresh_stack. }
  destruct (init_samples_spec samples (seq 0 n0) st0 st1 Hrun) as
    (Hok & Hn & Hm & Hts & HS & HC & Hmax & Hpop & HA & HP & Hstack).
  { split; [apply NoDup_fresh_stack|]. intros k x Hk. by cbn in Hk. }
  exists st1. rewrite Hrun. cbn [mbind option_bind].
  cbn in Hn, Hm, Hts, HS, HC, Hpop, HP, Hstack.
  split.
  { cbn [S_ set_S n m set_t set_w]. by rewrite Hn, Hm, HS. }
  split_and!; try done.
  - intros k. rewrite HA. cbn. rewrite elem_of_seq. split.
    + intros [[? ?]|[? ?]]; [done|]. split; [done|lia].
    + intros [? ?]. right. split; [lia|done].
  - by rewrite Hstack, length_fresh_stack.
Qed.

(** C10.  Provided the arena holds one slot per kept identifier below
    the sample count [n] of the tree sequence, the constructor returns,
    and it allocates a full-interval segment, a registration in the
    population and an entry of [A] exactly for the members [k] of
    [samples] with [0 <= k < n]: [A] has no other key, the population and
    the arena hold nothing else, and the object built is the one built
    from [samples] with every other identifier removed. *)
Theorem Simplifier_init_keeps_in_range
    (ts0 : TreeSequence) (samples : list nat) (max : nat) :
  let n0 := length (Tables.samples ts0) in
  (length (kept_in_range samples n0) ≤ max)%nat →
  ∃ st,
    Simplifier_init ts0 samples max = Some st ∧
    (∀ k, is_Some (A st !! k) ↔ k ∈ samples ∧ (k < n0)%nat) ∧
    (∀ k x, A st !! k = Some x →
       segments st !! x = Some (mkSeg 0 (sequence_length ts0) k 0 None None) ∧
       x ∈ P st ∧ x ∉ segment_stack st) ∧
    length (P st) = length (kept_in_range samples n0) ∧
    (length (segment_stack st) + length (kept_in_range samples n0) = max)%nat ∧
    Simplifier_init ts0 (filter (fun k => (k < n0)%nat) samples) max = Some st.
Proof.
  intros n0 Hlen.
  destruct (Simplifier_init_spec ts0 samples max Hlen) as
    (st1 & Hrun & [Hnd Hheads] & Hn & Hm & Hts & HS & HC & Hpop & HA & HP
     & Hstack).
  fold n0 in Hrun, HA, HP.
  assert (Simplifier_init ts0 (filter (fun k => (k < n0)%nat) samples) max
          = Simplifier_init ts0 samples max) as Hsame.
  { unfold Simplifier_init. fold n0.
    rewrite (init_samples_ext _ _ samples); [done|].
    intros k Hk%elem_of_seq. rewrite list_elem_of_filter.
    split; [by intros [_ ?]|intros ?; split; [lia|done]]. }
  rewrite Hsame. eexists. split; [exact Hrun|]. cbn.
  split; [done|]. split.
  { intros k x Hk. destruct (Hheads k x Hk) as (Hseg & ? & ?).
    by rewrite Hm, Hpop in Hseg. }
  split; [done|]. split; [lia|done].
Qed.

(** C1 (amended), the constructor.  Whatever the kept samples, the
    constructor seeds [S] with the two entries [{0: n, sequence_length:
    -1}] and sets the counter [w] to [n], where [n] is the number of
    samples of the tree sequence, not the number of kept samples. *)
Lemma Simplifier_init_seeds
    (ts0 : TreeSequence) (samples : list nat) (max : nat) (st : Simplifier) :
  Simplifier_init ts0 samples max = Some st →
  (0 < sequence_length ts0)%Q →
  S_ st = [(0%Q, Z.of_nat (length (Tables.samples ts0)));
           (sequence_length ts0, -1)] ∧
  w st = length (Tables.samples ts0) ∧ C st = [] ∧ t st = 0%Q.
Proof.
  intros Hrun Hpos. unfold Simplifier_init in Hrun.
  destruct (init_samples _ _ _) as [st1|] eqn:Hinit; [|done].
  destruct (init_samples_spec _ _ _ _ Hinit) as
    (_ & Hn & Hm & _ & HS & HC & _).
  { split; [apply NoDup_fresh_stack|]. intros k x Hk. by cbn in Hk. }
  cbn in Hrun, Hn, Hm, HS, HC. injection Hrun as <-. cbn.
  rewrite HS, Hn, Hm, HC. cbn.
  apply Qgt_alt in Hpos. rewrite Hpos. done.
Qed.

(** ** The counter [w] and the log [C] *)

(** Case analysis of a run that returned: every bind, match and test of
    the hypotheses is split, the failing branches are dropped. *)
Ltac split_runs :=
  repeat match goal with
    | H : None = Some _ |- _ => discriminate H
    | H : mbind _ ?e = Some _ |- _ =>
        destruct e eqn:?; cbn [mbind option_bind] in H
    | H : (let '(_, _) := ?p in _) = Some _ |- _ => destruct p
    | H : match ?e with _ => _ end = Some _ |- _ => destruct e eqn:?
    end.

#[local] Instance same_log_refl : Reflexive same_log.
Proof. by intros st. Qed.

#[local] Instance same_log_trans : Transitive same_log.
Proof. intros a b c [? ?] [? ?]. split; congruence. Qed.

Lemma update_seg_log st i f st' :
  update_seg st i f = Some st' → same_log st st'.
Proof. unfold update_seg. intros H. split_runs. by injection H as <-. Qed.

Lemma alloc_segment_log st l r u pop pv nx st' x :
  alloc_segment st l r u pop pv nx = Some (st', x) → same_log st st'.
Proof. unfold alloc_segment. intros H. split_runs. by injection H as <- <-. Qed.

Lemma update_seg_opt_log st (o : option nat) f st' :
  match o with Some i => update_seg st i f | None => Some st end = Some st' →
  same_log st st'.
Proof.
  destruct o; [apply update_seg_log|]. by intros [= <-].
Qed.

(** The facts [same_log] of the steps of a run, then congruence. *)
Ltac log_facts :=
  repeat match goal with
    | E : update_seg _ _ _ = Some _ |- _ => apply update_seg_log in E
    | E : alloc_segment _ _ _ _ _ _ _ = Some _ |- _ =>
        apply alloc_segment_log in E
    | E : match _ with Some _ => update_seg _ _ _ | None => Some _ end
          = Some _ |- _ => apply update_seg_opt_log in E
    end.

Ltac log_auto :=
  log_facts; unfold same_log in *; simplify_eq/=; intuition congruence.

Lemma remove_overlap_log edge s x s' b :
  remove_overlap edge s x = Some (s', b) → same_log (r_st s) (r_st s').
Proof. unfold remove_overlap. intros H. split_runs; log_auto. Qed.

Lemma remove_loop_log fuel edge : ∀ s s',
  remove_loop fuel edge s = Some s' → same_log (r_st s) (r_st s').
Proof.
  induction fuel as [|fuel IH]; intros s s' H; simpl in H; split_runs;
    try (by simplify_eq/=);
    repeat match goal with
      | E : remove_overlap _ _ _ = Some _ |- _ => apply remove_overlap_log in E
      | E : remove_loop _ _ _ = Some _ |- _ => apply IH in E
      end; log_auto.
Qed.

Lemma remove_wrap_up_log child s st' :
  remove_wrap_up child s = Some st' → same_log (r_st s) st'.
Proof. unfold remove_wrap_up. intros H. split_runs; log_auto. Qed.

Lemma remove_child_log fuel edge st H child st' H' :
  remove_child fuel edge st H child = Some (st', H') → same_log st st'.
Proof.
  unfold remove_child. intros Hrun. split_runs; [|by simplify_eq/=].
  repeat match goal with
    | E : remove_loop _ _ _ = Some _ |- _ => apply remove_loop_log in E
    | E : remove_wrap_up _ _ = Some _ |- _ => apply remove_wrap_up_log in E
    end; log_auto.
Qed.

Lemma remove_children_log fuel edge children : ∀ st H st' H',
  remove_children fuel edge st H children = Some (st', H') → same_log st st'.
Proof.
  induction children as [|c cs IH]; intros st H st' H' Hrun; simpl in Hrun.
  - by simplify_eq/=.
  - split_runs.
    repeat match goal with
      | E : remove_child _ _ _ _ _ = Some _ |- _ => apply remove_child_log in E
      | E : remove_children _ _ _ _ _ = Some _ |- _ => apply IH in E
      end; log_auto.
Qed.

Lemma remove_ancestry_log fuel st edge st' H :
  remove_ancestry fuel st edge = Some (st', H) → same_log st st'.
Proof.
  unfold remove_ancestry. intros Hrun. split_runs.
  by apply remove_children_log in Hrun.
Qed.

Lemma merge_single_log st H x st' H' alpha :
  merge_single st H x = Some (st', H', alpha) → same_log st st'.
Proof. unfold merge_single. intros Hrun. split_runs; log_auto. Qed.

Lemma coalesce_bound_log st l r_max k u pop_id st' r alpha :
  coalesce_bound st l r_max k u pop_id = Some (st', r, alpha) →
  same_log st st'.
Proof. unfold coalesce_bound. intros Hrun. split_runs; log_auto. Qed.

Lemma settle_batch_log X : ∀ st H r children st' H' children',
  settle_batch st H X r children = Some (st', H', children') →
  same_log st st'.
Proof.
  induction X as [|x X IH]; intros st H r children st' H' children' Hrun;
    simpl in Hrun; [by simplify_eq/=|].
  split_runs;
    repeat match goal with
      | E : settle_batch _ _ _ _ _ = Some _ |- _ => apply IH in E
      end; log_auto.
Qed.

Lemma merge_coalesce_log st H X l r_max co pop_id st' H' alpha :
  merge_coalesce st H X l r_max co pop_id = Some (st', H', alpha) →
  w st' = (if co then w st else w st + 1)%nat ∧
  ∃ rec, C st' = C st ++ [rec] ∧ c_node rec = (w st' - 1)%nat.
Proof.
  unfold merge_coalesce. intros Hrun. split_runs.
  repeat match goal with
    | E : coalesce_bound _ _ _ _ _ _ = Some _ |- _ =>
        apply coalesce_bound_log in E
    | E : settle_batch _ _ _ _ _ = Some _ |- _ => apply settle_batch_log in E
    end.
  unfold same_log in *. simplify_eq/=. destruct_and!.
  destruct co; cbn in *; (split; [congruence|]); eexists;
    (split; [f_equal; congruence|cbn; congruence]).
Qed.

Lemma integrate_log g parent alpha g' :
  integrate g parent alpha = Some g' →
  same_log (g_st g) (g_st g') ∧ coalescence g' = coalescence g.
Proof.
  unfold integrate. intros Hrun. split_runs; log_facts;
    unfold same_log in *; simplify_eq/=; intuition congruence.
Qed.

Lemma merge_step_cases g parent pop_id g' :
  merge_step g parent pop_id = Some g' →
  (coalescence g' = coalescence g ∧ same_log (g_st g) (g_st g')) ∨
  (coalescence g' = true ∧
   w (g_st g') = (if coalescence g then w (g_st g) else w (g_st g) + 1)%nat ∧
   ∃ rec, C (g_st g') = C (g_st g) ++ [rec] ∧
          c_node rec = (w (g_st g') - 1)%nat).
Proof.
  unfold merge_step. intros Hrun. split_runs;
    repeat match goal with
      | E : merge_single _ _ _ = Some _ |- _ => apply merge_single_log in E
      | E : merge_coalesce _ _ _ _ _ _ _ = Some _ |- _ =>
          apply merge_coalesce_log in E as (? & ? & ? & ?)
      | E : integrate _ _ _ = Some _ |- _ =>
          apply integrate_log in E as [[? ?] ?]
      end; cbn in *; unfold same_log in *.
  all: destruct_and?.
  all: first
    [ left; split; [congruence|split; congruence]
    | right; split; [congruence|]; split; [congruence|];
      eexists; split; [etrans; [eassumption|f_equal; eassumption]|congruence] ].
Qed.

Lemma merge_step_inv w0 C0 g parent pop_id g' :
  merge_step g parent pop_id = Some g' →
  merge_inv w0 C0 (coalescence g) (g_st g) →
  merge_inv w0 C0 (coalescence g') (g_st g').
Proof.
  intros Hrun Hinv.
  destruct (merge_step_cases _ _ _ _ Hrun) as
    [[Hco [Hw HC]]|(Hco & Hw & rec & HC & Hrec)].
  - rewrite Hco. unfold merge_inv. rewrite Hw, HC. done.
  - rewrite Hco.
    destruct Hinv as [(Hco0 & Hw0 & HC0)|(Hco0 & Hw0 & recs & Hne & HC0 & Hall)];
      rewrite Hco0 in Hw; right; (split; [done|]).
    + split; [lia|]. exists [rec]. split; [done|]. split; [congruence|].
      constructor; [lia|constructor].
    + split; [lia|]. exists (recs ++ [rec]). split; [by destruct recs|].
      split; [rewrite app_assoc; congruence|].
      apply Forall_app. split; [done|]. constructor; [lia|constructor].
Qed.

Lemma merge_loop_inv w0 C0 fuel parent pop_id : ∀ g g',
  merge_loop fuel g parent pop_id = Some g' →
  merge_inv w0 C0 (coalescence g) (g_st g) →
  merge_inv w0 C0 (coalescence g') (g_st g').
Proof.
  induction fuel as [|fuel IH]; intros g g' Hrun Hinv; simpl in Hrun;
    split_runs; try (by simplify_eq/=).
  eapply IH; [done|]. by eapply merge_step_inv.
Qed.

Lemma defrag_segment_chain_log fuel : ∀ st y st',
  defrag_segment_chain fuel st y = Some st' → same_log st st'.
Proof.
  induction fuel as [|fuel IH]; intros st y st' Hrun; simpl in Hrun;
    split_runs; try (by simplify_eq/=);
    repeat match goal with
      | E : defrag_segment_chain _ _ _ = Some _ |- _ => apply IH in E
      end; log_auto.
Qed.

Lemma defrag_breakpoints_log st : same_log st (defrag_breakpoints st).
Proof. unfold defrag_breakpoints. by destruct (S_ st) as [|[??]?]. Qed.

(** One call of [merge_labeled_ancestors] either leaves the counter and
    the log alone, or takes one fresh identifier, the value of the
    counter, for all the records it appends. *)
Lemma merge_labeled_ancestors_log fuel st H parent pop_id st' :
  merge_labeled_ancestors fuel st H parent pop_id = Some st' →
  same_log st st' ∨
  (w st' = S (w st) ∧
   ∃ recs, recs ≠ [] ∧ C st' = C st ++ recs ∧
           Forall (fun r => c_node r = w st) recs).
Proof.
  unfold merge_labeled_ancestors. intros Hrun.
  case_bool_decide; [|done].
  destruct (merge_loop _ _ _ _) as [g|] eqn:Hloop; [|done].
  cbn [mbind option_bind] in Hrun.
  apply (merge_loop_inv (w st) (C st)) in Hloop; [|by left].
  cbn [g_st coalescence] in Hloop.
  assert (same_log (g_st g) st') as [Hw' HC'].
  { destruct (defrag_required g).
    - split_runs.
      match goal with
      | E : defrag_segment_chain _ _ _ = Some _ |- _ =>
          apply defrag_segment_chain_log in E
      end.
      injection Hrun as <-. etrans; [done|].
      destruct (coalescence g); [apply defrag_breakpoints_log|done].
    - cbn [mbind option_bind] in Hrun. injection Hrun as <-.
      destruct (coalescence g); [apply defrag_breakpoints_log|done]. }
  destruct Hloop as [(_ & Hw & HC)|(_ & Hw & recs & Hne & HC & Hall)].
  - left. split; congruence.
  - right. split; [congruence|]. exists recs.
    split; [done|]. split; [congruence|done].
Qed.

Lemma logged_in_order_nil w0 C0 : logged_in_order w0 C0 C0 [].
Proof. split; [by rewrite app_nil_r|]. by intros i g ?. Qed.

Lemma logged_in_order_cons w0 C0 C1 C2 recs gs :
  recs ≠ [] → Forall (fun r => c_node r = w0) recs → C1 = C0 ++ recs →
  logged_in_order (S w0) C1 C2 gs →
  logged_in_order w0 C0 C2 (recs :: gs).
Proof.
  intros Hne Hall -> [-> Hgs]. split; [by rewrite <-app_assoc|].
  intros [|i] g Hg; simpl in Hg.
  - injection Hg as <-. by rewrite Nat.add_0_r.
  - destruct (Hgs i g Hg) as [? Hi]. split; [done|].
    by replace (w0 + S i)%nat with (S w0 + i)%nat by lia.
Qed.

(** Over a run of [simplify], the ancestors created take the successive
    values of the counter, in the order of creation. *)
Lemma simplify_edges_log fuel es : ∀ st st',
  simplify_edges fuel st es = Some st' →
  ∃ gs, logged_in_order (w st) (C st) (C st') gs ∧
        w st' = (w st + length gs)%nat.
Proof.
  induction es as [|edge es IH]; intros st st' Hrun; simpl in Hrun.
  - injection Hrun as <-. exists []. split; [apply logged_in_order_nil|].
    simpl. lia.
  - split_runs.
    match goal with
    | E : remove_ancestry _ _ _ = Some _ |- _ =>
        apply remove_ancestry_log in E as [Hw1 HC1]
    end.
    match goal with
    | E : merge_labeled_ancestors _ _ _ _ _ = Some _ |- _ =>
        apply merge_labeled_ancestors_log in E as
          [[Hw2 HC2]|(Hw2 & recs & Hne & HC2 & Hall)]
    end.
    all: apply IH in Hrun as (gs & Hgs & Hw); cbn in *.
    + exists gs. rewrite Hw2, Hw1 in Hgs, Hw. rewrite HC2, HC1 in Hgs. done.
    + exists (recs :: gs). rewrite Hw2, Hw1 in Hgs, Hw. rewrite Hw1 in Hall.
      split; [|simpl; lia].
      eapply logged_in_order_cons; [done|done| |done]. congruence.
Qed.

(** C1 (amended).  Whatever the kept samples, the constructor seeds [S]
    with the two entries [{0: n, sequence_length: -1}] and sets the
    counter [w] to [n], where [n] is the number of samples of the tree
    sequence (not the number of kept samples); the ancestors created
    during [simplify] then receive the identifiers [n], [n + 1], ... in
    the order of creation, each for all the records it yields. *)
Theorem Simplifier_init_seeds_full_sample_count
    (ts0 : TreeSequence) (samples : list nat) (max fuel : nat)
    (st st' : Simplifier) :
  let n0 := length (Tables.samples ts0) in
  (0 < sequence_length ts0)%Q →
  Simplifier_init ts0 samples max = Some st →
  simplify fuel st = Some st' →
  S_ st = [(0%Q, Z.of_nat n0); (sequence_length ts0, -1)] ∧
  w st = n0 ∧
  ∃ gs, logged_in_order n0 [] (C st') gs ∧ w st' = (n0 + length gs)%nat.
Proof.
  intros n0 Hpos Hinit Hrun.
  destruct (Simplifier_init_seeds _ _ _ _ Hinit Hpos) as (HS & Hw & HC & _).
  split; [done|]. split; [done|].
  apply simplify_edges_log in Hrun as (gs & Hgs & Hw').
  rewrite Hw, HC in Hgs. rewrite Hw in Hw'. by exists gs.
Qed.

(** C1 as stated fails: with three samples of which two are kept, [S]
    starts at [3] and the counter at [3], not at the number [2] of kept
    samples. *)
Lemma Simplifier_init_counts_all_samples :
  ∃ st,
    Simplifier_init three_samples [0; 1]%nat default_max_segments = Some st ∧
    length [0; 1]%nat = 2%nat ∧
    S_ st = [(0%Q, 3); (10%Q, -1)] ∧ w st = 3%nat.
Proof. eexists. split; [by vm_compute|]. by vm_compute. Qed.

Lemma Simplifier_init_keeps_in_range_witness :
  ∃ st,
    Simplifier_init three_samples [0; 2; 7]%nat 5 = Some st ∧
    (∀ k, is_Some (A st !! k) ↔ k ∈ [0; 2; 7]%nat ∧ (k < 3)%nat) ∧
    length (P st) = 2%nat.
Proof.
  destruct (Simplifier_init_keeps_in_range three_samples [0; 2; 7]%nat 5)
    as (st & Hrun & HA & _ & HP & _).
  - vm_compute. lia.
  - exists st. split; [done|]. split; [exact HA|]. by rewrite HP.
Defined.

Lemma Simplifier_init_seeds_full_sample_count_witness :
  ∃ st st',
    Simplifier_init three_samples [0; 1; 2]%nat 6 = Some st ∧
    simplify 10 st = Some st' ∧
    S_ st = [(0%Q, 3); (10%Q, -1)] ∧ w st = 3%nat ∧
    ∃ gs, logged_in_order 3 [] (C st') gs ∧ w st' = (3 + length gs)%nat.
Proof.
  eexists _, _. split; [vm_compute; reflexivity|].
  split; [vm_compute; reflexivity|].
  apply (Simplifier_init_seeds_full_sample_count three_samples
           [0; 1; 2]%nat 6 10).
  - reflexivity.
  - vm_compute; reflexivity.
  - vm_compute; reflexivity.
Defined.

(** ** The command-line driver *)

Section DriverFacts.
Context {rng : Type}.
Variable random_sample : rng → list nat → Z → option (list nat * rng).
Variable random_seed : Z → rng.
Variable load : string → option TreeSequence.

(** C4.  The subset is drawn from the state the pseudorandom source is in
    when [run_simplify] starts, before the seed is applied: two runs from
    the same state on the same file and sample size draw the same subset
    and build the same engine whatever their seeds; the seed shows only
    in the state the source is left in. *)
Theorem run_simplify_draw_ignores_seed
    (fuel : nat) (g : rng) (path : string) (size seed1 seed2 : Z) :
  let run seed :=
    run_simplify random_sample random_seed load fuel g
      (mkArgs path size seed) in
  let drawn seed :=
    drawn_samples random_sample load g (mkArgs path size seed) in
  drawn seed1 = drawn seed2 ∧
  ∀ g1 samples1 s1,
    run seed1 = Some (g1, samples1, s1) →
    run seed2 = Some (random_seed seed2, samples1, s1) ∧
    g1 = random_seed seed1 ∧
    drawn seed1 = Some samples1.
Proof.
  intros run drawn. split; [done|].
  intros g1 samples1 s1 Hrun. unfold run, drawn, run_simplify, drawn_samples in *.
  cbn [tree_sequence sample_size_ random_seed_] in *.
  destruct (load path) as [ts0|]; [|done]. cbn [mbind option_bind] in *.
  destruct (random_sample g (samples ts0) size) as [[samples g']|]; [|done].
  cbn [mbind option_bind fmap option_fmap option_map fst] in *.
  destruct (Simplifier_init ts0 samples default_max_segments) as [s|];
    [|done].
  cbn [mbind option_bind] in *.
  destruct (simplify fuel s) as [s'|]; [|done].
  cbn [mbind option_bind] in *. by injection Hrun as <- <- <-.
Qed.
End DriverFacts.

Lemma run_simplify_draw_ignores_seed_witness :
  ∃ samples s,
    run_simplify toy_sample toy_seed toy_load 10 0%nat
      (mkArgs "three.trees" 2 1) = Some (1%nat, samples, s) ∧
    run_simplify toy_sample toy_seed toy_load 10 0%nat
      (mkArgs "three.trees" 2 7) = Some (7%nat, samples, s) ∧
    samples = [0; 1]%nat.
Proof.
  eexists _, _.
  assert (run_simplify toy_sample toy_seed toy_load 10 0%nat
            (mkArgs "three.trees" 2 1) = Some (1%nat, _, _)) as Hrun
    by (vm_compute; reflexivity).
  split; [exact Hrun|].
  destruct (run_simplify_draw_ignores_seed toy_sample toy_seed toy_load 10
              0%nat "three.trees" 2 1 7) as [_ Hsame].
  destruct (Hsame _ _ _ Hrun) as (Hrun2 & _ & _).
  split; [exact Hrun2|reflexivity].
Defined.

(** ** The right bound of a coalesced interval *)

Lemma Qltb_lt (a b : Q) : Qltb a b = true ↔ (a < b)%Q.
Proof.
  unfold Qltb. rewrite negb_true_iff, <-not_true_iff_false, Qle_bool_iff.
  split; [apply Qnot_le_lt|apply Qlt_not_le].
Qed.

Lemma Qltb_irrefl (a : Q) : Qltb a a = false.
Proof.
  apply not_true_iff_false. rewrite Qltb_lt. apply Qlt_irrefl.
Qed.

Lemma Qltb_trans (a b c : Q) :
  Qltb a b = true → Qltb b c = true → Qltb a c = true.
Proof. rewrite !Qltb_lt. apply Qlt_trans. Qed.

Lemma Qltb_asym (a b : Q) : Qltb a b = true → Qltb b a = false.
Proof.
  intros Hab. apply not_true_iff_false. rewrite Qltb_lt in *.
  by apply Qle_not_lt, Qlt_le_weak.
Qed.

Lemma walk_right_walked fuel : ∀ s r r_max k s' r',
  walk_right fuel s r r_max k = Some (s', r') → walked k r_max s r s' r'.
Proof.
  induction fuel as [|fuel IH]; intros s r r_max k s' r' Hrun;
    simpl in Hrun.
  - destruct (Qltb r r_max) eqn:Hlt; [|injection Hrun as <- <-; constructor; by left].
    destruct (avl_get r s) as [c|] eqn:Hc; [|done]. simpl in Hrun.
    case_bool_decide as Hck; [done|].
    injection Hrun as <- <-. constructor. right.
    destruct (decide (c = k)) as [->|]; [done|]. by destruct Hck.
  - destruct (Qltb r r_max) eqn:Hlt; [|injection Hrun as <- <-; constructor; by left].
    destruct (avl_get r s) as [c|] eqn:Hc; [|done]. simpl in Hrun.
    case_bool_decide as Hck.
    + destruct (succ_key r _) as [r1|] eqn:Hsucc; [|done]. simpl in Hrun.
      apply IH in Hrun. by eapply walked_step.
    + injection Hrun as <- <-. constructor. right.
      destruct (decide (c = k)) as [->|]; [done|]. by destruct Hck.
Qed.

Lemma count_above_cons r e s :
  count_above r (e :: s)
  = ((if Qltb r e.1 then 1 else 0) + count_above r s)%nat.
Proof.
  unfold count_above. rewrite filter_cons.
  destruct (Qltb r e.1); by case_decide.
Qed.

Lemma count_above_mono r r' s :
  Qltb r r' = true → (count_above r' s ≤ count_above r s)%nat.
Proof.
  intros Hlt. induction s as [|e s IH]; [done|].
  rewrite !count_above_cons.
  destruct (Qltb r' e.1) eqn:He; [|lia].
  rewrite (Qltb_trans r r' e.1) by done. lia.
Qed.

Lemma first_above_count r s r' :
  first_above r s = Some r' →
  Qltb r r' = true ∧ (count_above r' s < count_above r s)%nat.
Proof.
  induction s as [|[k' v'] s IH]; [done|]. simpl.
  rewrite !count_above_cons. cbn [fst].
  destruct (Qltb r k') eqn:Hk.
  - intros [= <-]. split; [done|]. rewrite Qltb_irrefl.
    pose proof (count_above_mono r k' s Hk). lia.
  - intros Hfirst. destruct (IH Hfirst) as [Hlt Hcount]. split; [done|].
    destruct (Qltb r' k') eqn:Hk'; [|lia].
    by rewrite (Qltb_trans r r' k') in Hk.
Qed.

Lemma count_above_avl_set r v s :
  count_above r (avl_set r v s) = count_above r s.
Proof.
  induction s as [|[k' v'] s IH]; simpl.
  - rewrite count_above_cons. cbn. by rewrite Qltb_irrefl.
  - destruct (r ?= k')%Q eqn:Hcmp.
    + by rewrite !count_above_cons.
    + rewrite !count_above_cons. cbn [fst]. by rewrite Qltb_irrefl.
    + rewrite !count_above_cons, IH. done.
Qed.

Lemma count_above_le_length r s : (count_above r s ≤ length s)%nat.
Proof. apply length_filter. Qed.

(** The walk never stops for want of fuel: any fuel above the number of
    keys to the right of the start gives the same result. *)
Lemma walk_right_fuel r_max k fuel : ∀ fuel' s r,
  (count_above r s < fuel)%nat → (fuel ≤ fuel')%nat →
  walk_right fuel' s r r_max k = walk_right fuel s r r_max k.
Proof.
  induction fuel as [|fuel IH]; intros fuel' s r Hcount Hle; [lia|].
  destruct fuel' as [|fuel']; [lia|]. simpl.
  destruct (Qltb r r_max); [|done].
  destruct (avl_get r s) as [c|]; [|done]. simpl.
  case_bool_decide; [|done].
  destruct (succ_key r _) as [r1|] eqn:Hsucc; [|done]. simpl.
  apply IH; [|lia].
  unfold succ_key in Hsucc. destruct (avl_mem _ _); [|done].
  apply first_above_count in Hsucc as [_ Hlt].
  rewrite count_above_avl_set in Hlt. lia.
Qed.

(** The fuel [coalesce_bound] passes is enough. *)
Lemma walk_right_enough s r r_max k fuel :
  (S (length s) ≤ fuel)%nat →
  walk_right fuel s r r_max k = walk_right (S (length s)) s r r_max k.
Proof.
  intros Hle. apply walk_right_fuel; [|done].
  pose proof (count_above_le_length r s). lia.
Qed.

Lemma walk_right_more r_max k fuel : ∀ fuel' s r res,
  walk_right fuel s r r_max k = Some res → (fuel ≤ fuel')%nat →
  walk_right fuel' s r r_max k = Some res.
Proof.
  induction fuel as [|fuel IH]; intros fuel' s r res Hrun Hle.
  - destruct fuel' as [|fuel']; [done|]. simpl in *.
    destruct (Qltb r r_max); [|done].
    destruct (avl_get r s) as [c|]; [|done]. simpl in *.
    by case_bool_decide.
  - destruct fuel' as [|fuel']; [lia|]. simpl in *.
    destruct (Qltb r r_max); [|done].
    destruct (avl_get r s) as [c|]; [|done]. simpl in *.
    case_bool_decide; [|done].
    destruct (succ_key r _) as [r1|]; [|done]. simpl in *.
    apply IH; [done|lia].
Qed.

(** Every walk of the claim is the one the loop makes. *)
Lemma walked_walk_right k r_max s r s' r' :
  walked k r_max s r s' r' →
  walk_right (S (length s)) s r r_max k = Some (s', r').
Proof.
  intros Hw.
  assert (∃ fuel, walk_right fuel s r r_max k = Some (s', r')) as [fuel Hrun].
  { induction Hw as [s r Hstop|s r c r1 s' r' Hlt Hc Hck Hsucc Hw IH].
    - exists 0%nat. simpl. destruct (Qltb r r_max) eqn:Hlt; [|done].
      destruct Hstop as [?| ->]; [done|]. simpl.
      by rewrite bool_decide_eq_false_2 by (intros Hne; by apply Hne).
    - destruct IH as [fuel IH]. exists (S fuel). simpl. rewrite Hlt, Hc. simpl.
      rewrite bool_decide_eq_true_2 by done. rewrite Hsucc. done. }
  rewrite <-(walk_right_enough s r r_max k (fuel `max` S (length s))) by lia.
  eapply walk_right_more; [done|lia].
Qed.

Lemma coalesce_bound_cases st l r_max k u pop_id st2 r alpha :
  coalesce_bound st l r_max k u pop_id = Some (st2, r, alpha) →
  (avl_get l (S_ st) = Some k ∧
   succ_key l (avl_set l 0 (S_ st)) = Some r ∧
   S_ st2 = avl_set l 0 (S_ st) ∧ alpha = None ∧
   segment_stack st2 = segment_stack st ∧ segments st2 = segments st)
  ∨
  (∃ c a,
     avl_get l (S_ st) = Some c ∧ c ≠ k ∧
     walked k r_max (S_ st) l (S_ st2) r ∧ alpha = Some a ∧
     segment_stack st = a :: segment_stack st2 ∧
     segments st2 = <[a := mkSeg l r u pop_id None None]> (segments st)).
Proof.
  unfold coalesce_bound. intros Hrun.
  destruct (avl_get l (S_ st)) as [c|] eqn:Hc; [|done].
  cbn [mbind option_bind] in Hrun. case_bool_decide as Hck.
  - left. subst c. cbn [S_ set_S] in Hrun.
    destruct (succ_key l _) as [r0|] eqn:Hsucc; [|done].
    cbn [mbind option_bind] in Hrun. by injection Hrun as <- <- <-.
  - right.
    destruct (walk_right _ _ _ _ _) as [[s2 r0]|] eqn:Hwalk; [|done].
    cbn [mbind option_bind] in Hrun. unfold alloc_segment in Hrun.
    cbn [segment_stack set_S segments] in Hrun.
    destruct (segment_stack st) as [|a stack]; [done|].
    cbn [mbind option_bind] in Hrun. injection Hrun as <- <- <-.
    exists c, a. split; [done|]. split; [done|].
    split; [by apply walk_right_walked in Hwalk|]. done.
Qed.




(** ** [remove_ancestry]: one push for the removed run *)

Lemma update_seg_inv st i f st' :
  update_seg st i f = Some st' →
  ∃ x, segments st !! i = Some x ∧
       segments st' = <[i := f x]> (segments st) ∧
       segment_stack st' = segment_stack st ∧ A st' = A st.
Proof.
  unfold update_seg, seg. intros Hrun.
  destruct (segments st !! i) as [x|]; [|done]. injection Hrun as <-.
  by exists x.
Qed.

Lemma alloc_segment_inv st l r u pop pv nx st' a :
  alloc_segment st l r u pop pv nx = Some (st', a) →
  segment_stack st = a :: segment_stack st' ∧
  segments st' = <[a := mkSeg l r u pop pv nx]> (segments st) ∧
  A st' = A st.
Proof.
  unfold alloc_segment. intros Hrun.
  destruct (segment_stack st) as [|i stack]; [done|].
  by injection Hrun as <- <-.
Qed.

Lemma py_max_ge_l a b : (a <= py_max a b)%Q.
Proof.
  unfold py_max. destruct (Qltb a b) eqn:Hlt; [|apply Qle_refl].
  apply Qltb_lt in Hlt. by apply Qlt_le_weak.
Qed.

Lemma py_min_le_l a b : (py_min a b <= a)%Q.
Proof.
  unfold py_min. destruct (Qltb b a) eqn:Hlt; [|apply Qle_refl].
  apply Qltb_lt in Hlt. by apply Qlt_le_weak.
Qed.

Lemma Qltb_false_le a b : Qltb a b = false → (b <= a)%Q.
Proof.
  unfold Qltb. rewrite negb_false_iff. apply Qle_bool_iff.
Qed.

(** With a left overhang the piece kept in front ends where the edge
    starts; with a right overhang the piece kept behind starts where the
    edge ends. *)
Lemma overhang_left_max a b :
  Qltb b (py_max a b) = true → (py_max a b <= a)%Q.
Proof.
  unfold py_max. destruct (Qltb a b) eqn:Hlt; [|intros _; apply Qle_refl].
  by rewrite Qltb_irrefl.
Qed.

Lemma overhang_right_min a b :
  Qltb (py_min a b) b = true → (a <= py_min a b)%Q.
Proof.
  unfold py_min. destruct (Qltb b a) eqn:Hlt; [|intros _; apply Qle_refl].
  by rewrite Qltb_irrefl.
Qed.

(** Updates of the arena that leave a chain, a removed run, the heap
    relation or a surviving piece as they are. *)
Lemma chain_from_insert_ne segs c : ∀ x i v,
  i ∉ c → chain_from segs x c → chain_from (<[i:=v]> segs) x c.
Proof.
  induction c as [|a c IH]; intros x i v Hi Hc; [done|].
  apply not_elem_of_cons in Hi as [Hia Hic].
  destruct Hc as (-> & sa & Hsa & Hc). split; [done|].
  exists sa. rewrite lookup_insert_ne by done. split; [done|]. by apply IH.
Qed.

Lemma removed_run_insert_ne edge segs W i v :
  i ∉ W → removed_run edge segs W → removed_run edge (<[i:=v]> segs) W.
Proof.
  intros Hi Hrun j a Hj. destruct (Hrun j a Hj) as (sa & Hsa & Hrest).
  exists sa. rewrite lookup_insert_ne; [done|].
  intros ->. apply Hi. by eapply list_elem_of_lookup_2.
Qed.

Lemma removed_run_insert_same edge segs W i x v :
  segs !! i = Some x →
  prev v = prev x → left v = left x → right v = right x →
  removed_run edge segs W → removed_run edge (<[i:=v]> segs) W.
Proof.
  intros Hx Hp Hl Hr Hrun j a Hj.
  destruct (Hrun j a Hj) as (sa & Hsa & Hrest).
  destruct (decide (i = a)) as [->|Hne].
  - exists v. rewrite lookup_insert_eq. split; [done|].
    rewrite Hsa in Hx. injection Hx as ->. by rewrite Hp, Hl, Hr.
  - exists sa. by rewrite lookup_insert_ne.
Qed.

Lemma removed_run_snoc edge segs W a sa :
  a ∉ W → removed_run edge segs W →
  prev sa = last W →
  (left_ edge <= left sa)%Q → (right sa <= right_ edge)%Q →
  removed_run edge (<[a:=sa]> segs) (W ++ [a]).
Proof.
  intros Ha Hrun Hp Hl Hr j b Hj.
  apply lookup_app_Some in Hj as [Hj|[Hlen Hj]].
  - destruct (removed_run_insert_ne edge segs W a sa Ha Hrun j b Hj)
      as (sb & Hsb & Hpb & Hrest).
    exists sb. split; [done|]. split; [|done].
    rewrite Hpb. destruct j as [|j]; [done|].
    rewrite lookup_app_l; [done|]. apply lookup_lt_Some in Hj. lia.
  - apply list_lookup_singleton_Some in Hj as [Hj <-].
    exists sa. rewrite lookup_insert_eq. split; [done|]. split; [|done].
    rewrite Hp, last_lookup.
    replace j with (length W) by lia. destruct W as [|w0 W']; [done|].
    cbn [length Nat.pred]. by rewrite lookup_app_l by (simpl; lia).
Qed.

Lemma heap_after_insert_ne segs H0 W H i v :
  i ∉ W → heap_after segs H0 W H → heap_after (<[i:=v]> segs) H0 W H.
Proof.
  destruct W as [|w1 W]; [done|]. intros Hi (sw & Hsw & ->).
  exists sw. rewrite lookup_insert_ne; [done|].
  intros ->. apply Hi. by left.
Qed.

Lemma heap_after_insert_same segs H0 W H i x v :
  segs !! i = Some x → left v = left x →
  heap_after segs H0 W H → heap_after (<[i:=v]> segs) H0 W H.
Proof.
  destruct W as [|w1 W]; [done|]. intros Hx Hl (sw & Hsw & ->).
  destruct (decide (i = w1)) as [->|Hne].
  - exists v. rewrite lookup_insert_eq. split; [done|].
    rewrite Hsw in Hx. injection Hx as ->. by rewrite Hl.
  - exists sw. by rewrite lookup_insert_ne.
Qed.

Lemma heap_after_snoc segs H0 W H a :
  W ≠ [] → heap_after segs H0 W H → heap_after segs H0 (W ++ [a]) H.
Proof. by destruct W. Qed.

Lemma ends_before_insert_ne edge segs y i v :
  y ≠ Some i → ends_before edge segs y →
  ends_before edge (<[i:=v]> segs) y.
Proof.
  intros Hi Hy yi ->. destruct (Hy yi eq_refl) as (sy & Hsy & Hle).
  exists sy. rewrite lookup_insert_ne; [done|]. by intros ->.
Qed.

Lemma ends_before_insert_same edge segs y i x v :
  segs !! i = Some x → right v = right x →
  ends_before edge segs y → ends_before edge (<[i:=v]> segs) y.
Proof.
  intros Hx Hr Hy yi ->. destruct (Hy yi eq_refl) as (sy & Hsy & Hle).
  destruct (decide (i = yi)) as [->|Hne].
  - exists v. rewrite lookup_insert_eq. split; [done|].
    rewrite Hsy in Hx. injection Hx as ->. by rewrite Hr.
  - exists sy. by rewrite lookup_insert_ne.
Qed.

Lemma starts_after_insert_same edge segs z i x v :
  segs !! i = Some x → left v = left x →
  starts_after edge segs z → starts_after edge (<[i:=v]> segs) z.
Proof.
  intros Hx Hl Hz zi ->. destruct (Hz zi eq_refl) as (sz & Hsz & Hle).
  destruct (decide (i = zi)) as [->|Hne].
  - exists v. rewrite lookup_insert_eq. split; [done|].
    rewrite Hsz in Hx. injection Hx as ->. by rewrite Hl.
  - exists sz. by rewrite lookup_insert_ne.
Qed.

Lemma starts_after_insert_ne edge segs z i v :
  z ≠ Some i → starts_after edge segs z →
  starts_after edge (<[i:=v]> segs) z.
Proof.
  intros Hi Hz zi ->. destruct (Hz zi eq_refl) as (sz & Hsz & Hle).
  exists sz. rewrite lookup_insert_ne; [done|]. by intros ->.
Qed.

(** The first part of the loop body, lines 119-136: the segment [w] sent
    to the output joins the removed run. *)
Lemma remove_overlap_output edge H0 s W x rest xs st2 y1 w :
  removal_inv edge H0 s W (x :: rest) →
  segments (r_st s) !! x = Some xs →
  (let out_left := py_max (left_ edge) (left xs) in
   let out_right := py_min (right_ edge) (right xs) in
   if Qltb (left xs) out_left then
     st ← update_seg (r_st s) x (with_right out_left);
     '(st, wi) ← alloc_segment st out_left out_right (node xs)
                   (population xs) (r_w s) None;
     Some (st, Some x, wi)
   else
     st ← update_seg (r_st s) x (with_prev (r_w s));
     st ← update_seg st x (with_right out_right);
     Some (st, r_y s, x)) = Some (st2, y1, w) →
  (∃ xs2, segments st2 !! x = Some xs2 ∧ next xs2 = next xs) ∧
  chain_from (segments st2) (next xs) rest ∧
  NoDup (segment_stack st2) ∧
  (∀ a, a ∈ rest → a ∉ segment_stack st2) ∧
  (x ∉ segment_stack st2) ∧ (x ∉ rest) ∧ NoDup rest ∧
  (∀ a, a ∈ W ++ [w] → (a ∉ rest) ∧ (a ∉ segment_stack st2)) ∧
  removed_run edge (segments st2) (W ++ [w]) ∧
  heap_after (segments st2) H0 W (r_H s) ∧
  is_Some (segments st2 !! w) ∧
  ends_before edge (segments st2) y1 ∧
  (∀ yi, y1 = Some yi → (yi ∉ rest) ∧ (yi ∉ segment_stack st2)).
Proof.
  intros (Hchain & Hnd & Hnds & Hdisj & HW & Hrr & Hheap & Hw & Hoh & Hohr
          & Hyend & Hy) Hxs Hrun.
  destruct Hchain as (Hx & xs' & Hxs' & Hchain).
  rewrite Hxs in Hxs'. injection Hxs' as <-.
  apply NoDup_cons in Hnd as [Hxrest Hnd].
  assert (x ∉ segment_stack (r_st s)) as Hxstack by (apply Hdisj; by left).
  assert (x ∉ W) as HxW.
  { intros Hin. destruct (HW x Hin) as [Hnot _]. apply Hnot. by left. }
  cbn zeta in Hrun.
  set (out_left := py_max (left_ edge) (left xs)) in *.
  set (out_right := py_min (right_ edge) (right xs)) in *.
  destruct (Qltb (left xs) out_left) eqn:Hol.
  - (* left overhang: [x] stays in front, a new segment is the output *)
    destruct (update_seg _ _ _) as [st1|] eqn:Hup; [|done].
    cbn [mbind option_bind] in Hrun.
    destruct (alloc_segment _ _ _ _ _ _ _) as [[st2' wi]|] eqn:Hal; [|done].
    cbn [mbind option_bind] in Hrun. injection Hrun as <- <- <-.
    apply update_seg_inv in Hup as (xs0 & Hxs0 & Hsegs1 & Hstack1 & _).
    rewrite Hxs in Hxs0. injection Hxs0 as <-.
    apply alloc_segment_inv in Hal as (Hstack2 & Hsegs2 & _).
    rewrite Hstack1 in Hstack2. rewrite Hstack2 in Hnds, Hdisj, HW, Hy, Hxstack.
    apply NoDup_cons in Hnds as [Hwi Hnds].
    apply not_elem_of_cons in Hxstack as [Hxwi Hxstack].
    assert (wi ∉ rest) as Hwirest.
    { intros Hin. apply (Hdisj wi); [by right|by left]. }
    assert (wi ∉ W) as HwiW.
    { intros Hin. destruct (HW wi Hin) as [_ Hnot]. apply Hnot. by left. }
    rewrite Hsegs2, Hsegs1.
    split_and!.
    + exists (with_right out_left xs).
      rewrite lookup_insert_ne by done. by rewrite lookup_insert_eq.
    + apply chain_from_insert_ne; [done|]. by apply chain_from_insert_ne.
    + done.
    + intros a Ha. specialize (Hdisj a (list_elem_of_further _ _ _ Ha)).
      by apply not_elem_of_cons in Hdisj as [_ ?].
    + done.
    + done.
    + done.
    + intros a [Ha|Ha%list_elem_of_singleton]%elem_of_app.
      * destruct (HW a Ha) as [Hr Hs].
        apply not_elem_of_cons in Hr as [_ Hr].
        by apply not_elem_of_cons in Hs as [_ Hs].
      * by subst a.
    + apply removed_run_snoc; [done| |by rewrite Hw| |].
      * by apply removed_run_insert_ne.
      * apply py_max_ge_l.
      * apply py_min_le_l.
    + apply heap_after_insert_ne; [done|]. by apply heap_after_insert_ne.
    + by rewrite lookup_insert_eq.
    + intros yi [= <-]. exists (with_right out_left xs).
      rewrite lookup_insert_ne by done. rewrite lookup_insert_eq.
      split; [done|]. cbn. by apply overhang_left_max.
    + by intros yi [= <-].
  - (* no left overhang: [x] itself is the output *)
    destruct (update_seg _ _ _) as [st1|] eqn:Hup; [|done].
    cbn [mbind option_bind] in Hrun.
    destruct (update_seg st1 _ _) as [st2'|] eqn:Hup2; [|done].
    cbn [mbind option_bind] in Hrun. injection Hrun as <- <- <-.
    apply update_seg_inv in Hup as (xs0 & Hxs0 & Hsegs1 & Hstack1 & _).
    rewrite Hxs in Hxs0. injection Hxs0 as <-.
    apply update_seg_inv in Hup2 as (xs1 & Hxs1 & Hsegs2 & Hstack2 & _).
    rewrite Hsegs1, lookup_insert_eq in Hxs1. injection Hxs1 as <-.
    rewrite Hsegs1, insert_insert_eq in Hsegs2.
    rewrite Hstack2, Hstack1, Hsegs2.
    split_and!.
    + eexists. by rewrite lookup_insert_eq.
    + by apply chain_from_insert_ne.
    + done.
    + intros a Ha. apply Hdisj. by right.
    + done.
    + done.
    + done.
    + intros a [Ha|Ha%list_elem_of_singleton]%elem_of_app.
      * destruct (HW a Ha) as [Hr Hs].
        by apply not_elem_of_cons in Hr as [_ Hr].
      * by subst a.
    + apply removed_run_snoc; [done|done|by rewrite Hw| |].
      * cbn. apply Qltb_false_le in Hol.
        eapply Qle_trans; [apply py_max_ge_l|exact Hol].
      * cbn. apply py_min_le_l.
    + by apply heap_after_insert_ne.
    + by rewrite lookup_insert_eq.
    + apply ends_before_insert_ne; [|done].
      intros Hy1. destruct (Hy x Hy1) as [Hnot _]. apply Hnot. by left.
    + intros yi Hyi. destruct (Hy yi Hyi) as [Hr Hs].
      by apply not_elem_of_cons in Hr as [_ Hr].
Qed.

Lemma chain_from_head segs x a rest :
  chain_from segs x (a :: rest) → x = Some a.
Proof. by intros [-> _]. Qed.

Lemma chain_from_elem segs x rest nx :
  chain_from segs x rest → x = Some nx → nx ∈ rest.
Proof.
  destruct rest as [|a rest]; simpl; [by intros -> ?|].
  intros [-> _] [= ->]. by left.
Qed.

(** One pass through the body of the loop for an overlapping segment:
    the output joins the removed run, and the invariant holds again, or,
    after [break], the final condition. *)
Lemma remove_overlap_inv edge H0 s W x rest s' b :
  removal_inv edge H0 s W (x :: rest) →
  remove_overlap edge s x = Some (s', b) →
  ∃ w, if b then removal_done edge H0 s' (W ++ [w])
       else removal_inv edge H0 s' (W ++ [w]) rest.
Proof.
  intros Hinv Hrun.
  pose proof Hinv as (Hchain & _ & _ & _ & _ & _ & Hheap & Hw & Hoh & _).
  destruct Hchain as (Hx & xs & Hxs & Hchain).
  unfold remove_overlap in Hrun. cbv zeta in Hrun.
  assert (seg (r_st s) x = Some xs) as Hxs_seg by exact Hxs.
  rewrite Hxs_seg in Hrun. cbn [mbind option_bind] in Hrun.
  match type of Hrun with
  | mbind _ ?e = _ => destruct e as [[[st2 y1] w]|] eqn:Hp1; [|done]
  end.
  cbn [mbind option_bind] in Hrun.
  apply (remove_overlap_output edge H0 s W x rest xs st2 y1 w Hinv Hxs)
    in Hp1 as ([xs2 [Hxs2 Hnext]] & Hchain2 & Hnds2 & Hdisj2 & Hxstack & Hxrest
               & Hndrest & HW2 & Hrr2 & Hheap2 & [sw Hsw] & Hyend2 & Hy2).
  exists w.
  (* the push of lines 137-139 *)
  match type of Hrun with
  | mbind _ ?e = _ => destruct e as [[H' oh']|] eqn:Hpush; [|done]
  end.
  cbn [mbind option_bind] in Hrun.
  assert (heap_after (segments st2) H0 (W ++ [w]) H' ∧ oh' = false)
    as [Hheap' ->].
  { rewrite Hoh in Hpush. case_bool_decide as HWnil.
    - subst W. assert (seg st2 w = Some sw) as Hsw_seg by exact Hsw.
      rewrite Hsw_seg in Hpush.
      cbn [mbind option_bind] in Hpush. injection Hpush as <- <-.
      split; [|done]. simpl in Hheap. rewrite Hheap. by exists sw.
    - injection Hpush as <- <-. split; [|done]. by apply heap_after_snoc. }
  assert (bool_decide (W ++ [w] = []) = false) as Hnil
    by (apply bool_decide_eq_false_2; by destruct W).
  match type of Hrun with
  | (if ?c then _ else _) = _ => destruct c eqn:Hor
  end.
  - (* right overhang: the rest goes back to the chain, then [break] *)
    assert (seg st2 x = Some xs2) as Hxs2_seg by exact Hxs2.
    rewrite Hxs2_seg in Hrun. cbn [mbind option_bind] in Hrun.
    destruct (alloc_segment _ _ _ _ _ _ _) as [[st3 z]|] eqn:Hal; [|done].
    cbn [mbind option_bind] in Hrun.
    apply alloc_segment_inv in Hal as (Hstack3 & Hsegs3 & _).
    assert (z ∈ segment_stack st2) as Hzstack by (rewrite Hstack3; by left).
    assert (z ∉ W ++ [w]) as HzW.
    { intros Hin. by destruct (HW2 z Hin) as [_ ?]. }
    assert (x ≠ z) as Hxz by (by intros ->).
    assert (y1 ≠ Some z) as Hyz.
    { intros Hy1. by destruct (Hy2 z Hy1) as [_ ?]. }
    match type of Hrun with
    | mbind _ ?e = _ => destruct e as [st4|] eqn:Hup4; [|done]
    end.
    cbn [mbind option_bind] in Hrun.
    destruct (seg st4 x) as [xs4|] eqn:Hxs4; [|done].
    cbn [mbind option_bind] in Hrun.
    match type of Hrun with
    | mbind _ ?e = _ => destruct e as [st5|] eqn:Hup5; [|done]
    end.
    cbn [mbind option_bind] in Hrun. injection Hrun as <- <-.
    unfold removal_done, residue.
    cbn [r_st r_H r_y r_z r_x output_head overhang_right].
    (* the arena after [y.next = z] *)
    assert (∃ i si v,
              segments st3 !! i = Some si ∧
              segments st4 = <[i := v]> (segments st3) ∧
              prev v = prev si ∧ left v = left si ∧ right v = right si ∧
              (i = x → next v = Some z) ∧
              (i ≠ x → segments st4 !! x = segments st3 !! x))
      as (i4 & si4 & v4 & Hi4 & Hsegs4 & Hp4 & Hl4 & Hr4 & Hn4 & Hx4).
    { destruct y1 as [yi|].
      - apply update_seg_inv in Hup4 as (sy & Hsy & Hs4 & _).
        exists yi, sy, (with_next (Some z) sy). rewrite Hs4.
        split_and!; try done. intros Hne. by rewrite lookup_insert_ne.
      - injection Hup4 as <-.
        assert (is_Some (segments st3 !! z)) as [sz Hsz]
          by (rewrite Hsegs3, lookup_insert_eq; eauto).
        exists z, sz, sz. rewrite insert_id by done. by split_and!. }
    assert (segments st3 !! x = Some xs2) as Hx3
      by (by rewrite Hsegs3, lookup_insert_ne).
    (* the segment whose [prev] is set to [z] is not in the removed run *)
    assert (∃ i si v,
              segments st4 !! i = Some si ∧
              segments st5 = <[i := v]> (segments st4) ∧
              left v = left si ∧ right v = right si ∧
              (prev v = prev si ∨ i ∉ W ++ [w]))
      as (i5 & si5 & v5 & Hi5 & Hsegs5 & Hl5 & Hr5 & Hp5).
    { destruct (next xs4) as [nx|] eqn:Hnx.
      - apply update_seg_inv in Hup5 as (snx & Hsnx & Hs5 & _).
        exists nx, snx, (with_prev (Some z) snx). rewrite Hs5.
        split_and!; try done. right.
        unfold seg in Hxs4. destruct (decide (i4 = x)) as [->|Hne].
        + rewrite Hsegs4, lookup_insert_eq in Hxs4. injection Hxs4 as <-.
          rewrite (Hn4 eq_refl) in Hnx. by injection Hnx as <-.
        + rewrite (Hx4 Hne), Hx3 in Hxs4. injection Hxs4 as <-.
          rewrite Hnext in Hnx.
          pose proof (chain_from_elem _ _ _ _ Hchain2 Hnx) as Hin.
          intros HinW. by destruct (HW2 nx HinW) as [? _].
      - injection Hup5 as <-. unfold seg in Hxs4.
        exists x, xs4, xs4. rewrite insert_id by done.
        split_and!; try done. by left. }
    rewrite Hsegs5, Hsegs4, Hsegs3.
    rewrite Hsegs4, Hsegs3 in Hi5. rewrite Hsegs3 in Hi4.
    split_and!.
    + destruct Hp5 as [Hp5|Hp5].
      * eapply removed_run_insert_same; [done|done|done|done|].
        eapply removed_run_insert_same; [done|done|done|done|].
        by apply removed_run_insert_ne.
      * apply removed_run_insert_ne; [done|].
        eapply removed_run_insert_same; [done|done|done|done|].
        by apply removed_run_insert_ne.
    + eapply heap_after_insert_same; [done|done|].
      eapply heap_after_insert_same; [done|done|].
      by apply heap_after_insert_ne.
    + done.
    + eapply ends_before_insert_same; [done|done|].
      eapply ends_before_insert_same; [done|done|].
      by apply ends_before_insert_ne.
    + eapply starts_after_insert_same; [done|done|].
      eapply starts_after_insert_same; [done|done|].
      intros zi [= <-]. eexists. rewrite lookup_insert_eq. split; [done|].
      cbn. by apply overhang_right_min.
    + by intros zi [= <-].
  - (* no right overhang: on to the next segment *)
    assert (seg st2 x = Some xs2) as Hxs2_seg by exact Hxs2.
    rewrite Hxs2_seg in Hrun.
    cbn [mbind option_bind] in Hrun. injection Hrun as <- <-.
    unfold removal_inv.
    cbn [r_st r_H r_y r_z r_x r_w output_head overhang_right].
    rewrite Hnext. split_and!; try done. by rewrite last_snoc.
Qed.

Lemma chain_from_None segs rest : chain_from segs None rest → rest = [].
Proof. destruct rest; [done|]. by intros [? _]. Qed.

Lemma chain_from_Some segs x rest :
  chain_from segs (Some x) rest →
  ∃ rest' xs, rest = x :: rest' ∧ segs !! x = Some xs ∧
              chain_from segs (next xs) rest'.
Proof.
  destruct rest as [|a rest']; [done|].
  intros ([= ->] & xs & Hxs & Hc). by exists rest', xs.
Qed.

(** The loop of [remove_ancestry] over a well-formed chain ends in the
    final condition. *)
Lemma remove_loop_inv edge H0 fuel : ∀ s W rest s',
  removal_inv edge H0 s W rest →
  remove_loop fuel edge s = Some s' →
  ∃ W', removal_done edge H0 s' W'.
Proof.
  assert (∀ s W rest, removal_inv edge H0 s W rest →
            (∀ x xs, r_x s = Some x → segments (r_st s) !! x = Some xs →
                     Qltb (left xs) (right_ edge) = false) →
            removal_done edge H0 s W) as Hstop.
  { intros s W rest (Hchain & Hnd & Hnds & Hdisj & HW & Hrr & Hheap & Hw
                     & Hoh & Hohr & Hyend & Hy) Hexit.
    unfold removal_done, residue. rewrite Hohr. split_and!; try done.
    - intros zi Hzi. rewrite Hzi in Hchain.
      apply chain_from_Some in Hchain as (rest' & xs & -> & Hxs & _).
      exists xs. split; [done|]. apply Qltb_false_le. by eapply Hexit.
    - intros zi Hzi HzW. rewrite Hzi in Hchain.
      apply chain_from_Some in Hchain as (rest' & xs & -> & _).
      destruct (HW zi HzW) as [Hnot _]. apply Hnot. by left. }
  induction fuel as [|fuel IH]; intros s W rest s' Hinv Hrun.
  - simpl in Hrun. destruct (r_x s) as [x|] eqn:Hx.
    + destruct (seg (r_st s) x) as [xs|] eqn:Hxs; [|done].
      cbn [mbind option_bind] in Hrun.
      destruct (Qltb (left xs) (right_ edge)) eqn:Hlt; [done|].
      injection Hrun as <-. exists W. eapply Hstop; [done|].
      intros x' xs' Hx' Hxs'. rewrite Hx in Hx'. injection Hx' as <-.
      unfold seg in Hxs. rewrite Hxs in Hxs'. by injection Hxs' as <-.
    + injection Hrun as <-. exists W. eapply Hstop; [done|].
      intros x' xs' Hx'. by rewrite Hx in Hx'.
  - simpl in Hrun. destruct (r_x s) as [x|] eqn:Hx.
    + destruct (seg (r_st s) x) as [xs|] eqn:Hxs; [|done].
      cbn [mbind option_bind] in Hrun. unfold seg in Hxs.
      destruct (Qltb (left xs) (right_ edge)) eqn:Hlt.
      * pose proof Hinv as (Hchain & Hnd & Hnds & Hdisj & HW & Hrr & Hheap
                            & Hw & Hoh & Hohr & Hyend & Hy).
        rewrite Hx in Hchain.
        apply chain_from_Some in Hchain as (rest' & xs' & -> & Hxs' & Hchain).
        rewrite Hxs in Hxs'. injection Hxs' as <-.
        destruct (Qle_bool (left_ edge) (right xs)
                  && Qle_bool (left xs) (right_ edge)) eqn:Hov.
        -- destruct (remove_overlap edge s x) as [[s1 b]|] eqn:Hstep; [|done].
           assert (removal_inv edge H0 s W (x :: rest')) as Hinv' by done.
           destruct (remove_overlap_inv _ _ _ _ _ _ _ _ Hinv' Hstep)
             as [w Hres].
           destruct b.
           ++ injection Hrun as <-. by exists (W ++ [w]).
           ++ by eapply IH.
        -- eapply (IH _ W rest'); [|exact Hrun].
           apply NoDup_cons in Hnd as [Hxrest Hnd].
           unfold removal_inv.
           cbn [r_st r_H r_y r_z r_x r_w output_head overhang_right].
           split_and!; try done.
           ++ intros a Ha. apply Hdisj. by right.
           ++ intros a Ha. destruct (HW a Ha) as [Hr Hs]. split; [|done].
              by apply not_elem_of_cons in Hr as [_ Hr].
           ++ intros yi [= <-]. exists xs. split; [done|].
              apply andb_false_iff in Hov as [Hov|Hov].
              ** apply Qlt_le_weak, Qltb_lt. unfold Qltb. by rewrite Hov.
              ** apply Qltb_lt, Qlt_le_weak in Hlt.
                 apply Qle_bool_iff in Hlt. by rewrite Hlt in Hov.
           ++ intros yi [= <-]. split; [done|]. apply Hdisj. by left.
      * injection Hrun as <-. exists W. eapply Hstop; [done|].
        intros x' xs' Hx' Hxs'. rewrite Hx in Hx'. injection Hx' as <-.
        rewrite Hxs in Hxs'. by injection Hxs' as <-.
    + injection Hrun as <-. exists W. eapply Hstop; [done|].
      intros x' xs' Hx'. by rewrite Hx in Hx'.
Qed.

(** [remove_ancestry] leaves the ancestor index map alone until the
    wrap-up. *)
Lemma remove_overlap_A edge s x s' b :
  remove_overlap edge s x = Some (s', b) → A (r_st s') = A (r_st s).
Proof.
  unfold remove_overlap. intros Hrun. split_runs;
    repeat match goal with
      | E : update_seg _ _ _ = Some _ |- _ =>
          apply update_seg_inv in E as (? & _ & _ & _ & ?)
      | E : alloc_segment _ _ _ _ _ _ _ = Some _ |- _ =>
          apply alloc_segment_inv in E as (_ & _ & ?)
      end; simplify_eq/=; congruence.
Qed.

Lemma remove_loop_A fuel edge : ∀ s s',
  remove_loop fuel edge s = Some s' → A (r_st s') = A (r_st s).
Proof.
  induction fuel as [|fuel IH]; intros s s' Hrun; simpl in Hrun; split_runs;
    try (by simplify_eq/=);
    repeat match goal with
      | E : remove_overlap _ _ _ = Some _ |- _ => apply remove_overlap_A in E
      | E : remove_loop _ _ _ = Some _ |- _ => apply IH in E
      end; simplify_eq/=; congruence.
Qed.

(** As long as nothing has been sent to the output the loop changes
    neither the arena nor the heap. *)
Lemma remove_overlap_flag edge s x s' b :
  remove_overlap edge s x = Some (s', b) → output_head s' = false.
Proof.
  unfold remove_overlap. intros Hrun. split_runs; by simplify_eq/=.
Qed.

Lemma remove_loop_flag fuel edge : ∀ s s',
  remove_loop fuel edge s = Some s' → output_head s = false →
  output_head s' = false.
Proof.
  induction fuel as [|fuel IH]; intros s s' Hrun Hflag; simpl in Hrun.
  - split_runs; by simplify_eq/=.
  - destruct (r_x s) as [x|]; [|by simplify_eq/=].
    destruct (seg (r_st s) x) as [xs|]; [|done].
    cbn [mbind option_bind] in Hrun.
    destruct (Qltb (left xs) (right_ edge)); [|by simplify_eq/=].
    destruct (Qle_bool (left_ edge) (right xs)
              && Qle_bool (left xs) (right_ edge)).
    + destruct (remove_overlap edge s x) as [[s1 b]|] eqn:Hstep; [|done].
      apply remove_overlap_flag in Hstep.
      destruct b; [by simplify_eq/=|]. by eapply IH.
    + by apply IH in Hrun.
Qed.

Lemma remove_loop_idle fuel edge : ∀ s s',
  remove_loop fuel edge s = Some s' → output_head s' = true →
  r_st s' = r_st s ∧ r_H s' = r_H s.
Proof.
  induction fuel as [|fuel IH]; intros s s' Hrun Hflag; simpl in Hrun.
  - split_runs; by simplify_eq/=.
  - destruct (r_x s) as [x|]; [|by simplify_eq/=].
    destruct (seg (r_st s) x) as [xs|]; [|done].
    cbn [mbind option_bind] in Hrun.
    destruct (Qltb (left xs) (right_ edge)); [|by simplify_eq/=].
    destruct (Qle_bool (left_ edge) (right xs)
              && Qle_bool (left xs) (right_ edge)).
    + destruct (remove_overlap edge s x) as [[s1 b]|] eqn:Hstep; [|done].
      apply remove_overlap_flag in Hstep.
      destruct b; [simplify_eq/=; congruence|].
      apply remove_loop_flag in Hrun; [congruence|done].
    + by apply IH in Hrun.
Qed.

(** The wrap-up, lines 154-167. *)
Lemma remove_wrap_up_done edge H0 s W child st' :
  removal_done edge H0 s W → W ≠ [] →
  remove_wrap_up child s = Some st' →
  removed_run edge (segments st') W ∧
  heap_after (segments st') H0 W (r_H s) ∧
  ends_before edge (segments st') (r_y s) ∧
  starts_after edge (segments st') (residue s) ∧
  stitched (segments st') (r_y s) (residue s) ∧
  A st' = A_after child (A (r_st s)) (r_y s) (residue s).
Proof.
  intros (Hrr & Hheap & Hoh & Hyend & Hzstart & HzW) HW Hrun.
  unfold remove_wrap_up in Hrun. rewrite Hoh in Hrun.
  rewrite bool_decide_eq_false_2 in Hrun by done.
  cbn [negb] in Hrun. cbv zeta in Hrun.
  assert ((if negb (overhang_right s) then r_x s else r_z s) = residue s)
    as Hz by (unfold residue; by destruct (overhang_right s)).
  rewrite Hz in Hrun. clear Hz.
  destruct (r_y s) as [yi|] eqn:Hy.
  - destruct (update_seg (r_st s) yi _) as [st1|] eqn:Hup1; [|done].
    cbn [mbind option_bind] in Hrun.
    apply update_seg_inv in Hup1 as (sy & Hsy & Hsegs1 & _ & HA1).
    destruct (residue s) as [zi|] eqn:Hz.
    + destruct (update_seg st1 zi _) as [st2|] eqn:Hup2; [|done].
      cbn [mbind option_bind] in Hrun. injection Hrun as <-.
      apply update_seg_inv in Hup2 as (sz & Hsz & Hsegs2 & _ & HA2).
      rewrite Hsegs2, Hsegs1. rewrite Hsegs1 in Hsz.
      split_and!.
      * apply removed_run_insert_ne; [by apply HzW|].
        by eapply removed_run_insert_same.
      * apply heap_after_insert_ne; [by apply HzW|].
        by eapply heap_after_insert_same.
      * eapply ends_before_insert_same; [done|done|].
        by eapply ends_before_insert_same.
      * eapply starts_after_insert_same; [done|done|].
        by eapply starts_after_insert_same.
      * split.
        -- intros ? [= <-]. destruct (decide (zi = yi)) as [->|Hne].
           ++ rewrite lookup_insert_eq in Hsz. injection Hsz as <-.
              eexists. by rewrite lookup_insert_eq.
           ++ eexists. rewrite lookup_insert_ne by done.
              by rewrite lookup_insert_eq.
        -- intros ? [= <-]. eexists. by rewrite lookup_insert_eq.
      * simpl. congruence.
    + cbn [mbind option_bind] in Hrun. injection Hrun as <-.
      rewrite Hsegs1. split_and!.
      * by eapply removed_run_insert_same.
      * by eapply heap_after_insert_same.
      * by eapply ends_before_insert_same.
      * by intros zi ?.
      * split; [|by intros zi ?].
        intros ? [= <-]. eexists. by rewrite lookup_insert_eq.
      * done.
  - cbn [mbind option_bind] in Hrun.
    destruct (residue s) as [zi|] eqn:Hz.
    + destruct (update_seg (r_st s) zi _) as [st2|] eqn:Hup2; [|done].
      cbn [mbind option_bind] in Hrun. injection Hrun as <-.
      apply update_seg_inv in Hup2 as (sz & Hsz & Hsegs2 & _ & HA2).
      cbn [segments A set_A]. rewrite Hsegs2.
      split_and!.
      * apply removed_run_insert_ne; [by apply HzW|done].
      * apply heap_after_insert_ne; [by apply HzW|done].
      * by intros yi ?.
      * by eapply starts_after_insert_same.
      * split; [by intros yi ?|].
        intros ? [= <-]. eexists. by rewrite lookup_insert_eq.
      * simpl. by rewrite HA2.
    + cbn [mbind option_bind] in Hrun. injection Hrun as <-.
      cbn [segments A set_A]. split_and!; done.
Qed.

(** ** [remove_ancestry] sends one heap entry per child *)



(** ** [remove_ancestry] works on the arena and on [A] only *)

Lemma arena_step_refl st : arena_step st st.
Proof.
  split_and!; [|done|done].
  exists (segment_stack st), (segments st), (A st). by destruct st.
Qed.

Lemma arena_step_trans st1 st2 st3 :
  arena_step st1 st2 → arena_step st2 st3 → arena_step st1 st3.
Proof.
  intros ((s1 & g1 & a1 & ->) & Hsuf1 & Hdom1)
         ((s2 & g2 & a2 & ->) & Hsuf2 & Hdom2).
  split_and!.
  - by exists s2, g2, a2.
  - by etrans.
  - intros u Hu. by apply Hdom2, Hdom1.
Qed.

Lemma update_seg_arena st i f st' :
  update_seg st i f = Some st' → arena_step st st' ∧ A st' = A st.
Proof.
  unfold update_seg. intros Hrun.
  destruct (seg st i) as [x|]; [|done]. injection Hrun as <-.
  split; [|done]. split_and!; [|by cbn|by cbn].
  exists (segment_stack st), (<[i:=f x]> (segments st)), (A st).
  by destruct st.
Qed.

Lemma alloc_segment_arena st l r u pop pv nx st' a :
  alloc_segment st l r u pop pv nx = Some (st', a) →
  arena_step st st' ∧ A st' = A st ∧ a ∈ segment_stack st.
Proof.
  unfold alloc_segment. intros Hrun.
  destruct (segment_stack st) as [|i stack] eqn:Hstack; [done|].
  injection Hrun as <- <-. split_and!; [|done|by left].
  split_and!; [| |done].
  - exists stack, (<[i:=mkSeg l r u pop pv nx]> (segments st)), (A st).
    by destruct st.
  - cbn. rewrite Hstack. by apply suffix_cons_r.
Qed.

Lemma update_seg_opt_arena st (y : option nat) f st' :
  match y with Some yi => update_seg st yi f | None => Some st end
  = Some st' →
  arena_step st st' ∧ A st' = A st.
Proof.
  destruct y as [yi|]; [apply update_seg_arena|].
  intros [= <-]. split; [apply arena_step_refl|done].
Qed.

Lemma remove_overlap_arena edge s x s' b :
  remove_overlap edge s x = Some (s', b) →
  arena_step (r_st s) (r_st s') ∧
  (b = true → overhang_right s' = true ∧
              ∃ z, r_z s' = Some z ∧ z ∈ segment_stack (r_st s)).
Proof.
  unfold remove_overlap. intros Hrun. cbv zeta in Hrun.
  destruct (seg (r_st s) x) as [xs|]; [|done].
  cbn [mbind option_bind] in Hrun.
  match type of Hrun with
  | mbind _ ?e = _ => destruct e as [[[st2 y1] w]|] eqn:Hp1; [|done]
  end.
  cbn [mbind option_bind] in Hrun.
  assert (arena_step (r_st s) st2) as Hstep1.
  { destruct (Qltb (left xs) _).
    - destruct (update_seg _ _ _) as [st1|] eqn:Hup; [|done].
      cbn [mbind option_bind] in Hp1.
      destruct (alloc_segment _ _ _ _ _ _ _) as [[st2' wi]|] eqn:Hal; [|done].
      cbn [mbind option_bind] in Hp1. injection Hp1 as <- <- <-.
      apply update_seg_arena in Hup as [? _].
      apply alloc_segment_arena in Hal as (? & _).
      by eapply arena_step_trans.
    - destruct (update_seg _ _ _) as [st1|] eqn:Hup; [|done].
      cbn [mbind option_bind] in Hp1.
      destruct (update_seg st1 _ _) as [st2'|] eqn:Hup2; [|done].
      cbn [mbind option_bind] in Hp1. injection Hp1 as <- <- <-.
      apply update_seg_arena in Hup as [? _].
      apply update_seg_arena in Hup2 as [? _].
      by eapply arena_step_trans. }
  match type of Hrun with
  | mbind _ ?e = _ => destruct e as [[H' oh']|] eqn:Hpush; [|done]
  end.
  cbn [mbind option_bind] in Hrun.
  match type of Hrun with
  | (if ?c then _ else _) = _ => destruct c
  end.
  - destruct (seg st2 x) as [xs2|]; [|done].
    cbn [mbind option_bind] in Hrun.
    destruct (alloc_segment _ _ _ _ _ _ _) as [[st3 z]|] eqn:Hal; [|done].
    cbn [mbind option_bind] in Hrun.
    apply alloc_segment_arena in Hal as (Hstep3 & _ & Hz).
    match type of Hrun with
    | mbind _ ?e = _ => destruct e as [st4|] eqn:Hup4; [|done]
    end.
    cbn [mbind option_bind] in Hrun.
    apply update_seg_opt_arena in Hup4 as [Hstep4 _].
    destruct (seg st4 x) as [xs4|]; [|done].
    cbn [mbind option_bind] in Hrun.
    match type of Hrun with
    | mbind _ ?e = _ => destruct e as [st5|] eqn:Hup5; [|done]
    end.
    cbn [mbind option_bind] in Hrun.
    apply update_seg_opt_arena in Hup5 as [Hstep5 _].
    injection Hrun as <- <-. cbn [r_st r_z overhang_right]. split.
    + eapply arena_step_trans; [done|].
      eapply arena_step_trans; [done|].
      by eapply arena_step_trans.
    + intros _. split; [done|]. exists z. split; [done|].
      destruct Hstep1 as (_ & Hsuf & _).
      by eapply elem_of_suffix.
  - destruct (seg st2 x) as [xs2|]; [|done].
    cbn [mbind option_bind] in Hrun. by injection Hrun as <- <-.
Qed.

Lemma remove_loop_arena fuel edge : ∀ s s',
  remove_loop fuel edge s = Some s' → arena_step (r_st s) (r_st s').
Proof.
  induction fuel as [|fuel IH]; intros s s' Hrun; simpl in Hrun.
  - split_runs; simplify_eq/=; apply arena_step_refl.
  - destruct (r_x s) as [x|]; [|simplify_eq/=; apply arena_step_refl].
    destruct (seg (r_st s) x) as [xs|]; [|done].
    cbn [mbind option_bind] in Hrun.
    destruct (Qltb (left xs) (right_ edge));
      [|simplify_eq/=; apply arena_step_refl].
    destruct (Qle_bool (left_ edge) (right xs)
              && Qle_bool (left xs) (right_ edge)).
    + destruct (remove_overlap edge s x) as [[s1 b]|] eqn:Hstep; [|done].
      apply remove_overlap_arena in Hstep as [Hstep _].
      destruct b; [by simplify_eq/=|].
      eapply arena_step_trans; [done|]. by apply IH.
    + by apply IH in Hrun.
Qed.

Lemma remove_wrap_up_arena child s st' :
  is_Some (A (r_st s) !! child) →
  remove_wrap_up child s = Some st' →
  arena_step (r_st s) st' ∧
  (∀ u, u ≠ child → A st' !! u = A (r_st s) !! u).
Proof.
  intros Hchild Hrun. unfold remove_wrap_up in Hrun. cbv zeta in Hrun.
  destruct (negb (output_head s));
    [|injection Hrun as <-; split; [apply arena_step_refl|done]].
  match type of Hrun with
  | mbind _ ?e = _ => destruct e as [st1|] eqn:Hup1; [|done]
  end.
  cbn [mbind option_bind] in Hrun.
  apply update_seg_opt_arena in Hup1 as [Hstep1 HA1].
  match type of Hrun with
  | mbind _ ?e = _ => destruct e as [st2|] eqn:Hup2; [|done]
  end.
  cbn [mbind option_bind] in Hrun.
  assert (arena_step st1 st2 ∧ A st2 = A st1) as [Hstep2 HA2].
  { destruct (if negb (overhang_right s) then r_x s else r_z s);
      [by apply update_seg_arena in Hup2|].
    injection Hup2 as <-. split; [apply arena_step_refl|done]. }
  assert (arena_step (r_st s) st2) as Hstep by (by eapply arena_step_trans).
  assert (A st2 = A (r_st s)) as HA by congruence.
  assert (∀ a, arena_step st2 (set_A st2 a)
               ↔ ∀ u, A st2 !! u = None → a !! u = None) as Hset.
  { intros a. split; [by intros (_ & _ & ?)|]. intros Hdom.
    split_and!; [|done|done].
    exists (segment_stack st2), (segments st2), a. by destruct st2. }
  destruct (r_y s).
  - injection Hrun as <-. split; [done|]. intros u _. by rewrite HA.
  - destruct (if negb (overhang_right s) then r_x s else r_z s) as [zi|];
      injection Hrun as <-.
    + split.
      * eapply arena_step_trans; [done|]. apply Hset. intros u Hu.
        rewrite lookup_insert_ne; [done|]. intros <-.
        rewrite HA in Hu. rewrite Hu in Hchild. by destruct Hchild.
      * intros u Hu. cbn [A set_A]. by rewrite lookup_insert_ne, HA.
    + split.
      * eapply arena_step_trans; [done|]. apply Hset. intros u Hu.
        destruct (decide (child = u)) as [->|Hne].
        -- by rewrite lookup_delete_eq.
        -- by rewrite lookup_delete_ne.
      * intros u Hu. cbn [A set_A]. by rewrite lookup_delete_ne, HA.
Qed.

Lemma remove_child_arena fuel edge st H child st' H' :
  remove_child fuel edge st H child = Some (st', H') →
  arena_step st st' ∧ (∀ u, u ≠ child → A st' !! u = A st !! u).
Proof.
  unfold remove_child. intros Hrun.
  destruct (A st !! child) as [a|] eqn:HA;
    [|injection Hrun as <- <-; split; [apply arena_step_refl|done]].
  destruct (remove_loop _ _ _) as [s|] eqn:Hloop; [|done].
  cbn [mbind option_bind] in Hrun.
  destruct (remove_wrap_up child s) as [st1|] eqn:Hwrap; [|done].
  cbn [mbind option_bind] in Hrun. injection Hrun as <- <-.
  pose proof (remove_loop_A _ _ _ _ Hloop) as HAs.
  apply remove_loop_arena in Hloop. cbn [r_st] in Hloop, HAs.
  apply remove_wrap_up_arena in Hwrap as [Hstep Hother];
    [|by rewrite HAs, HA].
  split; [by eapply arena_step_trans|].
  intros u Hu. by rewrite Hother, HAs.
Qed.

Lemma remove_children_arena fuel edge : ∀ children st H st' H',
  remove_children fuel edge st H children = Some (st', H') →
  arena_step st st' ∧ (∀ u, u ∉ children → A st' !! u = A st !! u).
Proof.
  induction children as [|child children IH]; intros st H st' H' Hrun;
    simpl in Hrun.
  - injection Hrun as <- <-. split; [apply arena_step_refl|done].
  - destruct (remove_child fuel edge st H child) as [[st1 H1]|] eqn:Hchild;
      [|done].
    cbn [mbind option_bind] in Hrun.
    apply remove_child_arena in Hchild as [Hstep1 Hother1].
    apply IH in Hrun as [Hstep Hother].
    split; [by eapply arena_step_trans|].
    intros u [Hu Hin]%not_elem_of_cons. rewrite Hother by done.
    by apply Hother1.
Qed.

(** X2: a call of [remove_ancestry] changes the arena and the ancestor
    index map only: the node counter, the log of records, the breakpoint
    map, the clock and the registered ancestors stay as they are.  The
    free list only loses slots, the map gains no key, and the entries of
    the nodes that are not children of the edge are untouched. *)
Theorem remove_ancestry_arena_only fuel st edge st' H :
  remove_ancestry fuel st edge = Some (st', H) →
  arena_step st st' ∧
  (∀ u, u ∉ children_ edge → A st' !! u = A st !! u).
Proof.
  unfold remove_ancestry. intros Hrun.
  destruct (remove_parent edge st []) as [H1|]; [|done].
  cbn [mbind option_bind] in Hrun.
  by apply remove_children_arena in Hrun.
Qed.

Lemma remove_ancestry_arena_only_witness :
  ∃ st st' H,
    Simplifier_init three_samples [0; 1; 2]%nat 6 = Some st ∧
    remove_ancestry 10 st (mkEdgeset 0 10 3 [0; 1]%nat) = Some (st', H) ∧
    arena_step st st' ∧
    (∀ u, u ∉ [0; 1]%nat → A st' !! u = A st !! u).
Proof.
  eexists _, _, _. split; [vm_compute; reflexivity|].
  match goal with
  | |- ?run = _ ∧ _ =>
      assert (run = Some (_, _)) as Hrun by (vm_compute; reflexivity)
  end.
  split; [exact Hrun|].
  exact (remove_ancestry_arena_only _ _ _ _ _ Hrun).
Defined.

(** ** [remove_ancestry]: the size of the heap *)

Lemma length_heappush H e : length (heappush H e) = S (length H).
Proof.
  induction H as [|e' H IH]; [done|]. simpl.
  destruct (Qltb e.1 e'.1); simpl; by rewrite ?IH.
Qed.

Lemma remove_overlap_heap edge s x s' b :
  remove_overlap edge s x = Some (s', b) →
  length (r_H s')
  = (length (r_H s) + if output_head s then 1 else 0)%nat.
Proof.
  unfold remove_overlap. intros Hrun. cbv zeta in Hrun.
  destruct (seg (r_st s) x) as [xs|]; [|done].
  cbn [mbind option_bind] in Hrun.
  match type of Hrun with
  | mbind _ ?e = _ => destruct e as [[[st2 y1] w]|]; [|done]
  end.
  cbn [mbind option_bind] in Hrun.
  match type of Hrun with
  | mbind _ ?e = _ => destruct e as [[H' oh']|] eqn:Hpush; [|done]
  end.
  cbn [mbind option_bind] in Hrun.
  assert (length H'
          = (length (r_H s) + if output_head s then 1 else 0)%nat) as Hlen.
  { destruct (output_head s).
    - destruct (seg st2 w) as [ws|]; [|done].
      cbn [mbind option_bind] in Hpush. injection Hpush as <- <-.
      rewrite length_heappush. lia.
    - injection Hpush as <- <-. lia. }
  split_runs; by simplify_eq/=.
Qed.

Lemma remove_loop_heap fuel edge : ∀ s s',
  remove_loop fuel edge s = Some s' →
  (length (r_H s') ≤ length (r_H s) + if output_head s then 1 else 0)%nat.
Proof.
  induction fuel as [|fuel IH]; intros s s' Hrun; simpl in Hrun.
  - split_runs; simplify_eq/=; lia.
  - destruct (r_x s) as [x|]; [|simplify_eq/=; lia].
    destruct (seg (r_st s) x) as [xs|]; [|done].
    cbn [mbind option_bind] in Hrun.
    destruct (Qltb (left xs) (right_ edge)); [|simplify_eq/=; lia].
    destruct (Qle_bool (left_ edge) (right xs)
              && Qle_bool (left xs) (right_ edge)).
    + destruct (remove_overlap edge s x) as [[s1 b]|] eqn:Hstep; [|done].
      pose proof (remove_overlap_flag _ _ _ _ _ Hstep) as Hflag.
      apply remove_overlap_heap in Hstep.
      destruct b; [simplify_eq/=; lia|].
      apply IH in Hrun. rewrite Hflag in Hrun. lia.
    + by apply IH in Hrun.
Qed.

Lemma remove_child_heap fuel edge st H child st' H' :
  remove_child fuel edge st H child = Some (st', H') →
  (length H' ≤ length H + match A st !! child with Some _ => 1 | None => 0 end)%nat.
Proof.
  unfold remove_child. intros Hrun.
  destruct (A st !! child) as [a|]; [|simplify_eq/=; lia].
  destruct (remove_loop _ _ _) as [s|] eqn:Hloop; [|done].
  cbn [mbind option_bind] in Hrun.
  destruct (remove_wrap_up child s) as [st1|]; [|done].
  cbn [mbind option_bind] in Hrun. injection Hrun as <- <-.
  by apply remove_loop_heap in Hloop.
Qed.

Lemma length_carrying_mono st st' children :
  (∀ u, A st !! u = None → A st' !! u = None) →
  (length (carrying st' children) ≤ length (carrying st children))%nat.
Proof.
  intros Hdom. unfold carrying.
  induction children as [|c children IH]; [done|].
  rewrite !filter_cons.
  destruct (decide (is_Some (A st' !! c))) as [Hc'|Hc'].
  - destruct (decide (is_Some (A st !! c))) as [Hc|Hc]; [simpl; lia|].
    apply eq_None_not_Some, Hdom in Hc. rewrite Hc in Hc'.
    by destruct Hc'.
  - destruct (decide (is_Some (A st !! c))); simpl; lia.
Qed.

Lemma carrying_cons st c cs :
  carrying st (c :: cs)
  = if decide (is_Some (A st !! c)) then c :: carrying st cs
    else carrying st cs.
Proof. unfold carrying. by rewrite filter_cons. Qed.

Lemma remove_children_heap fuel edge : ∀ children st H st' H',
  remove_children fuel edge st H children = Some (st', H') →
  (length H' ≤ length H + length (carrying st children))%nat.
Proof.
  induction children as [|child children IH]; intros st H st' H' Hrun;
    simpl in Hrun.
  - injection Hrun as <- <-. simpl. lia.
  - destruct (remove_child fuel edge st H child) as [[st1 H1]|] eqn:Hchild;
      [|done].
    cbn [mbind option_bind] in Hrun.
    pose proof (remove_child_arena _ _ _ _ _ _ _ Hchild)
      as [(_ & _ & Hdom) _].
    apply remove_child_heap in Hchild. apply IH in Hrun.
    pose proof (length_carrying_mono st st1 children Hdom) as Hmono.
    rewrite carrying_cons.
    destruct (decide (is_Some (A st !! child))) as [[a Ha]|Hnone].
    + rewrite Ha in Hchild. simpl. lia.
    + apply eq_None_not_Some in Hnone. rewrite Hnone in Hchild. lia.
Qed.

(** X3: the heap [remove_ancestry] returns holds at most one entry for
    the parent of the edge, if it has an entry in the ancestor index
    map, and one for each child of the edge that has. *)
Theorem remove_ancestry_heap_bound fuel st edge st' H :
  remove_ancestry fuel st edge = Some (st', H) →
  (length H ≤ match A st !! parent_ edge with Some _ => 1 | None => 0 end
              + length (carrying st (children_ edge)))%nat.
Proof.
  unfold remove_ancestry, remove_parent. intros Hrun.
  destruct (A st !! parent_ edge) as [i|].
  - destruct (get_ancestor st (parent_ edge)) as [w|]; [|done].
    cbn [mbind option_bind] in Hrun.
    destruct (seg st w) as [ws|]; [|done].
    cbn [mbind option_bind] in Hrun.
    apply remove_children_heap in Hrun. simpl in Hrun. lia.
  - cbn [mbind option_bind] in Hrun.
    apply remove_children_heap in Hrun. simpl in Hrun. lia.
Qed.

Lemma remove_ancestry_heap_bound_witness :
  ∃ st st' H,
    Simplifier_init three_samples [0; 2]%nat 6 = Some st ∧
    remove_ancestry 10 st (mkEdgeset 0 10 3 [0; 1]%nat) = Some (st', H) ∧
    (length H ≤ match A st !! 3%nat with Some _ => 1 | None => 0 end
                + length (carrying st [0; 1]%nat))%nat.
Proof.
  eexists _, _, _. split; [vm_compute; reflexivity|].
  match goal with
  | |- ?run = _ ∧ _ =>
      assert (run = Some (_, _)) as Hrun by (vm_compute; reflexivity)
  end.
  split; [exact Hrun|].
  exact (remove_ancestry_heap_bound _ _ _ _ _ Hrun).
Defined.

(** ** Entries of [A] that are not registered with the population *)

Lemma from_index_None st i : i ∉ P st → from_index st i = None.
Proof.
  intros Hi. unfold from_index.
  destruct (list_find _ _) as [[j x]|] eqn:Hfind; [|done].
  apply list_find_Some in Hfind as (Hj & -> & _).
  destruct Hi. by eapply list_elem_of_lookup_2.
Qed.

Lemma from_index_Some st i : i ∈ P st → from_index st i = Some i.
Proof.
  intros Hi. unfold from_index.
  destruct (list_find _ _) as [[j x]|] eqn:Hfind.
  - by apply list_find_Some in Hfind as (_ & -> & _).
  - apply list_find_None in Hfind. rewrite Forall_forall in Hfind.
    by destruct (Hfind i Hi).
Qed.

(** X4: when the entry of the edge's parent in the ancestor index map
    points to a segment that is not registered with the population,
    [get_ancestor] has nothing to return and [remove_ancestry] raises on
    [w.left]. *)
Theorem remove_ancestry_unregistered_parent fuel st edge i :
  A st !! parent_ edge = Some i → i ∉ P st →
  remove_ancestry fuel st edge = None.
Proof.
  intros HA Hi. unfold remove_ancestry, remove_parent, get_ancestor.
  rewrite HA. by rewrite from_index_None.
Qed.

(** X5: a child whose entry in the ancestor index map points to a segment
    that is not registered with the population is passed over: the arena,
    the map and the heap stay as they are. *)
Theorem remove_child_unregistered fuel edge st H child i :
  A st !! child = Some i → i ∉ P st →
  remove_child fuel edge st H child = Some (st, H).
Proof.
  intros HA Hi. unfold remove_child, get_ancestor.
  rewrite HA, from_index_None by done. by destruct fuel.
Qed.

Lemma remove_ancestry_unregistered_parent_witness :
  ∃ st st1 H1,
    Simplifier_init three_samples [0; 1; 2]%nat 6 = Some st ∧
    remove_ancestry 10 st (mkEdgeset 0 6 3 [0; 1]%nat) = Some (st1, H1) ∧
    remove_ancestry 10 st1 (mkEdgeset 6 10 0 [2%nat]) = None.
Proof.
  eexists _, _, _. split; [vm_compute; reflexivity|].
  split; [vm_compute; reflexivity|].
  apply (remove_ancestry_unregistered_parent 10 _ _ 3%nat).
  - vm_compute; reflexivity.
  - vm_compute. intros Hin.
    repeat (apply elem_of_cons in Hin as [Hin|Hin]; [lia|]).
    by apply elem_of_nil in Hin.
Defined.

Lemma remove_child_unregistered_witness :
  ∃ st st1 H1,
    Simplifier_init three_samples [0; 1; 2]%nat 6 = Some st ∧
    remove_ancestry 10 st (mkEdgeset 0 6 3 [0; 1]%nat) = Some (st1, H1) ∧
    remove_child 10 (mkEdgeset 6 10 4 [0; 2]%nat) st1 [] 0 = Some (st1, []).
Proof.
  eexists _, _, _. split; [vm_compute; reflexivity|].
  split; [vm_compute; reflexivity|].
  apply (remove_child_unregistered 10 _ _ _ _ 3%nat).
  - vm_compute; reflexivity.
  - vm_compute. intros Hin.
    repeat (apply elem_of_cons in Hin as [Hin|Hin]; [lia|]).
    by apply elem_of_nil in Hin.
Defined.

(** ** The piece [A] is moved to is not registered *)

(** The piece the wrap-up takes for [z] comes from the chain or from the
    free list. *)
Lemma remove_loop_residue edge H0 fuel : ∀ s W rest s',
  removal_inv edge H0 s W rest →
  remove_loop fuel edge s = Some s' →
  ∀ zi, residue s' = Some zi →
        zi ∈ rest ∨ zi ∈ segment_stack (r_st s).
Proof.
  assert (∀ s W rest, removal_inv edge H0 s W rest →
            ∀ zi, residue s = Some zi → zi ∈ rest) as Hstop.
  { intros s W rest (Hchain & _ & _ & _ & _ & _ & _ & _ & _ & Hohr & _)
           zi Hzi.
    unfold residue in Hzi. rewrite Hohr in Hzi. rewrite Hzi in Hchain.
    apply chain_from_Some in Hchain as (rest' & xs & -> & _). by left. }
  induction fuel as [|fuel IH]; intros s W rest s' Hinv Hrun zi Hzi.
  - left. simpl in Hrun. destruct (r_x s) as [x|] eqn:Hx.
    + destruct (seg (r_st s) x) as [xs|]; [|done].
      cbn [mbind option_bind] in Hrun.
      destruct (Qltb (left xs) (right_ edge)); [done|].
      injection Hrun as <-. by eapply Hstop.
    + injection Hrun as <-. by eapply Hstop.
  - simpl in Hrun. destruct (r_x s) as [x|] eqn:Hx;
      [|injection Hrun as <-; left; by eapply Hstop].
    destruct (seg (r_st s) x) as [xs|] eqn:Hxs; [|done].
    cbn [mbind option_bind] in Hrun. unfold seg in Hxs.
    destruct (Qltb (left xs) (right_ edge)) eqn:Hlt;
      [|injection Hrun as <-; left; by eapply Hstop].
    pose proof Hinv as (Hchain & Hnd & Hnds & Hdisj & HW & Hrr & Hheap
                        & Hw & Hoh & Hohr & Hyend & Hy).
    rewrite Hx in Hchain.
    apply chain_from_Some in Hchain as (rest' & xs' & -> & Hxs' & Hchain).
    rewrite Hxs in Hxs'. injection Hxs' as <-.
    destruct (Qle_bool (left_ edge) (right xs)
              && Qle_bool (left xs) (right_ edge)) eqn:Hov.
    + destruct (remove_overlap edge s x) as [[s1 b]|] eqn:Hstep; [|done].
      destruct (remove_overlap_inv _ _ _ _ _ _ _ _ Hinv Hstep) as [w Hres].
      apply remove_overlap_arena in Hstep as [(_ & Hsuf & _) Hbreak].
      destruct b.
      * injection Hrun as <-. destruct (Hbreak eq_refl) as (Hor & z & Hz & Hin).
        unfold residue in Hzi. rewrite Hor, Hz in Hzi.
        injection Hzi as <-. by right.
      * destruct (IH _ _ _ _ Hres Hrun zi Hzi) as [Hin|Hin].
        -- left. by right.
        -- right. by eapply elem_of_suffix.
    + assert (removal_inv edge H0
                (mkRemoval (r_st s) (r_H s) (next xs) (Some x) (r_z s)
                   (r_w s) (output_head s) (overhang_right s)) W rest')
        as Hinv'.
      { apply NoDup_cons in Hnd as [Hxrest Hnd].
        unfold removal_inv.
        cbn [r_st r_H r_y r_z r_x r_w output_head overhang_right].
        split_and!; try done.
        - intros a Ha. apply Hdisj. by right.
        - intros a Ha. destruct (HW a Ha) as [Hr Hs]. split; [|done].
          by apply not_elem_of_cons in Hr as [_ Hr].
        - intros yi [= <-]. exists xs. split; [done|].
          apply andb_false_iff in Hov as [Hov|Hov].
          + apply Qlt_le_weak, Qltb_lt. unfold Qltb. by rewrite Hov.
          + apply Qltb_lt, Qlt_le_weak in Hlt.
            apply Qle_bool_iff in Hlt. by rewrite Hlt in Hov.
        - intros yi [= <-]. split; [done|]. apply Hdisj. by left. }
      destruct (IH _ _ _ _ Hinv' Hrun zi Hzi) as [Hin|Hin].
      * left. by right.
      * by right.
Qed.

Lemma remove_wrap_up_A child s st' :
  remove_wrap_up child s = Some st' →
  A st' = A (r_st s) ∨
  A st' = delete child (A (r_st s)) ∨
  ∃ zi, residue s = Some zi ∧ A st' = <[child:=zi]> (A (r_st s)).
Proof.
  intros Hrun. unfold remove_wrap_up in Hrun. cbv zeta in Hrun.
  destruct (negb (output_head s)); [|injection Hrun as <-; by left].
  assert ((if negb (overhang_right s) then r_x s else r_z s) = residue s)
    as Hz by (unfold residue; by destruct (overhang_right s)).
  rewrite Hz in Hrun. clear Hz.
  match type of Hrun with
  | mbind _ ?e = _ => destruct e as [st1|] eqn:Hup1; [|done]
  end.
  cbn [mbind option_bind] in Hrun.
  apply update_seg_opt_arena in Hup1 as [_ HA1].
  match type of Hrun with
  | mbind _ ?e = _ => destruct e as [st2|] eqn:Hup2; [|done]
  end.
  cbn [mbind option_bind] in Hrun.
  assert (A st2 = A (r_st s)) as HA.
  { rewrite <-HA1. destruct (residue s);
      [by apply update_seg_arena in Hup2 as [_ ?]|by injection Hup2 as <-]. }
  destruct (r_y s); [injection Hrun as <-; by left|].
  destruct (residue s) as [zi|]; injection Hrun as <-; right.
  - right. exists zi. cbn [A set_A]. by rewrite HA.
  - left. cbn [A set_A]. by rewrite HA.
Qed.

(** X6: when [remove_ancestry] moves the entry of a child in the ancestor
    index map to another segment, that segment is not registered with
    the population ([remove_ancestry] registers nothing), so
    [get_ancestor] finds no ancestor for the child afterwards.  The
    child's ancestry is a well-formed chain, and of its segments and the
    free slots only the head [a] is registered. *)
Theorem remove_child_moves_to_unregistered
    fuel edge st H0 child a chain st' H' z :
  A st !! child = Some a →
  chain_from (segments st) (get_ancestor st child) chain →
  NoDup chain → NoDup (segment_stack st) →
  (∀ i, i ∈ chain → i ∉ segment_stack st) →
  (∀ i, i ∈ P st → i ∈ chain ∨ i ∈ segment_stack st → i = a) →
  remove_child fuel edge st H0 child = Some (st', H') →
  A st' !! child = Some z → z ≠ a →
  get_ancestor st' child = None.
Proof.
  intros HA Hchain Hnd Hnds Hdisj Hreg Hrun Hz Hza.
  pose proof (remove_child_arena _ _ _ _ _ _ _ Hrun)
    as [((stack & segs & A' & Hst') & _) _].
  assert (P st' = P st) as HP by (by rewrite Hst').
  unfold remove_child in Hrun. rewrite HA in Hrun.
  destruct (remove_loop _ _ _) as [s|] eqn:Hloop; [|done].
  cbn [mbind option_bind] in Hrun.
  destruct (remove_wrap_up child s) as [st1|] eqn:Hwrap; [|done].
  cbn [mbind option_bind] in Hrun. injection Hrun as <- <-.
  pose proof (remove_loop_A _ _ _ _ Hloop) as HAs. cbn [r_st] in HAs.
  assert (removal_inv edge H0
            (mkRemoval st H0 (get_ancestor st child) None None None
               true false) [] chain) as Hinv.
  { unfold removal_inv.
    cbn [r_st r_H r_y r_z r_x r_w output_head overhang_right].
    split_and!; try done. by intros i Hi%elem_of_nil. }
  pose proof (remove_loop_residue _ _ _ _ _ _ _ Hinv Hloop) as Hres.
  cbn [r_st] in Hres.
  unfold get_ancestor. rewrite Hz. apply from_index_None. rewrite HP.
  intros HzP. apply Hza, Hreg; [done|]. apply Hres.
  apply remove_wrap_up_A in Hwrap as [HA'|[HA'|(zi & Hzi & HA')]];
    rewrite HA', HAs in Hz.
  - rewrite HA in Hz. by injection Hz as <-.
  - by rewrite lookup_delete_eq in Hz.
  - rewrite lookup_insert_eq in Hz. by injection Hz as <-.
Qed.

Lemma remove_child_moves_to_unregistered_witness :
  ∃ st st' H',
    Simplifier_init three_samples [0; 1; 2]%nat 6 = Some st ∧
    remove_child 10 (mkEdgeset 0 6 3 [0; 1]%nat) st [] 0 = Some (st', H') ∧
    A st !! 0%nat = Some 6%nat ∧ A st' !! 0%nat = Some 3%nat ∧
    get_ancestor st' 0 = None.
Proof.
  eexists _, _, _. split; [vm_compute; reflexivity|].
  match goal with
  | |- ?run = _ ∧ _ =>
      assert (run = Some (_, _)) as Hrun by (vm_compute; reflexivity)
  end.
  split; [exact Hrun|].
  split; [vm_compute; reflexivity|].
  split; [vm_compute; reflexivity|].
  refine (remove_child_moves_to_unregistered 10 _ _ [] 0%nat 6%nat [6%nat]
            _ _ 3%nat _ _ _ _ _ _ Hrun _ _).
  - vm_compute; reflexivity.
  - split; [vm_compute; reflexivity|]. eexists.
    split; vm_compute; reflexivity.
  - apply NoDup_singleton.
  - apply (bool_decide_unpack _). vm_compute. exact I.
  - intros i Hi%list_elem_of_singleton. subst i. vm_compute.
    intros Hin. repeat (apply elem_of_cons in Hin as [Hin|Hin]; [lia|]).
    by apply elem_of_nil in Hin.
  - intros i HiP [Hi|Hi].
    + by apply list_elem_of_singleton in Hi.
    + vm_compute in HiP, Hi.
      repeat (apply elem_of_cons in HiP as [HiP|HiP];
              [subst i;
               repeat (apply elem_of_cons in Hi as [Hi|Hi]; [lia|]);
               by apply elem_of_nil in Hi|]).
      by apply elem_of_nil in HiP.
  - vm_compute; reflexivity.
  - lia.
Defined.

(** ** The constructor and [get_ancestor] *)

(** X18: after the constructor, [get_ancestor(k)] is a segment over the
    whole sequence for the node [k] exactly for the kept samples [k]
    below the sample count, and [None] for every other identifier; two
    kept samples never share a segment. *)
Theorem Simplifier_init_get_ancestor
    (ts0 : TreeSequence) (samples : list nat) (max : nat) :
  let n0 := length (Tables.samples ts0) in
  (length (kept_in_range samples n0) ≤ max)%nat →
  ∃ st,
    Simplifier_init ts0 samples max = Some st ∧
    (∀ k, k ∈ samples → (k < n0)%nat →
       ∃ x, get_ancestor st k = Some x ∧
            segments st !! x
            = Some (mkSeg 0 (sequence_length ts0) k 0 None None)) ∧
    (∀ k, ¬ (k ∈ samples ∧ (k < n0)%nat) → get_ancestor st k = None) ∧
    (∀ k1 k2 x, get_ancestor st k1 = Some x → get_ancestor st k2 = Some x →
                k1 = k2).
Proof.
  intros n0 Hlen.
  destruct (Simplifier_init_spec ts0 samples max Hlen) as
    (st1 & Hrun & [Hnd Hheads] & Hn & Hm & Hts & HS & HC & Hpop & HA & HP
     & Hstack).
  fold n0 in HA.
  eexists. split; [exact Hrun|].
  assert (∀ k x, get_ancestor st1 k = Some x →
                 A st1 !! k = Some x ∧
                 segments st1 !! x
                 = Some (mkSeg 0 (sequence_length ts0) k 0 None None))
    as Hget.
  { intros k x Hk. unfold get_ancestor in Hk.
    destruct (A st1 !! k) as [i|] eqn:Hi; [|done].
    destruct (Hheads k i Hi) as (Hseg & HiP & _).
    rewrite from_index_Some in Hk by done. injection Hk as <-.
    by rewrite Hm, Hpop in Hseg. }
  unfold get_ancestor, from_index in *. cbn [A P segments set_w set_t set_S].
  split_and!.
  - intros k Hk Hkn. destruct (proj2 (HA k)) as [x Hx]; [done|].
    exists x. destruct (Hheads k x Hx) as (Hseg & HxP & _).
    rewrite Hx. fold (from_index st1 x). rewrite from_index_Some by done.
    split; [done|]. by rewrite Hm, Hpop in Hseg.
  - intros k Hk. destruct (A st1 !! k) as [x|] eqn:Hx; [|done].
    destruct Hk. apply HA. by eexists.
  - intros k1 k2 x H1 H2.
    apply Hget in H1 as [_ H1]. apply Hget in H2 as [_ H2].
    rewrite H1 in H2. by injection H2.
Qed.

Lemma Simplifier_init_get_ancestor_witness :
  ∃ st,
    Simplifier_init three_samples [0; 2; 7]%nat 6 = Some st ∧
    (∀ k, k ∈ [0; 2; 7]%nat → (k < 3)%nat →
       ∃ x, get_ancestor st k = Some x ∧
            segments st !! x = Some (mkSeg 0 10 k 0 None None)) ∧
    (∀ k, ¬ (k ∈ [0; 2; 7]%nat ∧ (k < 3)%nat) → get_ancestor st k = None) ∧
    (∀ k1 k2 x, get_ancestor st k1 = Some x → get_ancestor st k2 = Some x →
                k1 = k2).
Proof.
  apply (Simplifier_init_get_ancestor three_samples [0; 2; 7]%nat 6).
  vm_compute. lia.
Defined.


(** ** [merge_labeled_ancestors]: the batch popped from the heap *)

(** X20: the inner loop of [merge_labeled_ancestors] pops exactly the
    entries at the front of the heap whose key equals [l], in heap
    order, and stops at the first other key; [r_max] ends as the least
    of its initial value and the right ends of the segments popped. *)
Theorem pop_batch_takes_equal_keys st l : ∀ H X r0 H' X' r,
  pop_batch st l H X r0 = Some (H', X', r) →
  ∃ popped,
    H = popped ++ H' ∧ X' = X ++ map snd popped ∧
    Forall (fun e : Q * nat => Qeq_bool e.1 l = true) popped ∧
    match H' with
    | (k, _) :: _ => Qeq_bool k l = false
    | [] => True
    end ∧
    (r <= r0)%Q ∧
    Forall (fun e : Q * nat =>
              ∃ xs, segments st !! e.2 = Some xs ∧ (r <= right xs)%Q) popped ∧
    (r = r0 ∨ ∃ e xs, e ∈ popped ∧ segments st !! e.2 = Some xs ∧
                      r = right xs).
Proof.
  induction H as [|[k x] H IH]; intros X r0 H' X' r Hrun; simpl in Hrun.
  - injection Hrun as <- <- <-. exists []. simpl. rewrite app_nil_r.
    split_and!; try done; [apply Qle_refl|by left].
  - destruct (Qeq_bool k l) eqn:Hk.
    + destruct (seg st x) as [xs|] eqn:Hxs; [|done].
      cbn [mbind option_bind] in Hrun. unfold seg in Hxs.
      apply IH in Hrun
        as (popped & -> & -> & Hkeys & Hhead & Hle & Hrights & Hmin).
      exists ((k, x) :: popped). rewrite <-app_assoc.
      assert (py_min r0 (right xs) <= r0)%Q as Hle0.
      { unfold py_min. destruct (Qltb (right xs) r0) eqn:Hlt;
          [|apply Qle_refl].
        by apply Qlt_le_weak, Qltb_lt. }
      assert (py_min r0 (right xs) <= right xs)%Q as Hle1.
      { unfold py_min. destruct (Qltb (right xs) r0) eqn:Hlt;
          [apply Qle_refl|]. by apply Qltb_false_le. }
      split_and!; try done.
      * by constructor.
      * by eapply Qle_trans.
      * constructor; [|done]. exists xs. split; [done|].
        by eapply Qle_trans.
      * destruct Hmin as [->|(e & es & He & Hes & ->)].
        -- unfold py_min. destruct (Qltb (right xs) r0); [|by left].
           right. exists (k, x), xs. split; [by left|done].
        -- right. exists e, es. split; [by right|done].
    + injection Hrun as <- <- <-. exists []. simpl. rewrite app_nil_r.
      split_and!; try done; [apply Qle_refl|by left].
Qed.

Lemma pop_batch_takes_equal_keys_witness :
  ∃ st H' X r,
    first_removal three_samples [0; 1; 2]%nat
    = Some (st, [(0%Q, 6%nat); (0%Q, 5%nat)]) ∧
    pop_batch st 0 [(0%Q, 6%nat); (0%Q, 5%nat)] [] 11 = Some (H', X, r) ∧
    ∃ popped,
      [(0%Q, 6%nat); (0%Q, 5%nat)] = popped ++ H' ∧
      X = [] ++ map snd popped ∧
      Forall (fun e : Q * nat => Qeq_bool e.1 0 = true) popped ∧
      match H' with
      | (k, _) :: _ => Qeq_bool k 0 = false
      | [] => True
      end ∧
      (r <= 11)%Q ∧
      Forall (fun e : Q * nat =>
                ∃ xs, segments st !! e.2 = Some xs ∧ (r <= right xs)%Q)
        popped ∧
      (r = 11%Q ∨ ∃ e xs, e ∈ popped ∧ segments st !! e.2 = Some xs ∧
                          r = right xs).
Proof.
  eexists _, _, _, _. split; [vm_compute; reflexivity|].
  match goal with
  | |- ?run = _ ∧ _ =>
      assert (run = Some (_, _, _)) as Hrun by (vm_compute; reflexivity)
  end.
  split; [exact Hrun|].
  exact (pop_batch_takes_equal_keys _ _ _ _ _ _ _ _ Hrun).
Defined.

(** ** [merge_labeled_ancestors]: the loop over the batch *)

Lemma update_seg_with_left_shape st x q st' :
  update_seg st x (with_left q) = Some st' →
  segment_stack st' = segment_stack st ∧ A st' = A st ∧ P st' = P st ∧
  S_ st' = S_ st ∧
  ∀ y, node_of st' y = node_of st y ∧
       ∀ r, ends_at st' r y ↔ ends_at st r y.
Proof.
  unfold update_seg, seg. intros Hrun.
  destruct (segments st !! x) as [xs|] eqn:Hxs; [|done].
  injection Hrun as <-. split_and!; try done.
  intros y. unfold node_of, ends_at. cbn [segments set_segments set_store].
  destruct (decide (x = y)) as [->|Hne].
  - rewrite lookup_insert_eq, Hxs. split; [done|]. intros r. split.
    + intros (ys & [= <-] & Hr). by exists xs.
    + intros (ys & [= <-] & Hr). by eexists.
  - by rewrite lookup_insert_ne.
Qed.

(** X21: the loop over the members of a batch appends their nodes, in
    batch order, to the children of the record; it returns to the free
    list exactly the members that end at [r], adds at most one heap
    entry per member, and leaves [A], [P] and [S] alone. *)
Theorem settle_batch_children_and_frees (r : Q) : ∀ X st H cs st' H' cs',
  settle_batch st H X r cs = Some (st', H', cs') →
  ∃ nodes,
    cs' = cs ++ nodes ∧
    Forall2 (fun x u => node_of st x = Some u) X nodes ∧
    (length H' ≤ length H + length X)%nat ∧
    segment_stack st'
    = reverse (filter (ends_at st r) X) ++ segment_stack st ∧
    A st' = A st ∧ P st' = P st ∧ S_ st' = S_ st ∧
    ∀ y, node_of st' y = node_of st y ∧
         ∀ r', ends_at st' r' y ↔ ends_at st r' y.
Proof.
  induction X as [|x X IH]; intros st H cs st' H' cs' Hrun; simpl in Hrun.
  - injection Hrun as <- <- <-. exists []. rewrite app_nil_r.
    split_and!; try done. simpl. lia.
  - destruct (seg st x) as [xs|] eqn:Hxs; [|done].
    cbn [mbind option_bind] in Hrun. unfold seg in Hxs.
    assert (node_of st x = Some (node xs)) as Hnode
      by (unfold node_of; by rewrite Hxs).
    destruct (Qeq_bool (right xs) r) eqn:Hr.
    + (* [x] ends at [r]: it is freed *)
      assert (seg (free_segment st x) x = Some xs) as Hxs1 by exact Hxs.
      rewrite Hxs1 in Hrun. cbn [mbind option_bind] in Hrun.
      match type of Hrun with
      | mbind _ ?e = _ => destruct e as [H1|] eqn:HH1; [|done]
      end.
      cbn [mbind option_bind] in Hrun.
      assert (length H1 ≤ S (length H))%nat as Hlen1.
      { destruct (next xs) as [y|]; [|injection HH1 as <-; lia].
        destruct (seg _ y) as [ys|]; [|done].
        cbn [mbind option_bind] in HH1. injection HH1 as <-.
        rewrite length_heappush. lia. }
      apply IH in Hrun
        as (nodes & -> & Hnodes & Hlen & Hstack & HA & HP & HS & Hshape).
      exists (node xs :: nodes). rewrite <-app_assoc.
      split_and!; try done.
      * by constructor.
      * simpl. lia.
      * rewrite Hstack. cbn [segment_stack free_segment set_store].
        rewrite filter_cons, decide_True by (by exists xs).
        rewrite reverse_cons, <-app_assoc. done.
    + destruct (Qltb r (right xs)) eqn:Hlt.
      * (* [x] reaches beyond [r]: it is cut and pushed back *)
        destruct (update_seg st x (with_left r)) as [st1|] eqn:Hup; [|done].
        cbn [mbind option_bind] in Hrun.
        apply update_seg_with_left_shape in Hup
          as (Hstack1 & HA1 & HP1 & HS1 & Hshape1).
        apply IH in Hrun
          as (nodes & -> & Hnodes & Hlen & Hstack & HA & HP & HS & Hshape).
        exists (node xs :: nodes). rewrite <-app_assoc.
        rewrite length_heappush in Hlen.
        split_and!; try congruence; try done.
        -- constructor; [done|].
           eapply Forall2_impl; [exact Hnodes|]. intros y u Hy.
           by rewrite <-(proj1 (Hshape1 y)).
        -- simpl. lia.
        -- rewrite Hstack, Hstack1.
           rewrite filter_cons, decide_False.
           ++ f_equal. f_equal. apply list_filter_iff. intros y.
              apply Hshape1.
           ++ intros (xs' & Hxs' & Hr'). rewrite Hxs in Hxs'.
              injection Hxs' as <-. congruence.
        -- intros y. destruct (Hshape y) as [Hn He].
           destruct (Hshape1 y) as [Hn1 He1]. split; [congruence|].
           intros r'. by rewrite He, He1.
      * (* [x] ends before [r]: it is left as it is *)
        apply IH in Hrun
          as (nodes & -> & Hnodes & Hlen & Hstack & HA & HP & HS & Hshape).
        exists (node xs :: nodes). rewrite <-app_assoc.
        split_and!; try done.
        -- by constructor.
        -- simpl. lia.
        -- rewrite Hstack. rewrite filter_cons, decide_False; [done|].
           intros (xs' & Hxs' & Hr'). rewrite Hxs in Hxs'.
           injection Hxs' as <-. congruence.
Qed.

Lemma settle_batch_children_and_frees_witness :
  ∃ st st' H' cs',
    first_removal three_samples [0; 1; 2]%nat
    = Some (st, [(0%Q, 6%nat); (0%Q, 5%nat)]) ∧
    settle_batch st [] [6; 5]%nat 10 [] = Some (st', H', cs') ∧
    ∃ nodes,
      cs' = [] ++ nodes ∧
      Forall2 (fun x u => node_of st x = Some u) [6; 5]%nat nodes ∧
      (length H' ≤ length (@nil (Q * nat)) + length [6; 5]%nat)%nat ∧
      segment_stack st'
      = reverse (filter (ends_at st 10) [6; 5]%nat) ++ segment_stack st ∧
      A st' = A st ∧ P st' = P st ∧ S_ st' = S_ st ∧
      ∀ y, node_of st' y = node_of st y ∧
           ∀ r', ends_at st' r' y ↔ ends_at st r' y.
Proof.
  eexists _, _, _, _. split; [vm_compute; reflexivity|].
  match goal with
  | |- ?run = _ ∧ _ =>
      assert (run = Some (_, _, _)) as Hrun by (vm_compute; reflexivity)
  end.
  split; [exact Hrun|].
  exact (settle_batch_children_and_frees _ _ _ _ _ _ _ _ Hrun).
Defined.

(** ** [merge_labeled_ancestors]: new keys of the breakpoint map *)

Lemma Qeq_bool_refl (a : Q) : Qeq_bool a a = true.
Proof. apply Qeq_bool_iff, Qeq_refl. Qed.

Lemma Qeq_bool_lt (a b : Q) : (a < b)%Q → Qeq_bool b a = false.
Proof.
  intros Hlt. apply not_true_iff_false. rewrite Qeq_bool_iff.
  intros Heq. rewrite Heq in Hlt. by apply Qlt_irrefl in Hlt.
Qed.

Lemma Qeq_bool_gt (a b : Q) : (a < b)%Q → Qeq_bool a b = false.
Proof.
  intros Hlt. apply not_true_iff_false. rewrite Qeq_bool_iff.
  intros Heq. rewrite Heq in Hlt. by apply Qlt_irrefl in Hlt.
Qed.

Lemma floor_key_None p s :
  floor_key p s = None ↔ value_at p s = None.
Proof.
  destruct s as [|[k v] s]; [done|]. simpl.
  destruct (Qle_bool k p); [|done]. by destruct (floor_key p s).
Qed.

Lemma floor_key_elem p s j :
  floor_key p s = Some j → ∃ v, (j, v) ∈ s.
Proof.
  revert j. induction s as [|[k v] s IH]; intros j; simpl; [done|].
  destruct (Qle_bool k p); [|done].
  destruct (floor_key p s) as [j'|] eqn:Hj.
  - intros [= <-]. destruct (IH j' eq_refl) as [v' Hv'].
    exists v'. by right.
  - intros [= <-]. exists v. by left.
Qed.

Lemma count_at_value_at p s :
  ascending s → count_at p s = value_at p s.
Proof.
  unfold count_at. induction s as [|[k v] s IH]; [done|].
  intros [Hk Hs]. simpl. destruct (Qle_bool k p); [|done].
  specialize (IH Hs).
  destruct (floor_key p s) as [j|] eqn:Hj; cbn [mbind option_bind] in *.
  - destruct (floor_key_elem _ _ _ Hj) as [vj Hvj].
    rewrite Forall_forall in Hk. specialize (Hk _ Hvj). cbn in Hk.
    rewrite (Qeq_bool_lt _ _ Hk). rewrite IH.
    destruct (value_at p s) as [w|] eqn:Hw; [done|].
    apply floor_key_None in Hw. congruence.
  - rewrite Qeq_bool_refl. apply floor_key_None in Hj. by rewrite Hj.
Qed.

Lemma avl_get_avl_set k v s : avl_get k (avl_set k v s) = Some v.
Proof.
  induction s as [|[k' v'] s IH]; simpl; [by rewrite Qeq_bool_refl|].
  destruct (k ?= k')%Q eqn:Hcmp; simpl.
  - apply Qeq_alt in Hcmp. apply Qeq_bool_iff in Hcmp. by rewrite Hcmp.
  - by rewrite Qeq_bool_refl.
  - apply Qgt_alt in Hcmp. by rewrite (Qeq_bool_lt _ _ Hcmp).
Qed.

Lemma Forall_avl_set (Q0 : Q * Z → Prop) k v s :
  Q0 (k, v) → (∀ k' v', Q0 (k', v') → Q0 (k', v)) →
  Forall Q0 s → Forall Q0 (avl_set k v s).
Proof.
  intros Hk Hv. induction 1 as [|[k' v'] s He Hs IH]; simpl.
  - by constructor.
  - destruct (k ?= k')%Q; repeat constructor; eauto.
Qed.

Lemma ascending_avl_set k v s : ascending s → ascending (avl_set k v s).
Proof.
  induction s as [|[k' v'] s IH]; [done|]. intros [Hk Hs]. simpl.
  destruct (k ?= k')%Q eqn:Hcmp.
  - done.
  - apply Qlt_alt in Hcmp. split; [|done]. constructor; [done|].
    eapply Forall_impl; [exact Hk|]. intros e He. cbn in *.
    by eapply Qlt_trans.
  - apply Qgt_alt in Hcmp. split; [|by apply IH].
    apply Forall_avl_set; [done| |done]. by intros k0 v0 ?.
Qed.

Lemma value_at_above p s :
  match s with
  | [] => True
  | (k, _) :: _ => (p < k)%Q
  end →
  value_at p s = None.
Proof.
  destruct s as [|[k v] s]; [done|]. intros Hlt. simpl.
  destruct (Qle_bool k p) eqn:Hle; [|done].
  apply Qle_bool_iff in Hle. by apply Qle_not_lt in Hle.
Qed.

Lemma value_at_avl_set k v : ∀ s,
  ascending s → avl_get k s = None → value_at k s = Some v →
  ∀ p, value_at p (avl_set k v s) = value_at p s.
Proof.
  induction s as [|[k' v'] s IH]; intros Hasc Hkey Hval p; [done|].
  destruct Hasc as [Hk' Hs]. simpl in Hkey, Hval.
  destruct (Qeq_bool k k') eqn:Heq; [done|].
  destruct (Qle_bool k' k) eqn:Hle; [|done].
  assert (k' < k)%Q as Hlt.
  { apply Qle_bool_iff in Hle. apply Qle_lt_or_eq in Hle as [?|Heq']; [done|].
    apply Qeq_sym, Qeq_bool_iff in Heq'. congruence. }
  simpl. rewrite (proj1 (Qgt_alt k k') Hlt). simpl.
  destruct (Qle_bool k' p) eqn:Hp; [|done]. f_equal.
  destruct (value_at k s) as [v2|] eqn:Hv2.
  - injection Hval as <-. cbn [default]. by rewrite IH.
  - injection Hval as <-. cbn [default].
    assert (avl_set k v' s = (k, v') :: s) as ->.
    { destruct s as [|[k2 v2] s2]; [done|]. simpl in Hv2 |- *.
      destruct (Qle_bool k2 k) eqn:Hle2; [done|].
      assert (k < k2)%Q as Hlt2.
      { apply Qnot_le_lt. intros Hc. apply Qle_bool_iff in Hc. congruence. }
      by rewrite (proj1 (Qlt_alt k k2) Hlt2). }
    simpl. destruct (Qle_bool k p) eqn:Hkp; [by destruct (value_at p s)|].
    rewrite value_at_above; [done|].
    destruct s as [|[k2 v2] s2]; [done|]. simpl in Hv2.
    destruct (Qle_bool k2 k) eqn:Hle2; [done|].
    apply Qlt_trans with k.
    + apply Qnot_le_lt. intros Hc. apply Qle_bool_iff in Hc. congruence.
    + apply Qnot_le_lt. intros Hc. apply Qle_bool_iff in Hc. congruence.
Qed.

(** X22: making [k] a key of the breakpoint map (lines 212-217) changes
    no count: on a map whose keys ascend, the new map has the key [k],
    its keys ascend, and the count it gives for any position is the
    count the old map gave. *)
Theorem ensure_key_keeps_counts (k : Q) (s s' : avl) :
  ascending s → ensure_key k s = Some s' →
  ascending s' ∧ is_Some (avl_get k s') ∧
  ∀ p, count_at p s' = count_at p s.
Proof.
  intros Hasc Hrun. unfold ensure_key, avl_mem in Hrun.
  case_bool_decide as Hmem.
  - injection Hrun as <-. done.
  - apply eq_None_not_Some in Hmem.
    destruct (floor_key k s) as [j|] eqn:Hj; [|done].
    cbn [mbind option_bind] in Hrun.
    destruct (avl_get j s) as [v|] eqn:Hv; [|done].
    cbn [mbind option_bind] in Hrun. injection Hrun as <-.
    assert (value_at k s = Some v) as Hval.
    { rewrite <-count_at_value_at by done. unfold count_at.
      rewrite Hj. done. }
    split_and!.
    + by apply ascending_avl_set.
    + rewrite avl_get_avl_set. by eexists.
    + intros p. rewrite !count_at_value_at
        by (done || by apply ascending_avl_set).
      by apply value_at_avl_set.
Qed.

Lemma ensure_key_keeps_counts_witness :
  ascending three_then_two ∧
  ensure_key 7 three_then_two = Some [(0%Q, 3); (5%Q, 2); (7%Q, 2); (10%Q, -1)] ∧
  ascending [(0%Q, 3); (5%Q, 2); (7%Q, 2); (10%Q, -1)] ∧
  is_Some (avl_get 7 [(0%Q, 3); (5%Q, 2); (7%Q, 2); (10%Q, -1)]) ∧
  ∀ p, count_at p [(0%Q, 3); (5%Q, 2); (7%Q, 2); (10%Q, -1)]
       = count_at p three_then_two.
Proof.
  assert (ascending three_then_two) as Hasc.
  { cbn. repeat (split || constructor); reflexivity. }
  split; [done|]. split; [reflexivity|].
  by apply (ensure_key_keeps_counts 7 three_then_two).
Defined.

(** X23: [ensure_key] raises exactly when [k] is not a key and no key of
    the map lies at or below [k]: the map is empty or its first key is
    above [k]. *)
Theorem ensure_key_raises_iff (k : Q) (s : avl) :
  ascending s →
  ensure_key k s = None ↔
  match s with
  | [] => True
  | (k', _) :: _ => (k < k')%Q
  end.
Proof.
  intros Hasc. split.
  - intros Hrun. destruct s as [|[k' v'] s]; [done|].
    apply Qnot_le_lt. intros Hle. apply Qle_bool_iff in Hle.
    unfold ensure_key, avl_mem in Hrun. case_bool_decide; [done|].
    destruct (floor_key k ((k', v') :: s)) as [j|] eqn:Hj.
    + cbn [mbind option_bind] in Hrun.
      assert (count_at k ((k', v') :: s) = None) as Hcount.
      { unfold count_at. rewrite Hj. cbn [mbind option_bind].
        by destruct (avl_get j ((k', v') :: s)). }
      rewrite count_at_value_at in Hcount by done. simpl in Hcount.
      by rewrite Hle in Hcount.
    + simpl in Hj. rewrite Hle in Hj. by destruct (floor_key k s).
  - intros Habove. unfold ensure_key, avl_mem.
    assert (floor_key k s = None) as Hj.
    { apply floor_key_None. by apply value_at_above. }
    case_bool_decide as Hmem; [|by rewrite Hj].
    destruct s as [|[k' v'] s]; [by destruct Hmem|].
    destruct Hmem as [v Hv]. simpl in Hv.
    rewrite (Qeq_bool_gt _ _ Habove) in Hv.
    destruct Hasc as [Hk' Hs]. exfalso. clear -Hv Hk' Habove.
    induction s as [|[k2 v2] s IH]; [done|].
    apply Forall_cons in Hk' as [Hk2 Hk']. simpl in Hv, Hk2.
    destruct (Qeq_bool k k2) eqn:Heq; [|by apply IH].
    apply Qeq_bool_iff in Heq. rewrite Heq in Habove.
    apply (Qlt_irrefl k2). by eapply Qlt_trans.
Qed.

Lemma ensure_key_raises_iff_witness :
  ascending [(5%Q, 2); (10%Q, -1)] ∧
  (ensure_key 3 [(5%Q, 2); (10%Q, -1)] = None ↔ (3 < 5)%Q).
Proof.
  assert (ascending [(5%Q, 2); (10%Q, -1)]) as Hasc.
  { cbn. repeat (split || constructor); reflexivity. }
  split; [done|]. exact (ensure_key_raises_iff 3 _ Hasc).
Defined.

End SimplifyFacts.
